(** * cssinjs: a shallow embedding of the style compiler and its cache manager

    The development follows the layout of [src/lib]:
    - [Utils]   : [src/lib/utils.ts]   (naming, units, normalisation, fingerprint)
    - [Parser]  : [src/lib/parser.ts]  (style and keyframe compilation)
    - [Manager] : [src/lib/manager.ts] (caches, configuration, eviction)
    - [Css]     : [src/lib/css.ts]     (the public [css] entry point, custom properties)
    - [Variables] : [src/lib/variables.ts] (theme variables)

    JavaScript strings are modelled as [string]s whose characters stand for
    code units below 256; objects are association lists in the order in which
    [Object.entries] enumerates their own properties. *)

From Stdlib Require Import ZArith List String Ascii Bool Lia Permutation.
Import ListNotations.

Set Warnings "-register-all".

Local Open Scope string_scope.
Local Open Scope Z_scope.

(** ** Characters and strings of the host language *)

Module Js.

Definition code (c : ascii) : Z := Z.of_nat (nat_of_ascii c).
Definition chr (z : Z) : ascii := ascii_of_nat (Z.to_nat z).

Definition nl : string := String "010"%char EmptyString.
Definition dquote : ascii := "034"%char.
Definition backslash : ascii := "092"%char.

Definition isUpper (c : ascii) : bool := (65 <=? code c) && (code c <=? 90).
Definition isLower (c : ascii) : bool := (97 <=? code c) && (code c <=? 122).
Definition isDigit (c : ascii) : bool := (48 <=? code c) && (code c <=? 57).

(** [\s] and the characters removed by [trim], restricted to code units
    below 256: TAB, LF, VT, FF, CR, SPACE and NBSP. *)
Definition isSpace (c : ascii) : bool :=
  ((9 <=? code c) && (code c <=? 13)) || (code c =? 32) || (code c =? 160).

(** [toLowerCase] and [toUpperCase] on one code unit below 256: the
    letters A to Z, and for [toLowerCase] also the capital letters of
    Latin-1, U+00C0 to U+00DE without the multiplication sign U+00D7.
    [upperChar] is only applied to the letters a to z. *)
Definition isLatin1Capital (c : ascii) : bool :=
  (192 <=? code c) && (code c <=? 222) && negb (code c =? 215).

Definition lowerChar (c : ascii) : ascii :=
  if isUpper c || isLatin1Capital c then chr (code c + 32) else c.
Definition upperChar (c : ascii) : ascii := if isLower c then chr (code c - 32) else c.

Fixpoint mapString (f : ascii -> ascii) (s : string) : string :=
  match s with
  | EmptyString => EmptyString
  | String c r => String (f c) (mapString f r)
  end.

Definition toLowerCase : string -> string := mapString lowerChar.

Definition startsWith (s p : string) : bool := String.prefix p s.

Fixpoint includes (s p : string) : bool :=
  String.prefix p s ||
  match s with
  | EmptyString => false
  | String _ r => includes r p
  end.

Fixpoint join (sep : string) (l : list string) : string :=
  match l with
  | [] => EmptyString
  | [x] => x
  | x :: r => x ++ sep ++ join sep r
  end.

Fixpoint dropSpaces (s : string) : string :=
  match s with
  | String c r => if isSpace c then dropSpaces r else s
  | EmptyString => EmptyString
  end.

Fixpoint rev (s acc : string) : string :=
  match s with
  | EmptyString => acc
  | String c r => rev r (String c acc)
  end.

(** [String.prototype.trim] *)
Definition trim (s : string) : string :=
  rev (dropSpaces (rev (dropSpaces s) EmptyString)) EmptyString.

Fixpoint skipn (n : nat) (s : string) : string :=
  match n, s with
  | O, _ => s
  | S _, EmptyString => EmptyString
  | S k, String _ r => skipn k r
  end.

(** [s.slice(-n)] for a positive count [n]: the last [n] code units. *)
Definition sliceLast (n : nat) (s : string) : string :=
  skipn (String.length s - n)%nat s.

(** The replacement text of [String.prototype.replace] for a string pattern
    (GetSubstitution without captures): [$$], [$&], [$`] and [$'] are
    expanded, every other character stands for itself. *)
Fixpoint getSubstitution (matched before after replacement : string) : string :=
  match replacement with
  | EmptyString => EmptyString
  | String "$" (String "$" r) => String "$" (getSubstitution matched before after r)
  | String "$" (String "&" r) => matched ++ getSubstitution matched before after r
  | String "$" (String "`" r) => before ++ getSubstitution matched before after r
  | String "$" (String "'" r) => after ++ getSubstitution matched before after r
  | String c r => String c (getSubstitution matched before after r)
  end.

(** [s.replace(pattern, replacement)] with a string pattern: only the first
    occurrence is replaced. [before] accumulates the text already scanned,
    in reverse. *)
Fixpoint replaceFrom (pattern replacement : string) (before s : string) : string :=
  if String.prefix pattern s then
    let after := skipn (String.length pattern) s in
    rev before EmptyString
      ++ getSubstitution pattern (rev before EmptyString) after replacement
      ++ after
  else
    match s with
    | EmptyString => rev before EmptyString
    | String c r => replaceFrom pattern replacement (String c before) r
    end.

Definition replace (s pattern replacement : string) : string :=
  replaceFrom pattern replacement EmptyString s.

Definition digitChar (d : Z) : ascii := if d <? 10 then chr (48 + d) else chr (87 + d).

Fixpoint digits (radix : Z) (fuel : nat) (n : Z) (acc : string) : string :=
  match fuel with
  | O => acc
  | S f =>
      let acc' := String (digitChar (n mod radix)) acc in
      if n / radix =? 0 then acc' else digits radix f (n / radix) acc'
  end.

(** [n.toString(radix)] for a non-negative integer [n]. *)
Definition toStringRadix (radix n : Z) : string :=
  digits radix (S (Z.to_nat (Z.log2 n))) n EmptyString.

(** Numbers. A finite number is kept as the decimal [mantissa / 10^scale]
    that [String] prints for it: the shortest decimal that reads back as
    the same double. *)
Inductive number : Type :=
| NaN
| Infinity (negative : bool)
| Finite (mantissa : Z) (scale : nat).

Definition ofZ (z : Z) : number := Finite z 0.

Fixpoint padLoop (fuel width : nat) (s : string) : string :=
  match fuel with
  | O => s
  | S k => if (String.length s <? width)%nat then padLoop k width (String "0" s) else s
  end.

(** [s.padStart(width, '0')] *)
Definition padZeros (width : nat) (s : string) : string := padLoop width width s.

Fixpoint dropZeros (s : string) : string :=
  match s with
  | String "0" r => dropZeros r
  | _ => s
  end.

Definition fraction (f : Z) (scale : nat) : string :=
  let padded := padZeros scale (toStringRadix 10 f) in
  rev (dropZeros (rev padded EmptyString)) EmptyString.

(** The exponent notation of [Number::toString]: [digits] are the
    significant digits and the number is [0.digits * 10^n]. *)
Definition exponential (digits : string) (n : Z) : string :=
  let e := n - 1 in
  match digits with
  | EmptyString => EmptyString
  | String d rest =>
      String d (match rest with EmptyString => EmptyString | _ => "." ++ rest end)
        ++ "e" ++ (if e <? 0 then "-" else "+") ++ toStringRadix 10 (Z.abs e)
  end.

(** [String(n)]: positional notation when the decimal point falls
    within 21 digits after and 6 digits before the first significant
    digit, exponent notation otherwise. *)
Definition numberToString (n : number) : string :=
  match n with
  | NaN => "NaN"
  | Infinity negative => if negative then "-Infinity" else "Infinity"
  | Finite m scale =>
      let a := Z.abs m in
      let p := 10 ^ Z.of_nat scale in
      let all := toStringRadix 10 a in
      let point := Z.of_nat (String.length all) - Z.of_nat scale in
      (if m <? 0 then "-" else "")
        ++ (if (m =? 0) || ((-6 <? point) && (point <=? 21))
            then toStringRadix 10 (a / p)
                   ++ (if a mod p =? 0 then "" else "." ++ fraction (a mod p) scale)
            else exponential (rev (dropZeros (rev all EmptyString)) EmptyString) point)
  end.

(** Values that may occur in a style description or an options object. *)
Inductive value : Type :=
| VUndefined
| VNull
| VBool (b : bool)
| VNumber (n : number)
| VString (s : string)
| VObject (props : list (string * value)).

Definition object : Type := list (string * value).

(** Induction on values, with the predicate available for every property
    of an object. *)
Section ValueInduction.
Context (P : value -> Prop).
Context (Hundefined : P VUndefined) (Hnull : P VNull)
        (Hbool : forall b, P (VBool b)) (Hnumber : forall n, P (VNumber n))
        (Hstring : forall s, P (VString s))
        (Hobject : forall props, Forall (fun entry => P (snd entry)) props -> P (VObject props)).

Fixpoint value_induction (v : value) : P v :=
  match v with
  | VUndefined => Hundefined
  | VNull => Hnull
  | VBool b => Hbool b
  | VNumber n => Hnumber n
  | VString s => Hstring s
  | VObject props =>
      Hobject props
        ((fix all (l : list (string * value)) : Forall (fun entry => P (snd entry)) l :=
            match l with
            | [] => Forall_nil _
            | entry :: rest => Forall_cons entry (value_induction (snd entry)) (all rest)
            end) props)
  end.
End ValueInduction.

Definition isObject (v : value) : bool :=
  match v with VObject _ => true | _ => false end.

(** [String(v)] *)
Definition toString (v : value) : string :=
  match v with
  | VUndefined => "undefined"
  | VNull => "null"
  | VBool b => if b then "true" else "false"
  | VNumber n => numberToString n
  | VString s => s
  | VObject _ => "[object Object]"
  end.

Fixpoint charEntries (i : Z) (s : string) : object :=
  match s with
  | EmptyString => []
  | String c r => (toStringRadix 10 i, VString (String c EmptyString)) :: charEntries (i + 1) r
  end.

(** [Object.entries(v)] for a value that is neither null nor undefined:
    the properties of an object, the indexed characters of a string, and
    nothing for the other primitives. *)
Definition entries (v : value) : object :=
  match v with
  | VObject props => props
  | VString s => charEntries 0 s
  | _ => []
  end.

Definition keys (o : object) : list string := map fst o.

(** The value of an own property of an object, if the object has it. *)
Fixpoint getProperty (key : string) (o : object) : option value :=
  match o with
  | [] => None
  | (k, v) :: rest => if String.eqb k key then Some v else getProperty key rest
  end.

(** [o[key] = v] for a name that is not an array index, as the names of
    custom properties are: a write to a name that is already there keeps
    its place, and a new name goes last. *)
Fixpoint setProperty (key : string) (v : value) (o : object) : object :=
  match o with
  | [] => [(key, v)]
  | (k, x) :: rest =>
      if String.eqb k key then (k, v) :: rest else (k, x) :: setProperty key v rest
  end.

(** The value of a decimal text. *)
Fixpoint decimalValue (s : string) (acc : Z) : Z :=
  match s with
  | EmptyString => acc
  | String c r => decimalValue r (10 * acc + (code c - 48))
  end.

Fixpoint allDigits (s : string) : bool :=
  match s with
  | EmptyString => true
  | String c r => isDigit c && allDigits r
  end.

(** An array index: the decimal text, without a leading zero, of an
    integer from 0 to 2^32 - 2. *)
Definition isArrayIndex (s : string) : bool :=
  match s with
  | EmptyString => false
  | String c r =>
      allDigits s
      && (negb (code c =? 48) || (String.length r =? 0)%nat)
      && (decimalValue s 0 <? 2 ^ 32 - 1)
  end.

Section Enumeration.
Context {V : Type}.

Fixpoint insertIndexed (entry : string * V) (l : list (string * V)) : list (string * V) :=
  match l with
  | [] => [entry]
  | x :: r =>
      if decimalValue (fst entry) 0 <=? decimalValue (fst x) 0
      then entry :: l
      else x :: insertIndexed entry r
  end.

(** The order in which [Object.entries] enumerates an object whose
    properties were created in the order of [written], their names all
    different: the array indices in ascending order, then the other names
    in the order of their creation. *)
Definition ownEntries (written : list (string * V)) : list (string * V) :=
  (fold_right insertIndexed [] (filter (fun entry => isArrayIndex (fst entry)) written)
   ++ filter (fun entry => negb (isArrayIndex (fst entry))) written)%list.
End Enumeration.

Fixpoint insertSorted (k : string) (l : list string) : list string :=
  match l with
  | [] => [k]
  | x :: r => if String.leb k x then k :: l else x :: insertSorted k r
  end.

(** [Array.prototype.sort] without a comparator, on strings. *)
Definition sort (l : list string) : list string := fold_right insertSorted [] l.

Definition hex4 (n : Z) : string :=
  let h := toStringRadix 16 n in
  padZeros 4 h.

Definition quoteChar (c : ascii) : string :=
  if code c =? 34 then String backslash (String dquote EmptyString)
  else if code c =? 92 then String backslash (String backslash EmptyString)
  else if code c =? 8 then String backslash "b"
  else if code c =? 9 then String backslash "t"
  else if code c =? 10 then String backslash "n"
  else if code c =? 12 then String backslash "f"
  else if code c =? 13 then String backslash "r"
  else if code c <? 32 then String backslash ("u" ++ hex4 (code c))
  else String c EmptyString.

Fixpoint quoteBody (s : string) : string :=
  match s with
  | EmptyString => EmptyString
  | String c r => quoteChar c ++ quoteBody r
  end.

(** QuoteJSONString *)
Definition quoteJSON (s : string) : string :=
  String dquote (quoteBody s ++ String dquote EmptyString).

(** [JSON.stringify(v, K)] with an array replacer [K]: at every depth only
    the properties named in [K] are written, in the order of [K]; a property
    whose value is undefined (or absent) is left out. *)
Fixpoint serialize (K : list string) (v : value) : option string :=
  match v with
  | VUndefined => None
  | VNull => Some "null"
  | VBool b => Some (if b then "true" else "false")
  | VNumber n =>
      Some (match n with Finite _ _ => numberToString n | _ => "null" end)
  | VString s => Some (quoteJSON s)
  | VObject props =>
      let member (P : string) : list string :=
        (fix get (ps : list (string * value)) : list string :=
           match ps with
           | [] => []
           | (k, x) :: rest =>
               if String.eqb k P then
                 match serialize K x with
                 | Some text => [quoteJSON P ++ ":" ++ text]
                 | None => []
                 end
               else get rest
           end) props in
      Some ("{" ++ join "," (flat_map member K) ++ "}")
  end.

(** The property list built from an array replacer: its strings in order,
    each kept once. *)
Definition propertyList (replacer : list string) : list string :=
  fold_left (fun K item => if existsb (String.eqb item) K then K else (K ++ [item])%list)
            replacer [].

Definition stringify (v : value) (replacer : list string) : string :=
  match serialize (propertyList replacer) v with
  | Some text => text
  | None => "undefined"
  end.

End Js.

(** ** [src/lib/utils.ts] *)

Module Utils.
Import Js.

(** What one call reads from its surroundings: the text
    [Math.random().toString(36).substr(2, 8)], the clock [Date.now()],
    whether [requestAnimationFrame] exists, and whether the style sheet
    takes a non-blank rule text. *)
Record Env : Type := {
  randomStr : string;
  now : Z;
  hasRequestAnimationFrame : bool;
  domAccepts : string -> bool
}.

Definition generateClassName (env : Env) (prefix : option string) : string :=
  let prefix := match prefix with Some p => p | None => "css" end in
  let timeStr := sliceLast 4 (toStringRadix 36 (now env)) in
  prefix ++ "-" ++ randomStr env ++ timeStr.

Definition generateAnimationName (env : Env) (prefix : option string) : string :=
  generateClassName env (Some match prefix with Some p => p | None => "anim" end).

(** [/([a-z0-9]|(?=[A-Z]))([A-Z])/g] replaced by ['$1-$2']. *)
Fixpoint hyphenate (s : string) : string :=
  match s with
  | EmptyString => EmptyString
  | String a r =>
      match r with
      | String b r' =>
          if (isLower a || isDigit a) && isUpper b
          then String a (String "-" (String b (hyphenate r')))
          else if isUpper a then String "-" (String a (hyphenate r))
          else String a (hyphenate r)
      | EmptyString =>
          if isUpper a then String "-" (String a EmptyString)
          else String a EmptyString
      end
  end.

Definition kebabCase (str : string) : string := toLowerCase (hyphenate str).

(** [/-([a-z])/g] replaced by the upper-cased letter. *)
Fixpoint camelCase (str : string) : string :=
  match str with
  | EmptyString => EmptyString
  | String a r =>
      match r with
      | String b r' =>
          if (code a =? 45) && isLower b
          then String (upperChar b) (camelCase r')
          else String a (camelCase r)
      | EmptyString => String a EmptyString
      end
  end.

Definition isNumber (v : value) : bool :=
  match v with
  | VNumber (Finite _ _) => true
  | _ => false
  end.

Definition PIXEL_PROPERTIES : list string :=
  [ "width"; "height"; "minWidth"; "maxWidth"; "minHeight"; "maxHeight";
    "margin"; "marginTop"; "marginRight"; "marginBottom"; "marginLeft";
    "padding"; "paddingTop"; "paddingRight"; "paddingBottom"; "paddingLeft";
    "top"; "right"; "bottom"; "left";
    "borderWidth"; "borderTopWidth"; "borderRightWidth"; "borderBottomWidth";
    "borderLeftWidth";
    "borderRadius"; "borderTopLeftRadius"; "borderTopRightRadius";
    "borderBottomRightRadius"; "borderBottomLeftRadius";
    "fontSize"; "lineHeight"; "letterSpacing"; "wordSpacing";
    "textIndent"; "outlineWidth"; "outlineOffset";
    "gridGap"; "gridColumnGap"; "gridRowGap"; "columnGap"; "rowGap";
    "strokeWidth"; "tabSize" ].

Definition UNITLESS_PROPERTIES : list string :=
  [ "opacity"; "zIndex"; "fontWeight"; "lineHeight"; "zoom"; "order";
    "flex"; "flexGrow"; "flexShrink"; "flexOrder";
    "columnCount"; "columns"; "orphans"; "widows";
    "animationIterationCount"; "fillOpacity"; "strokeOpacity";
    "stopOpacity"; "strokeDasharray"; "strokeDashoffset" ].

(** [Set.prototype.has] *)
Definition has (set : list string) (x : string) : bool :=
  existsb (String.eqb x) set.

(** The name under which [addUnit] looks a property up in the tables. *)
Definition camelProperty (property : string) : string :=
  if includes property "-" then camelCase property else property.

Definition addUnit (property : string) (v : value) : string :=
  match v with
  | VString s => s
  | _ =>
      if negb (isNumber v) then toString v
      else
        let camelProperty := camelProperty property in
        if has UNITLESS_PROPERTIES camelProperty then toString v
        else if startsWith camelProperty "motionDuration" then toString v ++ "ms"
        else if has PIXEL_PROPERTIES camelProperty then toString v ++ "px"
        else toString v ++ "px"
  end.

Definition selectorSpecials : string :=
  String dquote "!#$%&'()*+,./:;<=>?@[\]^`{|}~".

Definition isSpecial (c : ascii) : bool :=
  includes selectorSpecials (String c EmptyString).

Fixpoint escapeSelector (selector : string) : string :=
  match selector with
  | EmptyString => EmptyString
  | String c r =>
      if isSpecial c then String backslash (String c (escapeSelector r))
      else String c (escapeSelector r)
  end.

(** [/\s+/g] replaced by a single space; [inRun] tells that the previous
    character already belonged to the run being replaced. *)
Fixpoint collapseSpaces (inRun : bool) (s : string) : string :=
  match s with
  | EmptyString => EmptyString
  | String c r =>
      if isSpace c
      then if inRun then collapseSpaces true r else String " " (collapseSpaces true r)
      else String c (collapseSpaces false r)
  end.

Definition colorFunctions : list string :=
  [ "rgb"; "rgba"; "hsl"; "hsla"; "hwb"; "lab"; "lch"; "oklab"; "oklch" ].

Fixpoint takeString (n : nat) (s : string) : string :=
  match n, s with
  | S k, String c r => String c (takeString k r)
  | _, _ => EmptyString
  end.

(** Length of the match of [(rgb|rgba|...)\(] at the head of [s] under the
    [i] flag, if there is one. *)
Definition colorMatch (s : string) : option nat :=
  match
    filter (fun name =>
              String.eqb (toLowerCase (takeString (String.length name + 1) s))
                         (name ++ "("))
           colorFunctions
  with
  | name :: _ => Some (S (String.length name))
  | [] => None
  end.

(** The global replacement lower-cases every match; [pending] counts the
    characters of the current match that are still to be copied. *)
Fixpoint lowerColorFunctions (pending : nat) (s : string) : string :=
  match s with
  | EmptyString => EmptyString
  | String c r =>
      match pending with
      | S k => String (lowerChar c) (lowerColorFunctions k r)
      | O =>
          match colorMatch s with
          | Some len => String (lowerChar c) (lowerColorFunctions (Nat.pred len) r)
          | None => String c (lowerColorFunctions O r)
          end
      end
  end.

Definition normalizeValue (v : string) : string :=
  lowerColorFunctions O (collapseSpaces false (trim v)).

Definition toInt32 (z : Z) : Z :=
  let w := z mod 2 ^ 32 in
  if w <? 2 ^ 31 then w else w - 2 ^ 32.

Fixpoint hashLoop (hash : Z) (str : string) : Z :=
  match str with
  | EmptyString => hash
  | String c r =>
      let char := code c in
      let hash := toInt32 (hash * 32) - hash + char in
      hashLoop (toInt32 hash) r
  end.

Definition hashString (str : string) : string :=
  if (String.length str =? 0)%nat then "0"
  else toStringRadix 36 (Z.abs (hashLoop 0 str)).

Definition createCacheKey (data : object) (options : option object) : string :=
  let dataStr := stringify (VObject data) (sort (keys data)) in
  let optionsStr :=
    match options with
    | Some o => stringify (VObject o) (sort (keys o))
    | None => ""
    end in
  hashString (dataStr ++ optionsStr).

End Utils.

(** ** [src/lib/parser.ts] *)

Module Parser.
Import Js Utils.

Definition CSSProperties : Type := object.
Definition KeyframesDefinition : Type := list (string * CSSProperties).

Record ParseResult : Type := {
  cssText : string;
  className : string;
  propertyCount : Z;
  hasNestedRules : bool
}.

(** The result of [parseStyleObject] (it has no [className] field). *)
Record Parsed : Type := {
  text : string;
  count : Z;
  nested : bool
}.

(** The four locals that the loop of [parseStyleObject] updates. *)
Record Block : Type := {
  declarations : list string;
  nestedRules : list string;
  blockCount : Z;
  blockNested : bool
}.

Definition emptyBlock : Block :=
  {| declarations := []; nestedRules := []; blockCount := 0; blockNested := false |}.

Definition truthy (s : string) : bool := negb (String.eqb s "").

Definition selectorOf (className : option string) (parentSelector : string) : string :=
  match className with
  | Some c => if truthy c then "." ++ escapeSelector c else parentSelector
  | None => parentSelector
  end.

Definition pushNested (wrap : string -> string) (nestedResult : Parsed) (b : Block) : Block :=
  if truthy (text nestedResult) then
    {| declarations := declarations b;
       nestedRules := nestedRules b ++ [wrap (text nestedResult)];
       blockCount := blockCount b + count nestedResult;
       blockNested := true |}
  else b.

Definition declaration (indent property : string) (v : value) : string :=
  let cssProperty := kebabCase property in
  let cssValue := addUnit property v in
  let normalizedValue := normalizeValue cssValue in
  indent ++ cssProperty ++ ": " ++ normalizedValue ++ ";".

(** One iteration of the loop of [parseStyleObject]; [recur] is the
    recursive call. *)
Definition step (recur : value -> option string -> string -> Parsed)
    (className : option string) (parentSelector : string)
    (b : Block) (entry : string * value) : Block :=
  let baseSelector := selectorOf className parentSelector in
  let (property, v) := entry in
  match v with
  | VUndefined | VNull => b
  | _ =>
      if startsWith property "&" then
        let pseudoSelector := replace property "&" baseSelector in
        pushNested (fun t => t) (recur v None pseudoSelector) b
      else if startsWith property "@" then
        let atRule := property in
        pushNested (fun t => atRule ++ " {" ++ nl ++ t ++ nl ++ "}")
                   (recur v className parentSelector) b
      else if isObject v then
        let nestedSelector := baseSelector ++ " " ++ property in
        pushNested (fun t => t) (recur v None nestedSelector) b
      else
        {| declarations := declarations b ++ [declaration "  " property v];
           nestedRules := nestedRules b;
           blockCount := blockCount b + 1;
           blockNested := blockNested b |}
  end.

(** The text assembled after the loop. *)
Definition assemble (baseSelector : string) (b : Block) : Parsed :=
  let cssText :=
    match declarations b with
    | [] => ""
    | _ => baseSelector ++ " {" ++ nl ++ join nl (declarations b) ++ nl ++ "}"
    end in
  let cssText :=
    match nestedRules b with
    | [] => cssText
    | _ => (if truthy cssText then cssText ++ nl else cssText) ++ join nl (nestedRules b)
    end in
  {| text := cssText; count := blockCount b; nested := blockNested b |}.

(** No entry of a string reaches a recursive call: its keys are indices and
    its values one-character strings. *)
Definition noRecursion (_ : value) (_ : option string) (_ : string) : Parsed :=
  {| text := ""; count := 0; nested := false |}.

Fixpoint parseStyleObject (styles : value) (className : option string)
    (parentSelector : string) {struct styles} : Parsed :=
  let baseSelector := selectorOf className parentSelector in
  match styles with
  | VObject props =>
      assemble baseSelector
        (fold_left (step parseStyleObject className parentSelector) props emptyBlock)
  | _ =>
      assemble baseSelector
        (fold_left (step noRecursion className parentSelector) (entries styles) emptyBlock)
  end.

Definition parseStyles (styles : CSSProperties) (className : option string) : ParseResult :=
  let mainRule := parseStyleObject (VObject styles) className "" in
  let cssRules := if truthy (text mainRule) then [text mainRule] else [] in
  {| cssText := join nl cssRules;
     className := match className with Some c => c | None => "" end;
     propertyCount := if truthy (text mainRule) then count mainRule else 0;
     hasNestedRules := if truthy (text mainRule) then nested mainRule else false |}.

Definition generateCSSRule (className : string) (styles : CSSProperties) : string :=
  cssText (parseStyles styles (Some className)).

(** The inner loop of [parseKeyframes]: the declarations of one stop. *)
Fixpoint stopDeclarations (styles : CSSProperties) (declarations : list string) : list string :=
  match styles with
  | [] => declarations
  | (property, v) :: rest =>
      stopDeclarations rest
        (match v with
         | VUndefined | VNull | VObject _ => declarations
         | _ => declarations ++ [declaration "    " property v]
         end)
  end.

(** The outer loop of [parseKeyframes]. *)
Fixpoint keyframeLoop (keyframes : KeyframesDefinition) (keyframeRules : list string)
  : list string :=
  match keyframes with
  | [] => keyframeRules
  | (keyframe, styles) :: rest =>
      let declarations := stopDeclarations styles [] in
      keyframeLoop rest
        (match declarations with
         | [] => keyframeRules
         | _ => keyframeRules
                  ++ ["  " ++ keyframe ++ " {" ++ nl ++ join nl declarations ++ nl ++ "  }"]
         end)
  end.

Definition parseKeyframes (keyframes : KeyframesDefinition) : string :=
  join nl (keyframeLoop keyframes []).

Definition generateKeyframesRule (animationName : string) (keyframes : KeyframesDefinition)
  : string :=
  let keyframesCSS := parseKeyframes keyframes in
  "@keyframes " ++ animationName ++ " {" ++ nl ++ keyframesCSS ++ nl ++ "}".

(** [injectCSS]: a blank text is refused; otherwise the outcome is that of
    the style sheet. *)
Definition injectCSS (env : Env) (cssText : string) : bool :=
  if truthy (trim cssText) then domAccepts env cssText else false.

(** The scanner state of [splitCSSRules]; [currentRule] is kept reversed. *)
Record Scan : Type := {
  rules : list string;
  currentRule : string;
  braceCount : Z;
  stringChar : option ascii;
  prevChar : option ascii
}.

Definition isQuote (c : ascii) : bool := (code c =? 34) || (code c =? 39).

Definition scanChar (st : Scan) (char : ascii) : Scan :=
  let escaped :=
    match prevChar st with Some p => code p =? 92 | None => false end in
  let stringChar' :=
    if isQuote char && negb escaped then
      match stringChar st with
      | None => Some char
      | Some q => if code q =? code char then None else Some q
      end
    else stringChar st in
  let current := String char (currentRule st) in
  let closes :=
    match stringChar' with
    | Some _ => false
    | None => (code char =? 125) && (braceCount st - 1 =? 0)
    end in
  let braces :=
    match stringChar' with
    | Some _ => braceCount st
    | None => if code char =? 123 then braceCount st + 1
              else if code char =? 125 then braceCount st - 1
              else braceCount st
    end in
  {| rules := if closes then rules st ++ [trim (rev current "")] else rules st;
     currentRule := if closes then "" else current;
     braceCount := braces;
     stringChar := stringChar';
     prevChar := Some char |}.

Fixpoint scan (st : Scan) (cssText : string) : Scan :=
  match cssText with
  | EmptyString => st
  | String c r => scan (scanChar st c) r
  end.

Definition splitCSSRules (cssText : string) : list string :=
  let st := scan {| rules := []; currentRule := ""; braceCount := 0;
                    stringChar := None; prevChar := None |} cssText in
  let last := trim (rev (currentRule st) "") in
  if truthy last then rules st ++ [last] else rules st.

(** The loop of [generateGlobalCSS]. [typeof null] is ['object'], and
    [Object.entries(null)] raises: the result is then [None]. *)
Fixpoint globalLoop (styles : object) (rules : list string) : option (list string) :=
  match styles with
  | [] => Some rules
  | (selector, styleObj) :: rest =>
      match styleObj with
      | VNull => None
      | VObject _ =>
          let result := parseStyleObject styleObj None selector in
          globalLoop rest (if truthy (text result) then rules ++ [text result] else rules)
      | _ => globalLoop rest rules
      end
  end.

Definition generateGlobalCSS (styles : object) : option string :=
  option_map (join nl) (globalLoop styles []).

End Parser.

(** ** [src/lib/manager.ts] *)

Module Manager.
Import Js Utils.

(** A [Map] with string keys: entries in insertion order, keys unique. *)
Section JsMap.
Context {V : Type}.

Definition JsMap : Type := list (string * V).

Fixpoint mapGet (key : string) (m : JsMap) : option V :=
  match m with
  | [] => None
  | (k, v) :: rest => if String.eqb k key then Some v else mapGet key rest
  end.

Definition mapHas (key : string) (m : JsMap) : bool :=
  match mapGet key m with Some _ => true | None => false end.

Fixpoint mapSet (key : string) (v : V) (m : JsMap) : JsMap :=
  match m with
  | [] => [(key, v)]
  | (k, x) :: rest =>
      if String.eqb k key then (k, v) :: rest else (k, x) :: mapSet key v rest
  end.

Definition mapSize (m : JsMap) : Z := Z.of_nat (List.length m).
End JsMap.
Arguments JsMap V : clear implicits.

Inductive StyleInsertionMode : Type := SYNC | ASYNC | LAZY.

(** A DOM node, by handle. *)
Definition Element : Type := nat.

Record CSSInJSConfig : Type := {
  classNamePrefix : option string;
  insertionMode : option StyleInsertionMode;
  enableCache : option bool;
  developmentMode : option bool;
  styleTagId : option string;
  insertionPoint : option Element;
  minifyCSS : option bool;
  maxCacheSize : option Z
}.

(** [Partial<CSSInJSConfig>]: a field is absent ([None]) or present with a
    value that may itself be undefined. *)
Record PartialConfig : Type := {
  p_classNamePrefix : option (option string);
  p_insertionMode : option (option StyleInsertionMode);
  p_enableCache : option (option bool);
  p_developmentMode : option (option bool);
  p_styleTagId : option (option string);
  p_insertionPoint : option (option Element);
  p_minifyCSS : option (option bool);
  p_maxCacheSize : option (option Z)
}.

Definition noChange : PartialConfig :=
  {| p_classNamePrefix := None; p_insertionMode := None; p_enableCache := None;
     p_developmentMode := None; p_styleTagId := None; p_insertionPoint := None;
     p_minifyCSS := None; p_maxCacheSize := None |}.

Record CSSOptions : Type := {
  o_classNamePrefix : option string;
  o_className : option string;
  o_enableCSSVariables : option bool
}.

Record StyleMetadata : Type := {
  timestamp : Z;
  source : option string;
  tags : option (list string);
  isDynamic : option bool;
  cssSize : option Z
}.

Record StyleCacheItem : Type := {
  className : string;
  cssText : string;
  metadata : StyleMetadata;
  lastUsed : Z;
  useCount : Z
}.

Record AnimationCacheItem : Type := {
  animationName : string;
  a_cssText : string;
  a_metadata : StyleMetadata;
  a_lastUsed : Z;
  a_useCount : Z
}.

(** The counters of [stats]; the accumulated injection time, a duration in
    fractional milliseconds, is left out. *)
Record Stats : Type := {
  totalStyles : Z;
  cacheHits : Z;
  cacheMisses : Z;
  lastCleanup : Z
}.

(** The fields of the manager, followed by what it has asked of its
    surroundings: the texts handed to the parser's [injectCSS], the texts
    whose injection was put off with [setTimeout] or
    [requestAnimationFrame], and whether the debounced clean-up is armed. *)
Record StyleManager : Type := {
  styleCache : JsMap StyleCacheItem;
  animationCache : JsMap AnimationCacheItem;
  injectedRules : list string;
  config : CSSInJSConfig;
  stats : Stats;
  sinkCalls : list string;
  scheduled : list string;
  cleanupArmed : bool
}.

Definition defaultConfig : CSSInJSConfig :=
  {| classNamePrefix := Some "css";
     insertionMode := Some SYNC;
     enableCache := Some true;
     developmentMode := Some false;
     styleTagId := None;
     insertionPoint := None;
     minifyCSS := Some false;
     maxCacheSize := Some 10000 |}.

(** The state built by the constructor. *)
Definition create (env : Env) : StyleManager :=
  {| styleCache := []; animationCache := []; injectedRules := [];
     config := defaultConfig;
     stats := {| totalStyles := 0; cacheHits := 0; cacheMisses := 0;
                 lastCleanup := now env |};
     sinkCalls := []; scheduled := []; cleanupArmed := false |}.

Definition withStyleCache (c : JsMap StyleCacheItem) (m : StyleManager) : StyleManager :=
  {| styleCache := c; animationCache := animationCache m;
     injectedRules := injectedRules m; config := config m; stats := stats m;
     sinkCalls := sinkCalls m; scheduled := scheduled m; cleanupArmed := cleanupArmed m |}.

Definition withAnimationCache (c : JsMap AnimationCacheItem) (m : StyleManager) : StyleManager :=
  {| styleCache := styleCache m; animationCache := c;
     injectedRules := injectedRules m; config := config m; stats := stats m;
     sinkCalls := sinkCalls m; scheduled := scheduled m; cleanupArmed := cleanupArmed m |}.

Definition withInjectedRules (r : list string) (m : StyleManager) : StyleManager :=
  {| styleCache := styleCache m; animationCache := animationCache m;
     injectedRules := r; config := config m; stats := stats m;
     sinkCalls := sinkCalls m; scheduled := scheduled m; cleanupArmed := cleanupArmed m |}.

Definition withConfig (c : CSSInJSConfig) (m : StyleManager) : StyleManager :=
  {| styleCache := styleCache m; animationCache := animationCache m;
     injectedRules := injectedRules m; config := c; stats := stats m;
     sinkCalls := sinkCalls m; scheduled := scheduled m; cleanupArmed := cleanupArmed m |}.

Definition withStats (st : Stats) (m : StyleManager) : StyleManager :=
  {| styleCache := styleCache m; animationCache := animationCache m;
     injectedRules := injectedRules m; config := config m; stats := st;
     sinkCalls := sinkCalls m; scheduled := scheduled m; cleanupArmed := cleanupArmed m |}.

Definition withSinkCalls (l : list string) (m : StyleManager) : StyleManager :=
  {| styleCache := styleCache m; animationCache := animationCache m;
     injectedRules := injectedRules m; config := config m; stats := stats m;
     sinkCalls := l; scheduled := scheduled m; cleanupArmed := cleanupArmed m |}.

Definition withScheduled (l : list string) (m : StyleManager) : StyleManager :=
  {| styleCache := styleCache m; animationCache := animationCache m;
     injectedRules := injectedRules m; config := config m; stats := stats m;
     sinkCalls := sinkCalls m; scheduled := l; cleanupArmed := cleanupArmed m |}.

Definition withCleanupArmed (b : bool) (m : StyleManager) : StyleManager :=
  {| styleCache := styleCache m; animationCache := animationCache m;
     injectedRules := injectedRules m; config := config m; stats := stats m;
     sinkCalls := sinkCalls m; scheduled := scheduled m; cleanupArmed := b |}.

Definition countHit (st : Stats) : Stats :=
  {| totalStyles := totalStyles st; cacheHits := cacheHits st + 1;
     cacheMisses := cacheMisses st; lastCleanup := lastCleanup st |}.

Definition countMiss (st : Stats) : Stats :=
  {| totalStyles := totalStyles st; cacheHits := cacheHits st;
     cacheMisses := cacheMisses st + 1; lastCleanup := lastCleanup st |}.

Definition countStyle (st : Stats) : Stats :=
  {| totalStyles := totalStyles st + 1; cacheHits := cacheHits st;
     cacheMisses := cacheMisses st; lastCleanup := lastCleanup st |}.

(** The truth value of [this.config.enableCache]. *)
Definition cacheEnabled (m : StyleManager) : bool :=
  match enableCache (config m) with Some b => b | None => false end.

(** [x || fallback] on an optional string. *)
Definition orString (x : option string) (fallback : string) : string :=
  match x with
  | Some s => if Parser.truthy s then s else fallback
  | None => fallback
  end.

Definition override {A : Type} (old : option A) (new : option (option A)) : option A :=
  match new with
  | Some v => v
  | None => old
  end.

(** [{ ...config, ...newConfig }] *)
Definition spread (old : CSSInJSConfig) (new : PartialConfig) : CSSInJSConfig :=
  {| classNamePrefix := override (classNamePrefix old) (p_classNamePrefix new);
     insertionMode := override (insertionMode old) (p_insertionMode new);
     enableCache := override (enableCache old) (p_enableCache new);
     developmentMode := override (developmentMode old) (p_developmentMode new);
     styleTagId := override (styleTagId old) (p_styleTagId new);
     insertionPoint := override (insertionPoint old) (p_insertionPoint new);
     minifyCSS := override (minifyCSS old) (p_minifyCSS new);
     maxCacheSize := override (maxCacheSize old) (p_maxCacheSize new) |}.

Definition clearCache (m : StyleManager) : StyleManager :=
  let m := withStyleCache [] m in
  let m := withAnimationCache [] m in
  let m := withInjectedRules [] m in
  withStats {| totalStyles := totalStyles (stats m); cacheHits := 0; cacheMisses := 0;
               lastCleanup := lastCleanup (stats m) |} m.

Definition configure (newConfig : PartialConfig) (m : StyleManager) : StyleManager :=
  let m := withConfig (spread (config m) newConfig) m in
  if negb (cacheEnabled m) then clearCache m else m.

Definition getConfig (m : StyleManager) : CSSInJSConfig := config m.

(** The options resolved at the head of [createStyle]. *)
Record FinalOptions : Type := {
  f_classNamePrefix : string;
  f_className : option string;
  f_enableCSSVariables : bool
}.

Definition finalOptionsOf (m : StyleManager) (options : option CSSOptions) : FinalOptions :=
  {| f_classNamePrefix :=
       match options with
       | Some {| o_classNamePrefix := Some p |} => p
       | _ => orString (classNamePrefix (config m)) "css"
       end;
     f_className :=
       match options with Some o => o_className o | None => None end;
     f_enableCSSVariables :=
       match options with
       | Some {| o_enableCSSVariables := Some b |} => b
       | _ => true
       end |}.

(** The object literal [finalOptions], as [createCacheKey] receives it. *)
Definition optionsObject (f : FinalOptions) : object :=
  [ ("classNamePrefix", VString (f_classNamePrefix f));
    ("className", match f_className f with Some c => VString c | None => VUndefined end);
    ("enableCSSVariables", VBool (f_enableCSSVariables f)) ].

(** The private method [generateClassName]. *)
Definition generateClassName (env : Env) (options : FinalOptions) : string :=
  match f_className options with
  | Some c =>
      if Parser.truthy c then
        if Parser.truthy (f_classNamePrefix options)
        then f_classNamePrefix options ++ "-" ++ c
        else c
      else Utils.generateClassName env (Some (f_classNamePrefix options))
  | None => Utils.generateClassName env (Some (f_classNamePrefix options))
  end.

(** The private method [injectCSS]. *)
Definition injectCSS (env : Env) (cssText : string) (m : StyleManager)
  : bool * StyleManager :=
  if negb (Parser.truthy (trim cssText)) then (false, m)
  else if has (injectedRules m) cssText then (true, m)
  else
    let (success, m) :=
      match insertionMode (config m) with
      | Some ASYNC => (true, withScheduled (scheduled m ++ [cssText]) m)
      | Some LAZY =>
          if hasRequestAnimationFrame env
          then (true, withScheduled (scheduled m ++ [cssText]) m)
          else (true, withSinkCalls (sinkCalls m ++ [cssText]) m)
      | Some SYNC | None =>
          (Parser.injectCSS env cssText, withSinkCalls (sinkCalls m ++ [cssText]) m)
      end in
    if success
    then (true, withInjectedRules (injectedRules m ++ [cssText]) m)
    else (false, m).

(** [createStyle]. On a description of type [CSSProperties] nothing inside
    its [try] block raises, so the call always completes with a class name
    and a new state. *)
Definition createStyle (env : Env) (styles : Parser.CSSProperties)
    (options : option CSSOptions) (m : StyleManager) : string * StyleManager :=
  let finalOptions := finalOptionsOf m options in
  let cacheKey :=
    if cacheEnabled m then createCacheKey styles (Some (optionsObject finalOptions))
    else "" in
  match (if cacheEnabled m then mapGet cacheKey (styleCache m) else None) with
  | Some cachedItem =>
      let cachedItem :=
        {| className := className cachedItem; cssText := cssText cachedItem;
           metadata := metadata cachedItem;
           lastUsed := now env; useCount := useCount cachedItem + 1 |} in
      let m := withStyleCache (mapSet cacheKey cachedItem (styleCache m)) m in
      let m := withStats (countHit (stats m)) m in
      (className cachedItem, m)
  | None =>
      let m := withStats (countMiss (stats m)) m in
      let className := generateClassName env finalOptions in
      let parseResult := Parser.parseStyles styles (Some className) in
      if negb (Parser.truthy (Parser.cssText parseResult)) then (className, m)
      else
        let (injected, m) := injectCSS env (Parser.cssText parseResult) m in
        let m :=
          if injected && cacheEnabled m then
            let cacheItem :=
              {| className := className;
                 cssText := Parser.cssText parseResult;
                 metadata :=
                   {| timestamp := now env; source := Some "createStyle";
                      tags := None; isDynamic := Some false;
                      cssSize := Some (Z.of_nat (String.length (Parser.cssText parseResult))) |};
                 lastUsed := now env; useCount := 1 |} in
            withCleanupArmed true
              (withStyleCache (mapSet cacheKey cacheItem (styleCache m)) m)
          else m in
        (className, withStats (countStyle (stats m)) m)
  end.

(** A keyframes definition as the object that [createCacheKey] receives. *)
Definition keyframesObject (keyframes : Parser.KeyframesDefinition) : object :=
  map (fun stop => (fst stop, VObject (snd stop))) keyframes.

Definition createKeyframes (env : Env) (keyframes : Parser.KeyframesDefinition)
    (source : option string) (m : StyleManager) : string * StyleManager :=
  let cacheKey :=
    if cacheEnabled m then createCacheKey (keyframesObject keyframes) None else "" in
  match (if cacheEnabled m then mapGet cacheKey (animationCache m) else None) with
  | Some cachedItem =>
      let cachedItem :=
        {| animationName := animationName cachedItem; a_cssText := a_cssText cachedItem;
           a_metadata := a_metadata cachedItem;
           a_lastUsed := now env; a_useCount := a_useCount cachedItem + 1 |} in
      let m := withAnimationCache (mapSet cacheKey cachedItem (animationCache m)) m in
      let m := withStats (countHit (stats m)) m in
      (animationName cachedItem, m)
  | None =>
      let m := withStats (countMiss (stats m)) m in
      let animationName := generateAnimationName env (Some "anim") in
      let cssText := Parser.generateKeyframesRule animationName keyframes in
      if negb (Parser.truthy cssText) then (animationName, m)
      else
        let (injected, m) := injectCSS env cssText m in
        let m :=
          if injected && cacheEnabled m then
            let cacheItem :=
              {| animationName := animationName;
                 a_cssText := cssText;
                 a_metadata :=
                   {| timestamp := now env; source := source;
                      tags := None; isDynamic := Some false;
                      cssSize := Some (Z.of_nat (String.length cssText)) |};
                 a_lastUsed := now env; a_useCount := 1 |} in
            withCleanupArmed true
              (withAnimationCache (mapSet cacheKey cacheItem (animationCache m)) m)
          else m in
        (animationName, m)
  end.

Definition maxAge : Z := 30 * 60 * 1000.

(** One [for ... of map.entries()] loop of [cleanupCache]: [size] is the
    size of the map when the entry at the head is visited. *)
Fixpoint sweep {V : Type} (lastUsedOf : V -> Z) (now maxSize : Z)
    (remaining : JsMap V) (size : Z) : JsMap V :=
  match remaining with
  | [] => []
  | (key, item) :: rest =>
      if (now - lastUsedOf item >? maxAge) || (size >? maxSize)
      then sweep lastUsedOf now maxSize rest (size - 1)
      else (key, item) :: sweep lastUsedOf now maxSize rest size
  end.

(** [this.config.maxCacheSize || 10000] *)
Definition maxSizeOf (c : CSSInJSConfig) : Z :=
  match maxCacheSize c with
  | Some n => if n =? 0 then 10000 else n
  | None => 10000
  end.

Definition cleanupCache (env : Env) (m : StyleManager) : StyleManager :=
  if negb (cacheEnabled m) then m
  else
    let maxSize := maxSizeOf (config m) in
    let m := withStyleCache
               (sweep lastUsed (now env) maxSize (styleCache m) (mapSize (styleCache m))) m in
    let m := withAnimationCache
               (sweep a_lastUsed (now env) maxSize (animationCache m)
                      (mapSize (animationCache m))) m in
    withStats {| totalStyles := totalStyles (stats m); cacheHits := cacheHits (stats m);
                 cacheMisses := cacheMisses (stats m); lastCleanup := now env |} m.

Definition hasStyle (styles : Parser.CSSProperties) (m : StyleManager) : bool :=
  if negb (cacheEnabled m) then false
  else
    let cacheKey := createCacheKey styles None in
    mapHas cacheKey (styleCache m).


(** [injectGlobal]: what the compiler raises is caught and logged. *)
Definition injectGlobal (env : Env) (styles : object) (m : StyleManager) : StyleManager :=
  match Parser.generateGlobalCSS styles with
  | Some cssText => if Parser.truthy cssText then snd (injectCSS env cssText m) else m
  | None => m
  end.

Definition hasAnimation (keyframes : Parser.KeyframesDefinition) (m : StyleManager) : bool :=
  if negb (cacheEnabled m) then false
  else
    let cacheKey := createCacheKey (keyframesObject keyframes) None in
    mapHas cacheKey (animationCache m).

End Manager.

(** ** [src/lib/css.ts] *)

Module Css.
Import Js Utils Manager.

(** [StyleDefinition<T>]: a static description or a style function. The
    static case carries any value, since [css] validates it itself. *)
Inductive StyleDefinition (T : Type) : Type :=
| Static (styles : value)
| Dynamic (f : T -> value).
Arguments Static {T} styles.
Arguments Dynamic {T} f.

(** [StyleManager.getInstance()]: the singleton is built on first use. *)
Definition getInstance (env : Env) (instance : option StyleManager) : StyleManager :=
  match instance with
  | Some m => m
  | None => Manager.create env
  end.

(** The function returned by [css(styleDefinition, options)], applied to
    [params]. The two [throw] statements of its [try] block are the [None]
    results of [attempt]; the [catch] block returns the fallback name. *)
Definition css {T : Type} (styleDefinition : StyleDefinition T)
    (options : option CSSOptions) (params : option T)
    (env : Env) (instance : option StyleManager) : string * option StyleManager :=
  let styleManager := getInstance env instance in
  let attempt : option Parser.CSSProperties :=
    let styles :=
      match styleDefinition with
      | Dynamic f =>
          match params with
          | None => None
          | Some x => Some (f x)
          end
      | Static styles => Some styles
      end in
    match styles with
    | Some (VObject props) => Some props
    | _ => None
    end in
  match attempt with
  | Some styles =>
      let (className, m) := createStyle env styles options styleManager in
      (className, Some m)
  | None => ("css-error", Some styleManager)
  end.

(** [cssVariables] *)
Definition cssVariables (variables : object) : Parser.CSSProperties :=
  fold_left (fun result entry =>
               let key := fst entry in
               let variableName := if startsWith key "--" then key else "--" ++ key in
               setProperty variableName (VString (toString (snd entry))) result)
            variables [].

End Css.

(** ** [src/lib/variables.ts] *)

Module Variables.
Import Js Utils.

(** [Required<VariableConfig>] *)
Record VariableConfig : Type := {
  prefix : string;
  autoInject : bool;
  target : string
}.

(** The manager; [styleElement] holds the text content of its style
    element, when it has one. *)
Record VariableManager : Type := {
  config : VariableConfig;
  injectedVariables : list (string * string);
  styleElement : option string
}.

Definition variableNameOf (prefix : string) (path : list string) : string :=
  "--" ++ prefix ++ "-" ++ join "-" path.

(** The text written for a value that is not an object. *)
Definition variableValue (v : value) (path : list string) : string :=
  match v, path with
  | VNumber n, first :: _ =>
      if negb (String.eqb first "weights") && negb (String.eqb first "weight")
      then numberToString n ++ "px"
      else toString v
  | VNumber n, [] => numberToString n ++ "px"
  | _, _ => toString v
  end.

(** The local function [processValue] of [themeToVariables]. *)
Fixpoint processValue (prefix : string) (v : value) (path : list string)
    (variables : object) {struct v} : object :=
  match v with
  | VUndefined | VNull => variables
  | VObject props =>
      fold_left (fun vars entry => processValue prefix (snd entry) (path ++ [fst entry]) vars)
                props variables
  | _ => setProperty (variableNameOf prefix path) (VString (variableValue v path)) variables
  end.

Definition themeToVariables (m : VariableManager) (theme : object) : object :=
  fold_left (fun vars entry =>
               processValue (prefix (config m)) (snd entry) [fst entry] vars)
            theme [].

Definition getVariableName (m : VariableManager) (category key : string) : string :=
  "--" ++ prefix (config m) ++ "-" ++ category ++ "-" ++ key.

Definition getVariableReference (m : VariableManager) (category key : string) : string :=
  "var(" ++ getVariableName m category key ++ ")".

End Variables.

(** ** Notions used to state the properties *)

Module Spec.
Import Js Utils Manager.

(** The deepest nesting of braces in a rule text. *)
Fixpoint depthFrom (depth deepest : Z) (s : string) : Z :=
  match s with
  | EmptyString => deepest
  | String c r =>
      if code c =? 123 then depthFrom (depth + 1) (Z.max deepest (depth + 1)) r
      else if code c =? 125 then depthFrom (depth - 1) deepest r
      else depthFrom depth deepest r
  end.

Definition nestingDepth (s : string) : Z := depthFrom 0 0 s.

(** What the keyframe compiler is to emit, written without its loops.
    A plain value is a string, a number or a boolean; a mapping, [null]
    and [undefined] are not. *)
Definition isPlain (v : value) : bool :=
  match v with
  | VBool _ | VNumber _ | VString _ => true
  | VUndefined | VNull | VObject _ => false
  end.

(** The declarations of a stop: one line for each property with a plain
    value, in the order of the properties. *)
Definition plainDeclarations (styles : Parser.CSSProperties) : list string :=
  map (fun entry =>
         "    " ++ kebabCase (fst entry) ++ ": "
           ++ normalizeValue (addUnit (fst entry) (snd entry)) ++ ";")
      (filter (fun entry => isPlain (snd entry)) styles).

Definition hasPlainDeclaration (stop : string * Parser.CSSProperties) : bool :=
  existsb (fun entry => isPlain (snd entry)) (snd stop).

(** The block of one stop. *)
Definition stopBlock (stop : string * Parser.CSSProperties) : string :=
  "  " ++ fst stop ++ " {" ++ nl ++ join nl (plainDeclarations (snd stop)) ++ nl ++ "  }".

(** The blocks of the stops that have a plain declaration, in the order
    of the stops. *)
Definition stopBlocks (keyframes : Parser.KeyframesDefinition) : list string :=
  map stopBlock (filter hasPlainDeclaration keyframes).

Definition keyframesText (animationName : string) (keyframes : Parser.KeyframesDefinition)
  : string :=
  "@keyframes " ++ animationName ++ " {" ++ nl ++ join nl (stopBlocks keyframes) ++ nl ++ "}".

(** The fingerprint under which [createStyle] files a description. *)
Definition styleKey (styles : Parser.CSSProperties) (options : option CSSOptions)
    (m : StyleManager) : string :=
  createCacheKey styles (Some (optionsObject (finalOptionsOf m options))).

(** The rule text that [createStyle] compiles on a miss. *)
Definition compiled (env : Env) (styles : Parser.CSSProperties)
    (options : option CSSOptions) (m : StyleManager) : string :=
  Parser.cssText
    (Parser.parseStyles styles (Some (generateClassName env (finalOptionsOf m options)))).

(** Whether a text has a character that [trim] keeps. *)
Fixpoint hasInk (s : string) : bool :=
  match s with
  | EmptyString => false
  | String c r => negb (isSpace c) || hasInk r
  end.

(** How many injections the manager has asked for, at once or deferred. *)
Definition materializations (m : StyleManager) : nat :=
  (List.length (sinkCalls m) + List.length (scheduled m))%nat.

(** The default branch of [injectCSS] and its [SYNC] branch wait for the
    parser's answer. *)
Definition synchronous (m : StyleManager) : bool :=
  match insertionMode (config m) with
  | Some ASYNC | Some LAZY => false
  | Some SYNC | None => true
  end.

(** One [createStyle] call of a run, with what it reads from outside. *)
Record Call : Type := {
  callEnv : Env;
  callStyles : Parser.CSSProperties;
  callOptions : option CSSOptions
}.

(** Successive [createStyle] calls; the class names are returned in call
    order. *)
Fixpoint run (calls : list Call) (m : StyleManager) : list string * StyleManager :=
  match calls with
  | [] => ([], m)
  | c :: rest =>
      let (className, m) := createStyle (callEnv c) (callStyles c) (callOptions c) m in
      let (names, m) := run rest m in
      (className :: names, m)
  end.

(** The texts that a run hands to the sink when every call misses and
    injects: the compiled texts that are not empty, in call order. *)
Fixpoint attempts (calls : list Call) (m : StyleManager) : list string :=
  match calls with
  | [] => []
  | c :: rest =>
      let t := compiled (callEnv c) (callStyles c) (callOptions c) m in
      (if Parser.truthy t then [t] else []) ++ attempts rest m
  end.

Definition failing (env : Env) : Prop := forall t, domAccepts env t = false.

(** Sample inputs. *)
Definition env1 : Env :=
  {| randomStr := "a1b2c3d4"; now := 1700000000000;
     hasRequestAnimationFrame := true; domAccepts := fun _ => true |}.

Definition env2 : Env :=
  {| randomStr := "x9y8z7w6"; now := 1700000000005;
     hasRequestAnimationFrame := true; domAccepts := fun _ => true |}.

Definition envFailing : Env :=
  {| randomStr := "a1b2c3d4"; now := 1700000000000;
     hasRequestAnimationFrame := true; domAccepts := fun _ => false |}.

Definition envFailingAgain : Env :=
  {| randomStr := "x9y8z7w6"; now := 1700000000005;
     hasRequestAnimationFrame := true; domAccepts := fun _ => false |}.

Definition blue : Parser.CSSProperties := [("color", VString "blue")].
Definition red : Parser.CSSProperties := [("color", VString "red")].

Definition paddingHover : Parser.CSSProperties :=
  [ ("padding", VNumber (ofZ 8));
    ("&:hover", VObject [("opacity", VNumber (Finite 9 1))]) ].

Definition hoverOpacity : Parser.CSSProperties :=
  [ ("&:hover", VObject [("opacity", VNumber (ofZ 1))]) ].

Definition hoverColor : Parser.CSSProperties :=
  [ ("&:hover", VObject [("color", VString "red")]) ].

Definition prefixT : PartialConfig :=
  {| p_classNamePrefix := Some (Some "t"); p_insertionMode := None;
     p_enableCache := None; p_developmentMode := None; p_styleTagId := None;
     p_insertionPoint := None; p_minifyCSS := None; p_maxCacheSize := None |}.

Definition minify : PartialConfig :=
  {| p_classNamePrefix := None; p_insertionMode := None;
     p_enableCache := None; p_developmentMode := None; p_styleTagId := None;
     p_insertionPoint := None; p_minifyCSS := Some (Some true); p_maxCacheSize := None |}.

Definition asyncMode : PartialConfig :=
  {| p_classNamePrefix := None; p_insertionMode := Some (Some ASYNC);
     p_enableCache := None; p_developmentMode := None; p_styleTagId := None;
     p_insertionPoint := None; p_minifyCSS := None; p_maxCacheSize := None |}.

Definition maxSize (n : Z) : PartialConfig :=
  {| p_classNamePrefix := None; p_insertionMode := None;
     p_enableCache := None; p_developmentMode := None; p_styleTagId := None;
     p_insertionPoint := None; p_minifyCSS := None; p_maxCacheSize := Some (Some n) |}.

(** What [JSON.stringify] writes for the property [P] of an object. *)
Definition member (K : list string) (props : object) (P : string) : list string :=
  match getProperty P props with
  | Some x =>
      match serialize K x with
      | Some text => [quoteJSON P ++ ":" ++ text]
      | None => []
      end
  | None => []
  end.

(** Structural equality: a primitive value is equal to itself; two
    objects are equal when they have the same properties, in any order,
    with structurally equal values. *)
Inductive sameValue : value -> value -> Prop :=
  | same_primitive (v : value) : isObject v = false -> sameValue v v
  | same_empty : sameValue (VObject []) (VObject [])
  | same_property (k : string) (v v' : value) (o o' : object) :
      sameValue v v' ->
      sameValue (VObject o) (VObject o') ->
      sameValue (VObject ((k, v) :: o)) (VObject ((k, v') :: o'))
  | same_reordered (o o' o'' : object) :
      sameValue (VObject o) (VObject o') ->
      Permutation o' o'' ->
      sameValue (VObject o) (VObject o'').

(** Every object inside a value has its properties under different
    names, as every object of the host language has. *)
Fixpoint uniqueKeys (v : value) : Prop :=
  match v with
  | VObject props =>
      NoDup (keys props) /\
      (fix each (ps : list (string * value)) : Prop :=
         match ps with
         | [] => True
         | (_, x) :: rest => uniqueKeys x /\ each rest
         end) props
  | _ => True
  end.

End Spec.

(** ** Further notions *)

Module Notions.
Import Js Utils Manager.

(** Every character of a text passes a test. *)
Fixpoint allChars (test : ascii -> bool) (s : string) : bool :=
  match s with
  | EmptyString => true
  | String c r => test c && allChars test r
  end.

(** A code unit below 128; on these [toLowerCase] changes the letters A to
    Z and nothing else. *)
Definition isAscii (c : ascii) : bool := code c <? 128.

Definition notUpper (c : ascii) : bool := negb (isUpper c).
Definition notHyphen (c : ascii) : bool := negb (code c =? 45).
Definition isBase36 (c : ascii) : bool := isDigit c || isLower c.

(** A hyphen before every upper-case letter. *)
Fixpoint dashed (s : string) : string :=
  match s with
  | EmptyString => EmptyString
  | String c r =>
      if isUpper c then String "-" (String c (dashed r)) else String c (dashed r)
  end.

(** The text without its white space. *)
Fixpoint removeSpaces (s : string) : string :=
  match s with
  | EmptyString => EmptyString
  | String c r => if isSpace c then removeSpaces r else String c (removeSpaces r)
  end.

(** What a parse result says about itself: the count is zero exactly when
    no text was produced, and the nesting flag is raised only with text. *)
Definition coherent (r : Parser.Parsed) : Prop :=
  0 <= Parser.count r /\
  (Parser.text r = "" <-> Parser.count r = 0) /\
  (Parser.nested r = true -> Parser.text r <> "").

Definition coherentBlock (b : Parser.Block) : Prop :=
  Forall (fun r => Spec.hasInk r = true) (Parser.nestedRules b) /\
  0 <= Parser.blockCount b /\
  (Parser.blockCount b = 0 <->
   Parser.declarations b = [] /\ Parser.nestedRules b = []) /\
  (Parser.blockNested b = true -> Parser.nestedRules b <> []).

(** The characters that start a replacement pattern after a dollar. *)
Definition startsPattern (c : ascii) : bool :=
  (code c =? 36) || (code c =? 38) || (code c =? 96) || (code c =? 39).

(** The first character of a text, if any, starts no pattern. *)
Definition headSafe (s : string) : bool :=
  match s with
  | EmptyString => true
  | String c _ => negb (startsPattern c)
  end.

(** The stop labels of a keyframes definition. *)
Definition labels (keyframes : Parser.KeyframesDefinition) : list string :=
  map fst keyframes.

(** No property inside a stop is named like one of the given labels. *)
Definition plainStops (names : list string) (keyframes : Parser.KeyframesDefinition) : Prop :=
  Forall (fun stop => Forall (fun entry => ~ In (fst entry) names) (snd stop)) keyframes.

(** The rule text that [createKeyframes] compiles on a miss. *)
Definition compiledKeyframes (env : Env) (keyframes : Parser.KeyframesDefinition) : string :=
  Parser.generateKeyframesRule (generateAnimationName env (Some "anim")) keyframes.

Definition keyframesKey (keyframes : Parser.KeyframesDefinition) : string :=
  createCacheKey (keyframesObject keyframes) None.

(** An entry used within the last thirty minutes. *)
Definition recent {V : Type} (lastUsedOf : V -> Z) (now : Z) (entry : string * V) : Prop :=
  now - lastUsedOf (snd entry) <= maxAge.

(** [kept] holds some of the entries of [all], in the order of [all]. *)
Inductive subsequence {A : Type} : list A -> list A -> Prop :=
  | subsequence_nil : subsequence [] []
  | subsequence_keep (x : A) (kept all : list A) :
      subsequence kept all -> subsequence (x :: kept) (x :: all)
  | subsequence_drop (x : A) (kept all : list A) :
      subsequence kept all -> subsequence kept (x :: all).

(** The managers that the public methods and the clean-up can produce from
    a new one. *)
Inductive reachable : StyleManager -> Prop :=
  | reach_create (env : Env) : reachable (create env)
  | reach_configure (newConfig : PartialConfig) (m : StyleManager) :
      reachable m -> reachable (configure newConfig m)
  | reach_createStyle (env : Env) (styles : Parser.CSSProperties)
      (options : option CSSOptions) (m : StyleManager) :
      reachable m -> reachable (snd (createStyle env styles options m))
  | reach_createKeyframes (env : Env) (keyframes : Parser.KeyframesDefinition)
      (source : option string) (m : StyleManager) :
      reachable m -> reachable (snd (createKeyframes env keyframes source m))
  | reach_injectGlobal (env : Env) (styles : object) (m : StyleManager) :
      reachable m -> reachable (injectGlobal env styles m)
  | reach_clearCache (m : StyleManager) :
      reachable m -> reachable (clearCache m)
  | reach_cleanupCache (env : Env) (m : StyleManager) :
      reachable m -> reachable (cleanupCache env m).

(** A rule text that is not blank and that the manager handed to the
    style sheet, at once or deferred. *)
Definition delivered (m : StyleManager) (css : string) : Prop :=
  Parser.truthy (trim css) = true /\
  In css (sinkCalls m ++ scheduled m)%list.

Record sound (m : StyleManager) : Prop := {
  sound_styles :
    Forall (fun entry => delivered m (cssText (snd entry)) /\
                         In (cssText (snd entry)) (injectedRules m)) (styleCache m);
  sound_animations :
    Forall (fun entry => delivered m (a_cssText (snd entry)) /\
                         In (a_cssText (snd entry)) (injectedRules m)) (animationCache m);
  sound_injected : Forall (delivered m) (injectedRules m);
  sound_style_keys : NoDup (map fst (styleCache m));
  sound_animation_keys : NoDup (map fst (animationCache m));
  sound_rules : NoDup (injectedRules m);
  sound_hits : 0 <= cacheHits (stats m);
  sound_misses : 0 <= cacheMisses (stats m);
  sound_total : mapSize (styleCache m) <= totalStyles (stats m)
}.

Definition isString (v : value) : bool :=
  match v with VString _ => true | _ => false end.

(** A value that [themeToVariables] turns into a variable. *)
Definition isLeaf (v : value) : bool :=
  match v with VBool _ | VNumber _ | VString _ => true | _ => false end.

(** The value found by following property names from a value. *)
Fixpoint lookupPath (v : value) (path : list string) : option value :=
  match path with
  | [] => Some v
  | name :: rest =>
      match v with
      | VObject props =>
          match getProperty name props with
          | Some inner => lookupPath inner rest
          | None => None
          end
      | _ => None
      end
  end.

End Notions.

(** * Properties *)

Import Js Utils Manager.

(** ** Units *)

Lemma addUnit_number (property : string) (m : Z) (k : nat) :
  addUnit property (VNumber (Finite m k)) =
  let n := numberToString (Finite m k) in
  if has UNITLESS_PROPERTIES (camelProperty property) then n
  else if startsWith (camelProperty property) "motionDuration" then n ++ "ms"
  else n ++ "px".
Proof.
  unfold addUnit. cbn [isNumber negb toString].
  destruct (has UNITLESS_PROPERTIES (camelProperty property)); [reflexivity|].
  destruct (startsWith (camelProperty property) "motionDuration"); [reflexivity|].
  destruct (has PIXEL_PROPERTIES (camelProperty property)); reflexivity.
Qed.

(** C3, as stated, fails: [motionDuration] is in neither table, yet the
    number 300 gets the unit [ms]. *)
Lemma addUnit_motionDuration_ms :
  has UNITLESS_PROPERTIES "motionDuration" = false /\
  has PIXEL_PROPERTIES "motionDuration" = false /\
  isNumber (VNumber (ofZ 300)) = true /\
  addUnit "motionDuration" (VNumber (ofZ 300)) = "300ms" /\
  addUnit "motionDuration" (VNumber (ofZ 300)) <> numberToString (ofZ 300) ++ "px".
Proof.
  repeat split; try reflexivity.
  vm_compute. discriminate.
Qed.

(** C3, amended: when the name under which [addUnit] looks the property up
    (the property name, camel-cased if it is hyphenated) is not in the
    unitless table and does not start with [motionDuration], a finite
    number gets the unit [px], whether or not the name is in the pixel
    table. *)
Theorem addUnit_defaults_to_px (property : string) (m : Z) (k : nat) :
  has UNITLESS_PROPERTIES (camelProperty property) = false ->
  startsWith (camelProperty property) "motionDuration" = false ->
  isNumber (VNumber (Finite m k)) = true /\
  addUnit property (VNumber (Finite m k)) = numberToString (Finite m k) ++ "px".
Proof.
  intros Hunitless Hmotion. split; [reflexivity|].
  rewrite addUnit_number. cbv zeta. rewrite Hunitless, Hmotion. reflexivity.
Qed.

Lemma addUnit_defaults_to_px_witness :
  addUnit "gap" (VNumber (Finite 15 1)) = "1.5px".
Proof.
  exact (proj2 (addUnit_defaults_to_px "gap" 15 1 eq_refl eq_refl)).
Defined.

(** ** The style compiler *)

(** C4: [{padding: 8, '&:hover': {opacity: 0.9}}] compiled for the class
    [x], that is against the root selector [.x], is the block of [.x]
    followed by the block of [.x:hover]; the text splits into exactly these
    two top-level rules and no brace is opened inside another. *)
Theorem parseStyles_flattens_hover :
  let css := Parser.cssText (Parser.parseStyles Spec.paddingHover (Some "x")) in
  css = ".x {" ++ nl ++ "  padding: 8px;" ++ nl ++ "}" ++ nl
        ++ ".x:hover {" ++ nl ++ "  opacity: 0.9;" ++ nl ++ "}" /\
  Parser.text (Parser.parseStyleObject (VObject Spec.paddingHover) None ".x") = css /\
  Parser.splitCSSRules css =
    [ ".x {" ++ nl ++ "  padding: 8px;" ++ nl ++ "}";
      ".x:hover {" ++ nl ++ "  opacity: 0.9;" ++ nl ++ "}" ] /\
  Spec.nestingDepth css = 1.
Proof.
  vm_compute. repeat split.
Qed.

(** ** The keyframe compiler *)

Lemma stopDeclarations_plain (styles : Parser.CSSProperties) (acc : list string) :
  Parser.stopDeclarations styles acc = (acc ++ Spec.plainDeclarations styles)%list.
Proof.
  revert acc. induction styles as [|[property v] rest IH]; intros acc.
  - cbn. now rewrite app_nil_r.
  - cbn [Parser.stopDeclarations]. rewrite IH. unfold Spec.plainDeclarations.
    cbn [filter snd].
    destruct v; cbn [Spec.isPlain map fst snd]; try reflexivity;
      now rewrite <- app_assoc.
Qed.

Lemma plainDeclarations_none (stop : string * Parser.CSSProperties) :
  Spec.hasPlainDeclaration stop = false -> Spec.plainDeclarations (snd stop) = [].
Proof.
  unfold Spec.hasPlainDeclaration, Spec.plainDeclarations.
  induction (snd stop) as [|entry rest IH]; [reflexivity|].
  cbn [existsb filter]. destruct (Spec.isPlain (snd entry)); [discriminate|].
  exact IH.
Qed.

Lemma plainDeclarations_some (stop : string * Parser.CSSProperties) :
  Spec.hasPlainDeclaration stop = true -> Spec.plainDeclarations (snd stop) <> [].
Proof.
  unfold Spec.hasPlainDeclaration, Spec.plainDeclarations.
  induction (snd stop) as [|entry rest IH]; [discriminate|].
  cbn [existsb filter]. destruct (Spec.isPlain (snd entry)); [discriminate|].
  exact IH.
Qed.

Lemma keyframeLoop_acc (keyframes : Parser.KeyframesDefinition) (acc : list string) :
  Parser.keyframeLoop keyframes acc = (acc ++ Spec.stopBlocks keyframes)%list.
Proof.
  revert acc. induction keyframes as [|[keyframe styles] rest IH]; intros acc.
  - cbn. now rewrite app_nil_r.
  - cbn [Parser.keyframeLoop]. rewrite IH, stopDeclarations_plain. cbn [app].
    unfold Spec.stopBlocks. cbn [filter].
    destruct (Spec.hasPlainDeclaration (keyframe, styles)) eqn:Hplain.
    + pose proof (plainDeclarations_some _ Hplain) as Hsome. cbn [snd] in Hsome.
      cbn [map]. unfold Spec.stopBlock at 2. cbn [fst snd].
      destruct (Spec.plainDeclarations styles); [contradiction|].
      now rewrite <- app_assoc.
    + pose proof (plainDeclarations_none _ Hplain) as Hnone. cbn [snd] in Hnone.
      now rewrite Hnone.
Qed.

Lemma stopDeclarations_skips_object (before after : Parser.CSSProperties)
    (key : string) (o : object) (acc : list string) :
  Parser.stopDeclarations (before ++ (key, VObject o) :: after)%list acc =
  Parser.stopDeclarations (before ++ after)%list acc.
Proof.
  revert acc. induction before as [|[property v] rest IH]; intros acc.
  - reflexivity.
  - cbn [app Parser.stopDeclarations]. apply IH.
Qed.

Lemma filter_none {A : Type} (f : A -> bool) (l : list A) :
  Forall (fun x => f x = false) l -> filter f l = [].
Proof.
  induction 1 as [|x rest Hx Hrest IH]; [reflexivity|].
  cbn [filter]. now rewrite Hx.
Qed.

Lemma filter_others {A : Type} (f : A -> bool) (l : list A) :
  Forall (fun x => f x = false) l -> filter (fun x => negb (f x)) l = l.
Proof.
  induction 1 as [|x rest Hx Hrest IH]; [reflexivity|].
  cbn [filter]. rewrite Hx. cbn [negb]. now rewrite IH.
Qed.

Lemma ownEntries_written {V : Type} (written : list (string * V)) :
  Forall (fun entry => isArrayIndex (fst entry) = false) written ->
  ownEntries written = written.
Proof.
  intros Hlabels. unfold ownEntries.
  rewrite (filter_none (fun entry => isArrayIndex (fst entry)) written Hlabels).
  now rewrite (filter_others (fun entry => isArrayIndex (fst entry)) written Hlabels).
Qed.

(** C7: for every keyframe stop map, given as [Object.entries]
    enumerates it, the keyframe compiler emits exactly the blocks of the
    stops that have a plain declaration, in the order of the stop map,
    each block holding the label and one declaration line for every
    property of the stop with a plain value, in the order of the
    properties; so the rules of [a ++ b] are those of [a] followed by
    those of [b], whatever the labels. A key of a stop whose value is
    itself a mapping contributes nothing: the stop compiles as if the key
    were absent. The compiler is a total function, so no input makes it
    fail. For a stop map written with labels none of which is an array
    index (a percentage, [from], [to] and a comma list are none), the
    enumeration is the order in which the stops were written, and the
    blocks are emitted in that order. *)
Theorem parseKeyframes_keeps_order_and_skips_nested :
  (forall animationName keyframes,
     Parser.generateKeyframesRule animationName keyframes
     = Spec.keyframesText animationName keyframes) /\
  (forall keyframes,
     Parser.parseKeyframes keyframes = join nl (Spec.stopBlocks keyframes)) /\
  (forall a b,
     Parser.keyframeLoop (a ++ b)%list [] =
     (Parser.keyframeLoop a [] ++ Parser.keyframeLoop b [])%list) /\
  (forall before key o after acc,
     Parser.stopDeclarations (before ++ (key, VObject o) :: after)%list acc =
     Parser.stopDeclarations (before ++ after)%list acc) /\
  (forall animationName written,
     Forall (fun stop => isArrayIndex (fst stop) = false) written ->
     Parser.generateKeyframesRule animationName (ownEntries written)
     = Spec.keyframesText animationName written).
Proof.
  assert (Hrule : forall animationName keyframes,
             Parser.generateKeyframesRule animationName keyframes
             = Spec.keyframesText animationName keyframes).
  { intros animationName keyframes.
    unfold Parser.generateKeyframesRule, Parser.parseKeyframes, Spec.keyframesText.
    now rewrite keyframeLoop_acc. }
  split; [exact Hrule|]. split; [|split; [|split]].
  - intros keyframes. unfold Parser.parseKeyframes. now rewrite keyframeLoop_acc.
  - intros a b. rewrite !keyframeLoop_acc. cbn [app]. unfold Spec.stopBlocks.
    now rewrite filter_app, map_app.
  - intros. apply stopDeclarations_skips_object.
  - intros animationName written Hlabels.
    rewrite (ownEntries_written written Hlabels). apply Hrule.
Qed.

Lemma parseKeyframes_keeps_order_and_skips_nested_witness :
  Parser.generateKeyframesRule "anim-1"
    (ownEntries
       [ ("100%", [("opacity", VNumber (ofZ 1)); ("&:hover", VObject Spec.red)]);
         ("50%", [("&:hover", VObject Spec.red)]);
         ("0%", [("opacity", VNumber (ofZ 0))]) ])
  = "@keyframes anim-1 {" ++ nl
      ++ "  100% {" ++ nl ++ "    opacity: 1;" ++ nl ++ "  }" ++ nl
      ++ "  0% {" ++ nl ++ "    opacity: 0;" ++ nl ++ "  }" ++ nl ++ "}".
Proof.
  refine (eq_trans
            (proj2 (proj2 (proj2 (proj2 parseKeyframes_keeps_order_and_skips_nested)))
               "anim-1"
               [ ("100%", [("opacity", VNumber (ofZ 1)); ("&:hover", VObject Spec.red)]);
                 ("50%", [("&:hover", VObject Spec.red)]);
                 ("0%", [("opacity", VNumber (ofZ 0))]) ] _) _).
  - repeat constructor.
  - vm_compute. reflexivity.
Defined.

(** Outside the labels of keyframes: stops written under the array
    indices 100 and 0 are enumerated, and so emitted, with 0 first. *)
Example generateKeyframesRule_array_indices :
  Parser.generateKeyframesRule "anim-1"
    (ownEntries
       [ ("100", [("opacity", VNumber (ofZ 1))]);
         ("50%", [("opacity", VNumber (Finite 5 1))]);
         ("0", [("opacity", VNumber (ofZ 0))]) ])
  = "@keyframes anim-1 {" ++ nl
      ++ "  0 {" ++ nl ++ "    opacity: 0;" ++ nl ++ "  }" ++ nl
      ++ "  100 {" ++ nl ++ "    opacity: 1;" ++ nl ++ "  }" ++ nl
      ++ "  50% {" ++ nl ++ "    opacity: 0.5;" ++ nl ++ "  }" ++ nl ++ "}".
Proof. vm_compute. reflexivity. Qed.

(** ** Configuration *)

Lemma clearCache_config (m : StyleManager) : config (clearCache m) = config m.
Proof. reflexivity. Qed.

(** C8, as stated, fails: after [configure({classNamePrefix: 't'})], a
    second [configure({minifyCSS: true})] leaves the prefix [t] in place,
    so the result is not the defaults overridden by the second argument,
    and the same argument gives different configurations on different
    managers. *)
Lemma configure_keeps_earlier_prefix :
  let m := configure Spec.prefixT (create Spec.env1) in
  classNamePrefix (getConfig (configure Spec.minify m)) = Some "t" /\
  getConfig (configure Spec.minify m) <> spread defaultConfig Spec.minify /\
  getConfig (configure Spec.minify m) <> getConfig (configure Spec.minify (create Spec.env1)).
Proof.
  cbv zeta. split; [reflexivity|]. split; vm_compute; discriminate.
Qed.

(** C8, amended: [configure(p)] merges [p] field by field into the
    configuration in force: an option present in [p] takes the value given
    there, every other option keeps its previous value; an empty [p]
    changes nothing. *)
Theorem configure_merges (p : PartialConfig) (m : StyleManager) :
  let before := config m in
  let after := getConfig (configure p m) in
  classNamePrefix after =
    match p_classNamePrefix p with Some v => v | None => classNamePrefix before end /\
  insertionMode after =
    match p_insertionMode p with Some v => v | None => insertionMode before end /\
  enableCache after =
    match p_enableCache p with Some v => v | None => enableCache before end /\
  developmentMode after =
    match p_developmentMode p with Some v => v | None => developmentMode before end /\
  styleTagId after =
    match p_styleTagId p with Some v => v | None => styleTagId before end /\
  insertionPoint after =
    match p_insertionPoint p with Some v => v | None => insertionPoint before end /\
  minifyCSS after =
    match p_minifyCSS p with Some v => v | None => minifyCSS before end /\
  maxCacheSize after =
    match p_maxCacheSize p with Some v => v | None => maxCacheSize before end /\
  getConfig (configure noChange m) = before.
Proof.
  unfold getConfig, configure. cbv zeta.
  repeat split; try (destruct (negb _); reflexivity).
  destruct (negb _); cbn; destruct (config m); reflexivity.
Qed.

(** ** The entry point [css] *)

(** C10: the style function made from a function-valued definition,
    called without an argument, returns ['css-error']; the only state it
    leaves behind is the manager that [getInstance] returned, with nothing
    compiled, injected or cached by the call. *)
Theorem css_dynamic_without_params (T : Type) (f : T -> value)
    (options : option CSSOptions) (env : Env) :
  (forall instance,
     Css.css (Css.Dynamic f) options None env instance =
     ("css-error", Some (Css.getInstance env instance))) /\
  (forall m,
     Css.css (Css.Dynamic f) options None env (Some m) = ("css-error", Some m)) /\
  Css.css (Css.Dynamic f) options None env None = ("css-error", Some (create env)).
Proof. repeat split. Qed.

(** ** Eviction *)

Section Sweep.
Context {V : Type} (lastUsedOf : V -> Z) (now maxSize : Z).

(** While the loop runs, the entries already kept never exceed the
    bound; here [size - length remaining] entries have been kept. *)
Lemma sweep_length (remaining : JsMap V) (size : Z) :
  size - Z.of_nat (List.length remaining) <= maxSize ->
  size - Z.of_nat (List.length remaining)
    + Z.of_nat (List.length (sweep lastUsedOf now maxSize remaining size)) <= maxSize.
Proof.
  revert size. induction remaining as [|[key item] rest IH]; intros size Hkept.
  - cbn in *. lia.
  - cbn [sweep].
    destruct ((now - lastUsedOf item >? maxAge) || (size >? maxSize)) eqn:Hdrop.
    + specialize (IH (size - 1)). cbn [List.length] in *. lia.
    + apply orb_false_elim in Hdrop as [_ Hsize].
      assert (size <= maxSize) by lia.
      specialize (IH size). cbn [List.length] in *. lia.
Qed.

Lemma sweep_bound (entries : JsMap V) :
  0 <= maxSize ->
  mapSize (sweep lastUsedOf now maxSize entries (mapSize entries)) <= maxSize.
Proof.
  intros Hmax. unfold mapSize.
  pose proof (sweep_length entries (Z.of_nat (List.length entries))). lia.
Qed.
End Sweep.

Lemma cleanupCache_bound (env : Env) (m : StyleManager) :
  cacheEnabled m = true ->
  0 <= maxSizeOf (config m) ->
  mapSize (styleCache (cleanupCache env m)) <= maxSizeOf (config m).
Proof.
  intros Hon Hmax. unfold cleanupCache. rewrite Hon. cbn.
  now apply sweep_bound.
Qed.

(** C5, as stated, fails for the size 0: [maxCacheSize || 10000] reads a
    configured 0 as 10000, so the single style inserted survives the
    sweep. *)
Lemma cleanupCache_ignores_zero_limit :
  let m := configure (Spec.maxSize 0) (create Spec.env1) in
  let m := snd (createStyle Spec.env1 Spec.blue None m) in
  cacheEnabled m = true /\
  maxCacheSize (config m) = Some 0 /\
  mapSize (styleCache m) = 0 + 1 /\
  mapSize (styleCache (cleanupCache Spec.env2 m)) = 1 /\
  ~ mapSize (styleCache (cleanupCache Spec.env2 m)) <= 0.
Proof.
  vm_compute. repeat split; intros H; now apply H.
Qed.

(** C5, amended: for every configured maximum cache size [n] greater than
    zero, when the style cache holds [n + 1] entries the eviction sweep
    leaves at most [n] of them. *)
Theorem cleanupCache_bounds_style_cache (env : Env) (m : StyleManager) (n : Z) :
  cacheEnabled m = true ->
  maxCacheSize (config m) = Some n ->
  0 < n ->
  mapSize (styleCache m) = n + 1 ->
  mapSize (styleCache (cleanupCache env m)) <= n.
Proof.
  intros Hon Hmax Hpos _.
  assert (Hsize : maxSizeOf (config m) = n).
  { unfold maxSizeOf. rewrite Hmax. destruct (n =? 0) eqn:E; [lia | reflexivity]. }
  rewrite <- Hsize. apply cleanupCache_bound; [assumption | lia].
Qed.

Lemma cleanupCache_bounds_style_cache_witness :
  let m := configure (Spec.maxSize 1) (create Spec.env1) in
  let m := snd (createStyle Spec.env1 Spec.blue None m) in
  let m := snd (createStyle Spec.env2 Spec.red None m) in
  mapSize (styleCache m) = 1 + 1 /\
  mapSize (styleCache (cleanupCache Spec.env2 m)) <= 1.
Proof.
  cbv zeta. split; [reflexivity|].
  apply (cleanupCache_bounds_style_cache Spec.env2 _ 1); reflexivity.
Defined.

(** ** Compiled text is never blank *)

Lemma hasInk_append (a b : string) :
  Spec.hasInk (a ++ b) = Spec.hasInk a || Spec.hasInk b.
Proof.
  induction a as [|c a IH]; [reflexivity|].
  cbn. rewrite IH. now rewrite orb_assoc.
Qed.

Lemma hasInk_dropSpaces (s : string) : Spec.hasInk (dropSpaces s) = Spec.hasInk s.
Proof.
  induction s as [|c s IH]; [reflexivity|].
  cbn [dropSpaces]. destruct (isSpace c) eqn:Hc.
  - cbn. rewrite Hc. exact IH.
  - reflexivity.
Qed.

Lemma hasInk_rev (s acc : string) :
  Spec.hasInk (rev s acc) = Spec.hasInk s || Spec.hasInk acc.
Proof.
  revert acc. induction s as [|c s IH]; intros acc; [reflexivity|].
  cbn [rev]. rewrite IH. cbn.
  destruct (isSpace c), (Spec.hasInk s), (Spec.hasInk acc); reflexivity.
Qed.

Lemma hasInk_trim (s : string) : Spec.hasInk (trim s) = Spec.hasInk s.
Proof.
  unfold trim.
  rewrite hasInk_rev, hasInk_dropSpaces, hasInk_rev, hasInk_dropSpaces.
  cbn. now rewrite !orb_false_r.
Qed.

Lemma hasInk_truthy (s : string) : Spec.hasInk s = true -> Parser.truthy s = true.
Proof. destruct s; [discriminate | reflexivity]. Qed.

Lemma hasInk_not_blank (s : string) :
  Spec.hasInk s = true -> Parser.truthy (trim s) = true.
Proof. intros H. apply hasInk_truthy. now rewrite hasInk_trim. Qed.

Lemma hasInk_join (sep : string) (l : list string) :
  l <> [] -> Forall (fun r => Spec.hasInk r = true) l -> Spec.hasInk (join sep l) = true.
Proof.
  intros Hne Hall. destruct Hall as [|x rest Hx Hrest]; [congruence|].
  destruct rest as [|y rest']; [exact Hx|].
  change (join sep (x :: y :: rest')) with (x ++ sep ++ join sep (y :: rest')).
  rewrite hasInk_append, Hx. reflexivity.
Qed.

(** A parse result is empty or has a visible character. *)
Definition inked (r : Parser.Parsed) : Prop :=
  Parser.text r = "" \/ Spec.hasInk (Parser.text r) = true.

Definition inkedBlock (b : Parser.Block) : Prop :=
  Forall (fun r => Spec.hasInk r = true) (Parser.nestedRules b).

Lemma truthy_true (s : string) : Parser.truthy s = true -> s <> "".
Proof. destruct s; [discriminate | discriminate]. Qed.

Lemma pushNested_inked (wrap : string -> string) (r : Parser.Parsed) (b : Parser.Block) :
  (forall t, Spec.hasInk t = true -> Spec.hasInk (wrap t) = true) ->
  inked r -> inkedBlock b -> inkedBlock (Parser.pushNested wrap r b).
Proof.
  intros Hwrap Hr Hb. unfold Parser.pushNested.
  destruct (Parser.truthy (Parser.text r)) eqn:Ht; [|exact Hb].
  unfold inkedBlock. cbn. apply Forall_app. split; [exact Hb|].
  constructor; [|constructor]. apply Hwrap.
  destruct Hr as [He | Hi]; [|exact Hi].
  apply truthy_true in Ht. contradiction.
Qed.

Lemma step_inked (recur : value -> option string -> string -> Parser.Parsed)
    (className : option string) (parentSelector : string)
    (b : Parser.Block) (entry : string * value) :
  (forall cn ps, inked (recur (snd entry) cn ps)) ->
  inkedBlock b -> inkedBlock (Parser.step recur className parentSelector b entry).
Proof.
  intros Hrec Hb. destruct entry as [property v]. cbn [snd] in Hrec.
  unfold Parser.step.
  assert (Hid : forall t, Spec.hasInk t = true -> Spec.hasInk ((fun t => t) t) = true)
    by auto.
  assert (Hat : forall t, Spec.hasInk t = true ->
                Spec.hasInk ((fun t => property ++ " {" ++ nl ++ t ++ nl ++ "}") t) = true).
  { intros t _. cbv beta. rewrite hasInk_append.
    change (Spec.hasInk (" {" ++ nl ++ t ++ nl ++ "}")) with true.
    apply orb_true_r. }
  destruct v; try exact Hb;
    (destruct (startsWith property "&");
     [apply pushNested_inked; auto
     |destruct (startsWith property "@");
      [apply pushNested_inked; auto
      |cbn [isObject]; try exact Hb; try (apply pushNested_inked; auto)]]).
Qed.

Lemma fold_step_inked (recur : value -> option string -> string -> Parser.Parsed)
    (className : option string) (parentSelector : string)
    (props : object) (b : Parser.Block) :
  Forall (fun entry => forall cn ps, inked (recur (snd entry) cn ps)) props ->
  inkedBlock b ->
  inkedBlock (fold_left (Parser.step recur className parentSelector) props b).
Proof.
  intros Hall. revert b. induction Hall as [|entry rest He Hrest IH]; intros b Hb.
  - exact Hb.
  - cbn [fold_left]. apply IH. now apply step_inked.
Qed.

Lemma assemble_inked (baseSelector : string) (b : Parser.Block) :
  inkedBlock b -> inked (Parser.assemble baseSelector b).
Proof.
  intros Hb. unfold inked, Parser.assemble. cbn [Parser.text].
  destruct (Parser.declarations b) as [|d ds].
  - destruct (Parser.nestedRules b) as [|r rs] eqn:Hn; [left; reflexivity|].
    right. cbn [Parser.truthy String.eqb negb]. cbn [append].
    apply hasInk_join; [discriminate|]. unfold inkedBlock in Hb. now rewrite Hn in Hb.
  - right.
    assert (Hown : Spec.hasInk
                     (baseSelector ++ " {" ++ nl ++ join nl (d :: ds) ++ nl ++ "}") = true).
    { rewrite hasInk_append. apply orb_true_r. }
    set (own := baseSelector ++ " {" ++ nl ++ join nl (d :: ds) ++ nl ++ "}") in *.
    destruct (Parser.nestedRules b); [exact Hown|].
    rewrite (hasInk_truthy own Hown).
    rewrite (hasInk_append (own ++ nl)), (hasInk_append own nl), Hown. reflexivity.
Qed.

Lemma parseStyleObject_inked (v : value) :
  forall className parentSelector,
    inked (Parser.parseStyleObject v className parentSelector).
Proof.
  induction v using value_induction; intros className parentSelector;
    try (cbn [Parser.parseStyleObject]; apply assemble_inked, fold_step_inked;
         [|constructor]).
  1-4: constructor.
  - induction (entries (VString s)) as [|entry rest IH]; constructor; auto.
    intros cn ps. left. reflexivity.
  - exact H.
Qed.

(** The text compiled by [parseStyles] is blank only when it is empty. *)
Lemma parseStyles_not_blank (styles : Parser.CSSProperties) (className : option string) :
  Parser.truthy (Parser.cssText (Parser.parseStyles styles className)) = true ->
  Parser.truthy (trim (Parser.cssText (Parser.parseStyles styles className))) = true.
Proof.
  unfold Parser.parseStyles. cbn [Parser.cssText].
  destruct (Parser.truthy (Parser.text _)) eqn:Ht; [|discriminate].
  intros _. cbn [join].
  destruct (parseStyleObject_inked (VObject styles) className "") as [He | Hi].
  - apply truthy_true in Ht. contradiction.
  - now apply hasInk_not_blank.
Qed.

(** ** The style cache *)

Section MapFacts.
Context {V : Type}.

Lemma mapGet_mapSet (key : string) (v : V) (m : JsMap V) :
  mapGet key (mapSet key v m) = Some v.
Proof.
  induction m as [|[k x] rest IH]; cbn.
  - now rewrite String.eqb_refl.
  - destruct (String.eqb k key) eqn:E; cbn; rewrite E; auto.
Qed.

Lemma mapGet_Forall (P : V -> Prop) (key : string) (v : V) (m : JsMap V) :
  Forall (fun entry => P (snd entry)) m -> mapGet key m = Some v -> P v.
Proof.
  induction 1 as [|[k x] rest Hx Hrest IH]; cbn; [discriminate|].
  destruct (String.eqb k key); [|exact IH].
  intros [= <-]. exact Hx.
Qed.

Lemma mapSet_Forall (P : V -> Prop) (key : string) (v : V) (m : JsMap V) :
  P v -> Forall (fun entry => P (snd entry)) m ->
  Forall (fun entry => P (snd entry)) (mapSet key v m).
Proof.
  intros Hv. induction 1 as [|[k x] rest Hx Hrest IH]; cbn.
  - constructor; [exact Hv | constructor].
  - destruct (String.eqb k key); constructor; auto.
Qed.
End MapFacts.

Lemma trim_truthy (t : string) :
  Parser.truthy (trim t) = true -> Parser.truthy t = true.
Proof. destruct t; [discriminate | reflexivity]. Qed.

Lemma accepted_not_blank (env : Env) (css : string) :
  Parser.injectCSS env css = true ->
  Parser.truthy (trim css) = true /\ domAccepts env css = true.
Proof.
  unfold Parser.injectCSS. destruct (Parser.truthy (trim css)); [auto | discriminate].
Qed.

(** When the parser takes the text, [injectCSS] reports success in every
    insertion mode, and asks for one injection unless the text is already
    among the injected rules. *)
Lemma injectCSS_accepts (env : Env) (css : string) (m : StyleManager) :
  Parser.injectCSS env css = true ->
  let r := injectCSS env css m in
  fst r = true /\
  styleCache (snd r) = styleCache m /\
  config (snd r) = config m /\
  stats (snd r) = stats m /\
  Spec.materializations (snd r) =
    (Spec.materializations m + if has (injectedRules m) css then 0 else 1)%nat.
Proof.
  intros Hacc. pose proof (accepted_not_blank _ _ Hacc) as [Htrim Hdom].
  unfold injectCSS. rewrite Htrim. cbn [negb].
  destruct (has (injectedRules m) css).
  - cbn. repeat split. lia.
  - unfold Spec.materializations.
    destruct (insertionMode (config m)) as [[]|];
      try destruct (hasRequestAnimationFrame env);
      rewrite ?Hacc; cbn; rewrite ?List.length_app; cbn; repeat split; lia.
Qed.

Lemma styleKey_config (styles : Parser.CSSProperties) (options : option CSSOptions)
    (m m' : StyleManager) :
  config m' = config m -> Spec.styleKey styles options m' = Spec.styleKey styles options m.
Proof.
  intros H. unfold Spec.styleKey, finalOptionsOf. now rewrite H.
Qed.

Lemma cacheEnabled_config (m m' : StyleManager) :
  config m' = config m -> cacheEnabled m' = cacheEnabled m.
Proof. intros H. unfold cacheEnabled. now rewrite H. Qed.

(** A hit returns the cached name and asks nothing of the sink. *)
Lemma createStyle_hit (env : Env) (styles : Parser.CSSProperties)
    (options : option CSSOptions) (m : StyleManager) (item : StyleCacheItem) :
  cacheEnabled m = true ->
  mapGet (Spec.styleKey styles options m) (styleCache m) = Some item ->
  let r := createStyle env styles options m in
  fst r = className item /\
  config (snd r) = config m /\
  sinkCalls (snd r) = sinkCalls m /\
  scheduled (snd r) = scheduled m /\
  injectedRules (snd r) = injectedRules m /\
  exists item',
    mapGet (Spec.styleKey styles options m) (styleCache (snd r)) = Some item' /\
    className item' = className item /\ cssText item' = cssText item.
Proof.
  intros Hon Hget. unfold Spec.styleKey in *. unfold createStyle.
  rewrite Hon, Hget. cbn. repeat split.
  eexists. split; [apply mapGet_mapSet|]. split; reflexivity.
Qed.

(** A miss whose text the parser takes files the new name under the
    fingerprint. *)
Lemma createStyle_miss_accepted (env : Env) (styles : Parser.CSSProperties)
    (options : option CSSOptions) (m : StyleManager) :
  cacheEnabled m = true ->
  mapGet (Spec.styleKey styles options m) (styleCache m) = None ->
  Parser.injectCSS env (Spec.compiled env styles options m) = true ->
  let r := createStyle env styles options m in
  fst r = generateClassName env (finalOptionsOf m options) /\
  config (snd r) = config m /\
  Spec.materializations (snd r) =
    (Spec.materializations m
     + if has (injectedRules m) (Spec.compiled env styles options m) then 0 else 1)%nat /\
  exists item,
    mapGet (Spec.styleKey styles options m) (styleCache (snd r)) = Some item /\
    className item = fst r /\
    cssText item = Spec.compiled env styles options m.
Proof.
  intros Hon Hget Hacc. unfold Spec.styleKey, Spec.compiled in *. unfold createStyle.
  rewrite Hon, Hget.
  pose proof (accepted_not_blank _ _ Hacc) as [Htrim _].
  apply trim_truthy in Htrim. rewrite Htrim. cbn [negb].
  set (css := Parser.cssText _) in *.
  set (m' := withStats _ m).
  pose proof (injectCSS_accepts env css m' Hacc) as H. cbv zeta in H.
  destruct (injectCSS env css m') as [injected m''].
  cbn [fst snd] in H. destruct H as (-> & Hcache & Hconfig & Hstats & Hcount).
  assert (Hon' : cacheEnabled m'' = true).
  { rewrite (cacheEnabled_config m' m'' Hconfig). exact Hon. }
  rewrite Hon'. cbn. repeat split.
  - exact Hconfig.
  - exact Hcount.
  - eexists. split; [apply mapGet_mapSet|]. split; reflexivity.
Qed.

Lemma materializations_same (m m' : StyleManager) :
  sinkCalls m' = sinkCalls m -> scheduled m' = scheduled m ->
  Spec.materializations m' = Spec.materializations m.
Proof. intros H1 H2. unfold Spec.materializations. now rewrite H1, H2. Qed.

(** After a call whose text the parser takes (or which found its entry),
    the returned name is filed under the fingerprint of the input. *)
Lemma createStyle_files_name (env : Env) (styles : Parser.CSSProperties)
    (options : option CSSOptions) (m : StyleManager) :
  cacheEnabled m = true ->
  Parser.injectCSS env (Spec.compiled env styles options m) = true ->
  let r := createStyle env styles options m in
  config (snd r) = config m /\
  Spec.materializations (snd r) =
    (Spec.materializations m
     + if mapHas (Spec.styleKey styles options m) (styleCache m)
          || has (injectedRules m) (Spec.compiled env styles options m)
       then 0 else 1)%nat /\
  exists item,
    mapGet (Spec.styleKey styles options m) (styleCache (snd r)) = Some item /\
    className item = fst r.
Proof.
  intros Hon Hacc. unfold mapHas.
  destruct (mapGet (Spec.styleKey styles options m) (styleCache m)) as [item|] eqn:Hget.
  - destruct (createStyle_hit env styles options m item Hon Hget)
      as (Hname & Hconfig & Hsink & Hsched & _ & item' & Hget' & Hname' & _).
    cbv zeta. split; [exact Hconfig|]. split.
    + rewrite (materializations_same _ _ Hsink Hsched). cbn. lia.
    + exists item'. split; [exact Hget' | congruence].
  - destruct (createStyle_miss_accepted env styles options m Hon Hget Hacc)
      as (_ & Hconfig & Hcount & item & Hget' & Hname & _).
    cbv zeta. split; [exact Hconfig|]. split; [exact Hcount|].
    exists item. split; assumption.
Qed.

(** A compiled text that is not empty goes to the style sheet. *)
Lemma compiled_accepted (env : Env) (styles : Parser.CSSProperties)
    (options : option CSSOptions) (m : StyleManager) :
  Parser.truthy (Spec.compiled env styles options m) = true ->
  domAccepts env (Spec.compiled env styles options m) = true ->
  Parser.injectCSS env (Spec.compiled env styles options m) = true.
Proof.
  intros Htext Hdom. unfold Parser.injectCSS.
  unfold Spec.compiled in *. now rewrite (parseStyles_not_blank _ _ Htext).
Qed.

(** *** Structurally equal descriptions have one fingerprint *)

Lemma ascii_compare_refl (a : ascii) : Ascii.compare a a = Eq.
Proof. unfold Ascii.compare. apply N.compare_refl. Qed.

Lemma string_compare_refl (s : string) : String.compare s s = Eq.
Proof.
  induction s as [|a r IH]; [reflexivity|].
  cbn. now rewrite ascii_compare_refl.
Qed.

Lemma string_compare_lt_trans (s1 s2 s3 : string) :
  String.compare s1 s2 = Lt -> String.compare s2 s3 = Lt -> String.compare s1 s3 = Lt.
Proof.
  revert s2 s3. induction s1 as [|a r1 IH]; intros [|b r2] [|c r3]; cbn;
    try discriminate; try reflexivity.
  destruct (Ascii.compare a b) eqn:Hab; try discriminate.
  - apply Ascii.compare_eq_iff in Hab. subst b.
    destruct (Ascii.compare a c); try discriminate; [apply IH | reflexivity].
  - intros _. destruct (Ascii.compare b c) eqn:Hbc; try discriminate.
    + apply Ascii.compare_eq_iff in Hbc. subst c. now rewrite Hab.
    + intros _. unfold Ascii.compare in *.
      rewrite N.compare_lt_iff in Hab, Hbc.
      assert (H : (N_of_ascii a < N_of_ascii c)%N) by lia.
      rewrite <- N.compare_lt_iff in H. now rewrite H.
Qed.

Lemma leb_cases (s1 s2 : string) :
  String.leb s1 s2 = true <-> String.compare s1 s2 = Lt \/ s1 = s2.
Proof.
  unfold String.leb. split.
  - destruct (String.compare s1 s2) eqn:H; try discriminate; auto.
    right. now apply String.compare_eq_iff.
  - intros [-> | ->]; [reflexivity|]. now rewrite string_compare_refl.
Qed.

Lemma leb_trans (s1 s2 s3 : string) :
  String.leb s1 s2 = true -> String.leb s2 s3 = true -> String.leb s1 s3 = true.
Proof.
  rewrite !leb_cases. intros [H12 | ->] [H23 | ->]; auto.
  left. eapply string_compare_lt_trans; eassumption.
Qed.

Lemma insertSorted_comm (a b : string) (l : list string) :
  insertSorted a (insertSorted b l) = insertSorted b (insertSorted a l).
Proof.
  induction l as [|x r IH]; cbn [insertSorted].
  - destruct (String.leb a b) eqn:Hab, (String.leb b a) eqn:Hba; try reflexivity.
    + now rewrite (String.leb_antisym a b Hab Hba).
    + destruct (String.leb_total a b); congruence.
  - destruct (String.leb b x) eqn:Hbx, (String.leb a x) eqn:Hax; cbn [insertSorted].
    + destruct (String.leb a b) eqn:Hab, (String.leb b a) eqn:Hba;
        rewrite ?Hax, ?Hbx; try reflexivity.
      * now rewrite (String.leb_antisym a b Hab Hba).
      * destruct (String.leb_total a b); congruence.
    + rewrite Hbx. destruct (String.leb a b) eqn:Hab.
      * pose proof (leb_trans a b x Hab Hbx). congruence.
      * now rewrite Hax.
    + rewrite Hax. destruct (String.leb b a) eqn:Hba.
      * pose proof (leb_trans b a x Hba Hax). congruence.
      * now rewrite Hbx.
    + rewrite Hax, Hbx. now rewrite IH.
Qed.

(** Sorting forgets the order in which the keys were enumerated. *)
Lemma sort_permutation (l l' : list string) :
  Permutation l l' -> Js.sort l = Js.sort l'.
Proof.
  unfold Js.sort. induction 1 as [|x l l' _ IH|x y l|l l' l'' _ IH1 _ IH2]; cbn.
  - reflexivity.
  - now rewrite IH.
  - apply insertSorted_comm.
  - congruence.
Qed.

Lemma getProperty_permutation (o o' : object) (key : string) :
  NoDup (keys o) -> Permutation o o' -> getProperty key o = getProperty key o'.
Proof.
  intros Hnodup Hperm.
  induction Hperm as [|[k v] l l' Hp IH|[k v] [k' v'] l|l l' l'' Hp1 IH1 Hp2 IH2].
  - reflexivity.
  - cbn. inversion Hnodup; subst. now rewrite IH.
  - cbn. destruct (String.eqb k' key) eqn:E', (String.eqb k key) eqn:E; try reflexivity.
    apply String.eqb_eq in E, E'. subst.
    inversion Hnodup as [|? ? Hin _]; subst. exfalso. apply Hin. now left.
  - rewrite IH1 by assumption. apply IH2.
    unfold keys in *. eapply Permutation_NoDup; [|exact Hnodup].
    now apply Permutation_map.
Qed.

(** The members that [JSON.stringify] writes for an object are found by
    property lookup. *)
Lemma serialize_object (K : list string) (props : object) :
  serialize K (VObject props) =
  Some ("{" ++ join "," (flat_map (Spec.member K props) K) ++ "}").
Proof.
  cbn [serialize]. do 4 f_equal. apply flat_map_ext. intros P. unfold Spec.member.
  induction props as [|[k x] rest IH]; [reflexivity|].
  cbn [getProperty]. destruct (String.eqb k P); [reflexivity | exact IH].
Qed.

Lemma uniqueKeys_property (k : string) (v : value) (o : object) :
  Spec.uniqueKeys (VObject ((k, v) :: o)) ->
  Spec.uniqueKeys v /\ Spec.uniqueKeys (VObject o).
Proof.
  cbn. intros [Hnodup [Hv Ho]]. split; [exact Hv|].
  split; [now inversion Hnodup | exact Ho].
Qed.

(** Structurally equal values are written alike, under any replacer:
    the same text for the value, and for objects the same names and the
    same member for every name. *)
Lemma sameValue_serialize (a b : value) :
  Spec.sameValue a b ->
  Spec.uniqueKeys a ->
  (forall K, serialize K a = serialize K b) /\
  (forall o o', a = VObject o -> b = VObject o' ->
     Permutation (keys o) (keys o') /\
     forall K P, Spec.member K o P = Spec.member K o' P).
Proof.
  induction 1 as [v Hprimitive| |k v v' o o' Hv IHv Ho IHo|o o' o'' Hsame IH Hperm];
    intros Hunique.
  - split; [reflexivity|]. intros o o' -> _. discriminate.
  - split; [reflexivity|]. intros o o' Ho Ho'.
    injection Ho as <-. injection Ho' as <-. split; [constructor | reflexivity].
  - destruct (uniqueKeys_property k v o Hunique) as [Huv Huo].
    destruct (IHv Huv) as [Htext _].
    destruct (IHo Huo) as [_ Hmembers].
    destruct (Hmembers o o' eq_refl eq_refl) as [Hkeys Hmember].
    assert (Hall : forall K P,
               Spec.member K ((k, v) :: o) P = Spec.member K ((k, v') :: o') P).
    { intros K P. unfold Spec.member. cbn [getProperty].
      destruct (String.eqb k P); [now rewrite Htext | apply Hmember]. }
    split.
    + intros K. rewrite !serialize_object. do 4 f_equal.
      apply flat_map_ext. intros P. apply Hall.
    + intros p p' Hp Hp'. injection Hp as <-. injection Hp' as <-.
      split; [cbn; now constructor | exact Hall].
  - destruct (IH Hunique) as [Htext Hmembers].
    destruct (Hmembers o o' eq_refl eq_refl) as [Hkeys Hmember].
    assert (Hnodup : NoDup (keys o')).
    { eapply Permutation_NoDup; [exact Hkeys|]. cbn in Hunique. apply Hunique. }
    assert (Hall : forall K P, Spec.member K o P = Spec.member K o'' P).
    { intros K P. rewrite Hmember. unfold Spec.member.
      now rewrite (getProperty_permutation o' o'' P Hnodup Hperm). }
    split.
    + intros K. rewrite !serialize_object. do 4 f_equal.
      apply flat_map_ext. intros P. apply Hall.
    + intros p p' Hp Hp'. injection Hp as <-. injection Hp' as <-.
      split; [|exact Hall].
      eapply Permutation_trans; [exact Hkeys|]. unfold keys. now apply Permutation_map.
Qed.

(** The fingerprint of a description does not depend on the order in
    which its properties, or those of the objects inside it, are
    enumerated. *)
Lemma createCacheKey_sameValue (data data' : object) (options : option object) :
  Spec.uniqueKeys (VObject data) ->
  Spec.sameValue (VObject data) (VObject data') ->
  createCacheKey data options = createCacheKey data' options.
Proof.
  intros Hunique Hsame.
  destruct (sameValue_serialize _ _ Hsame Hunique) as [Htext Hmembers].
  destruct (Hmembers data data' eq_refl eq_refl) as [Hkeys _].
  unfold createCacheKey, stringify.
  rewrite <- (sort_permutation _ _ Hkeys). now rewrite Htext.
Qed.

(** C1, as stated, fails for a description that compiles to no text: the
    empty description is never cached, so with a sink that takes
    everything the two calls return two different generated names, and
    nothing is injected. *)
Lemma createStyle_empty_description_twice :
  let m := create Spec.env1 in
  let r1 := createStyle Spec.env1 [] None m in
  let r2 := createStyle Spec.env2 [] None (snd r1) in
  cacheEnabled m = true /\
  (forall t, domAccepts Spec.env1 t = true) /\
  (forall t, domAccepts Spec.env2 t = true) /\
  fst r1 = "css-a1b2c3d43v28" /\
  fst r2 = "css-x9y8z7w63v2d" /\
  fst r2 <> fst r1 /\
  Spec.materializations (snd r2) = 0%nat.
Proof.
  cbv zeta. repeat split; try reflexivity.
  vm_compute. discriminate.
Qed.

(** C1, amended: with caching enabled, for a description whose compiled
    rule text is not empty and is taken by the sink, two successive
    [createStyle] calls with structurally equal descriptions (the same
    properties, written in any order at every depth, with equal values)
    and the same options return the same name, and together they ask for
    exactly one injection (none if the entry or the rule text was already
    there from an earlier call, which then made that injection). *)
Theorem createStyle_twice_same_name (env env' : Env)
    (styles styles' : Parser.CSSProperties)
    (options : option CSSOptions) (m : StyleManager) :
  cacheEnabled m = true ->
  Spec.uniqueKeys (VObject styles) ->
  Spec.sameValue (VObject styles) (VObject styles') ->
  Parser.truthy (Spec.compiled env styles options m) = true ->
  domAccepts env (Spec.compiled env styles options m) = true ->
  let r1 := createStyle env styles options m in
  let r2 := createStyle env' styles' options (snd r1) in
  fst r2 = fst r1 /\
  Spec.materializations (snd r2) =
    (Spec.materializations m
     + if mapHas (Spec.styleKey styles options m) (styleCache m)
          || has (injectedRules m) (Spec.compiled env styles options m)
       then 0 else 1)%nat.
Proof.
  intros Hon Hunique Hsame Htext Hdom r1 r2.
  pose proof (compiled_accepted env styles options m Htext Hdom) as Hacc.
  destruct (createStyle_files_name env styles options m Hon Hacc)
    as (Hconfig & Hcount & item & Hget & Hname).
  fold r1 in Hconfig, Hcount, Hget, Hname.
  assert (Hkey : Spec.styleKey styles' options (snd r1) = Spec.styleKey styles options m).
  { rewrite (styleKey_config styles' options m (snd r1) Hconfig). unfold Spec.styleKey.
    symmetry. now apply createCacheKey_sameValue. }
  rewrite <- Hkey in Hget.
  assert (Hon' : cacheEnabled (snd r1) = true).
  { rewrite (cacheEnabled_config m (snd r1) Hconfig). exact Hon. }
  destruct (createStyle_hit env' styles' options (snd r1) item Hon' Hget)
    as (Hname' & _ & Hsink & Hsched & _).
  fold r2 in Hname', Hsink, Hsched. split.
  - congruence.
  - rewrite (materializations_same _ _ Hsink Hsched). exact Hcount.
Qed.

Lemma createStyle_twice_same_name_witness :
  let hover := [("color", VString "red"); ("opacity", VNumber (ofZ 1))] in
  let hover' := [("opacity", VNumber (ofZ 1)); ("color", VString "red")] in
  let styles := [("color", VString "blue"); ("padding", VNumber (ofZ 8));
                 ("&:hover", VObject hover)] in
  let styles' := [("&:hover", VObject hover'); ("padding", VNumber (ofZ 8));
                  ("color", VString "blue")] in
  let r1 := createStyle Spec.env1 styles None (create Spec.env1) in
  let r2 := createStyle Spec.env2 styles' None (snd r1) in
  fst r2 = fst r1 /\ Spec.materializations (snd r2) = 1%nat.
Proof.
  intros hover hover' styles styles'.
  assert (Hunique : Spec.uniqueKeys (VObject styles)).
  { cbn. repeat split; repeat constructor; cbn; intuition discriminate. }
  assert (Hhover : Spec.sameValue (VObject hover) (VObject hover')).
  { apply (Spec.same_reordered hover hover hover'); [|apply perm_swap].
    repeat (apply Spec.same_property || apply Spec.same_empty);
      now apply Spec.same_primitive. }
  assert (Hsame : Spec.sameValue (VObject styles) (VObject styles')).
  { apply (Spec.same_reordered styles
             [("color", VString "blue"); ("padding", VNumber (ofZ 8));
              ("&:hover", VObject hover')] styles').
    - apply Spec.same_property; [now apply Spec.same_primitive|].
      apply Spec.same_property; [now apply Spec.same_primitive|].
      apply Spec.same_property; [exact Hhover | apply Spec.same_empty].
    - apply Permutation_rev. }
  assert (Htext : Parser.truthy (Spec.compiled Spec.env1 styles None (create Spec.env1)) = true)
    by (vm_compute; reflexivity).
  assert (Hcount : (if mapHas (Spec.styleKey styles None (create Spec.env1))
                         (styleCache (create Spec.env1))
                       || has (injectedRules (create Spec.env1))
                            (Spec.compiled Spec.env1 styles None (create Spec.env1))
                    then 0 else 1)%nat = 1%nat)
    by (vm_compute; reflexivity).
  pose proof (createStyle_twice_same_name Spec.env1 Spec.env2 styles styles' None
                (create Spec.env1) eq_refl Hunique Hsame Htext eq_refl) as H.
  cbv zeta in H. rewrite Hcount in H. exact H.
Defined.

(** ** Fingerprints *)

Lemma hover_fingerprints (o : option object) :
  createCacheKey Spec.hoverOpacity o = createCacheKey Spec.hoverColor o.
Proof. reflexivity. Qed.

(** C9: [{'&:hover': {opacity: 1}}] and [{'&:hover': {color: 'red'}}] are
    distinct, yet both serialise to [{"&:hover":{}}], because the replacer
    holds the top-level keys only; their fingerprints are equal under any
    options. With caching enabled, once the first has been compiled and
    injected, [createStyle] on the second returns the name of the first
    and hands nothing to the sink. *)
Theorem nested_mapping_shares_fingerprint (env env' : Env)
    (options : option CSSOptions) (m : StyleManager) :
  cacheEnabled m = true ->
  Parser.injectCSS env (Spec.compiled env Spec.hoverOpacity options m) = true ->
  let r1 := createStyle env Spec.hoverOpacity options m in
  let r2 := createStyle env' Spec.hoverColor options (snd r1) in
  Spec.hoverOpacity <> Spec.hoverColor /\
  stringify (VObject Spec.hoverOpacity) (sort (keys Spec.hoverOpacity))
    = "{" ++ quoteJSON "&:hover" ++ ":{}}" /\
  stringify (VObject Spec.hoverColor) (sort (keys Spec.hoverColor))
    = "{" ++ quoteJSON "&:hover" ++ ":{}}" /\
  (forall o, createCacheKey Spec.hoverOpacity o = createCacheKey Spec.hoverColor o) /\
  fst r2 = fst r1 /\
  sinkCalls (snd r2) = sinkCalls (snd r1) /\
  scheduled (snd r2) = scheduled (snd r1) /\
  injectedRules (snd r2) = injectedRules (snd r1).
Proof.
  intros Hon Hacc r1 r2.
  split; [discriminate|]. split; [reflexivity|]. split; [reflexivity|].
  split; [exact hover_fingerprints|].
  destruct (createStyle_files_name env Spec.hoverOpacity options m Hon Hacc)
    as (Hconfig & _ & item & Hget & Hname).
  fold r1 in Hconfig, Hget, Hname.
  assert (Hkey : Spec.styleKey Spec.hoverColor options (snd r1)
                 = Spec.styleKey Spec.hoverOpacity options m).
  { rewrite (styleKey_config _ _ m (snd r1) Hconfig). unfold Spec.styleKey.
    symmetry. apply hover_fingerprints. }
  rewrite <- Hkey in Hget.
  assert (Hon' : cacheEnabled (snd r1) = true).
  { rewrite (cacheEnabled_config m (snd r1) Hconfig). exact Hon. }
  destruct (createStyle_hit env' Spec.hoverColor options (snd r1) item Hon' Hget)
    as (Hname' & _ & Hsink & Hsched & Hrules & _).
  fold r2 in Hname', Hsink, Hsched, Hrules.
  repeat split; congruence.
Qed.

Lemma nested_mapping_shares_fingerprint_witness :
  let r1 := createStyle Spec.env1 Spec.hoverOpacity None (create Spec.env1) in
  let r2 := createStyle Spec.env2 Spec.hoverColor None (snd r1) in
  fst r2 = "css-a1b2c3d43v28" /\
  sinkCalls (snd r2) = [".css-a1b2c3d43v28:hover {" ++ nl ++ "  opacity: 1;" ++ nl ++ "}"].
Proof.
  pose proof (nested_mapping_shares_fingerprint Spec.env1 Spec.env2 None
                (create Spec.env1) eq_refl eq_refl) as H.
  cbv zeta in H. destruct H as (_ & _ & _ & _ & Hname & Hsink & _).
  split.
  - rewrite Hname. reflexivity.
  - rewrite Hsink. reflexivity.
Defined.

(** ** A sink that always fails *)

Lemma injectCSS_keeps (env : Env) (css : string) (m : StyleManager) :
  let r := injectCSS env css m in
  styleCache (snd r) = styleCache m /\
  config (snd r) = config m /\
  stats (snd r) = stats m.
Proof.
  unfold injectCSS. destruct (negb _); [now cbn|].
  destruct (has _ _); [now cbn|].
  destruct (insertionMode (config m)) as [[]|];
    try destruct (hasRequestAnimationFrame env);
    try destruct (Parser.injectCSS env css); now cbn.
Qed.

Lemma injectCSS_keeps_animations (env : Env) (css : string) (m : StyleManager) :
  animationCache (snd (injectCSS env css m)) = animationCache m.
Proof.
  unfold injectCSS. destruct (negb _); [now cbn|].
  destruct (has _ _); [now cbn|].
  destruct (insertionMode (config m)) as [[]|];
    try destruct (hasRequestAnimationFrame env);
    try destruct (Parser.injectCSS env css); now cbn.
Qed.

(** The style cache after a call is the one before it, possibly with one
    entry set under the fingerprint of the input. *)
Lemma createStyle_cache (env : Env) (styles : Parser.CSSProperties)
    (options : option CSSOptions) (m : StyleManager) :
  let r := createStyle env styles options m in
  config (snd r) = config m /\
  (styleCache (snd r) = styleCache m \/
   exists item,
     styleCache (snd r) = mapSet (Spec.styleKey styles options m) item (styleCache m)).
Proof.
  unfold Spec.styleKey, createStyle.
  destruct (cacheEnabled m) eqn:Hon.
  - destruct (mapGet _ (styleCache m)) as [item|].
    + cbn. split; [reflexivity|]. right. eexists. reflexivity.
    + destruct (negb _); [cbn; auto|].
      set (css := Parser.cssText _). set (m' := withStats _ m).
      pose proof (injectCSS_keeps env css m') as H. cbv zeta in H.
      destruct (injectCSS env css m') as [injected m'']. cbn [fst snd] in H.
      destruct H as (Hcache & Hconfig & _).
      destruct (injected && cacheEnabled m''); cbn.
      * split; [exact Hconfig|]. right. eexists. rewrite Hcache. reflexivity.
      * split; [exact Hconfig|]. left. exact Hcache.
  - destruct (negb _); [cbn; auto|].
    set (css := Parser.cssText _). set (m' := withStats _ m).
    pose proof (injectCSS_keeps env css m') as H. cbv zeta in H.
    destruct (injectCSS env css m') as [injected m'']. cbn [fst snd] in H.
    destruct H as (Hcache & Hconfig & _).
    assert (Hoff : cacheEnabled m'' = false).
    { rewrite (cacheEnabled_config m' m'' Hconfig). exact Hon. }
    rewrite Hoff, andb_false_r. cbn. split; [exact Hconfig|]. left. exact Hcache.
Qed.

Lemma generateClassName_not_empty (env : Env) (f : FinalOptions) :
  generateClassName env f <> "".
Proof.
  unfold generateClassName, Utils.generateClassName.
  destruct (f_className f) as [c|].
  - destruct (Parser.truthy c) eqn:Hc.
    + destruct (Parser.truthy (f_classNamePrefix f)) eqn:Hp.
      * destruct (f_classNamePrefix f); [discriminate Hp | discriminate].
      * destruct c; [discriminate Hc | discriminate].
    + destruct (f_classNamePrefix f); discriminate.
  - destruct (f_classNamePrefix f); discriminate.
Qed.

Lemma synchronous_config (m m' : StyleManager) :
  config m' = config m -> Spec.synchronous m' = Spec.synchronous m.
Proof. intros H. unfold Spec.synchronous. now rewrite H. Qed.

Lemma attempts_config (calls : list Spec.Call) (m m' : StyleManager) :
  config m' = config m -> Spec.attempts calls m' = Spec.attempts calls m.
Proof.
  intros H. induction calls as [|c rest IH]; [reflexivity|].
  cbn [Spec.attempts]. unfold Spec.compiled, finalOptionsOf in *. rewrite H, IH.
  reflexivity.
Qed.

(** One call against a failing sink, in a manager that has nothing cached
    and nothing injected. *)
Lemma createStyle_failing_step (env : Env) (styles : Parser.CSSProperties)
    (options : option CSSOptions) (m : StyleManager) :
  Spec.failing env ->
  Spec.synchronous m = true ->
  styleCache m = [] ->
  injectedRules m = [] ->
  let r := createStyle env styles options m in
  fst r = generateClassName env (finalOptionsOf m options) /\
  config (snd r) = config m /\
  styleCache (snd r) = [] /\
  injectedRules (snd r) = [] /\
  cacheMisses (stats (snd r)) = cacheMisses (stats m) + 1 /\
  sinkCalls (snd r) =
    (sinkCalls m ++
     if Parser.truthy (Spec.compiled env styles options m)
     then [Spec.compiled env styles options m] else [])%list.
Proof.
  intros Hfail Hsync Hcache Hrules. unfold Spec.compiled, createStyle.
  rewrite Hcache. cbv zeta.
  replace (if cacheEnabled m
           then mapGet (if cacheEnabled m
                        then createCacheKey styles
                               (Some (optionsObject (finalOptionsOf m options)))
                        else "")
                       (@nil (string * StyleCacheItem))
           else None)
    with (@None StyleCacheItem) by (destruct (cacheEnabled m); reflexivity).
  set (css := Parser.cssText _).
  destruct (Parser.truthy css) eqn:Hcss; cbn [negb].
  - pose proof (parseStyles_not_blank _ _ Hcss) as Htrim. fold css in Htrim.
    unfold injectCSS. rewrite Htrim. cbn [negb].
    cbn [withStats injectedRules]. rewrite Hrules. cbn [has existsb].
    assert (Hrefused : Parser.injectCSS env css = false).
    { unfold Parser.injectCSS. rewrite Htrim. apply Hfail. }
    unfold Spec.synchronous in Hsync. cbn [withStats config].
    destruct (insertionMode (config m)) as [[]|]; try discriminate Hsync;
      rewrite Hrefused; cbn; rewrite ?Hcache, ?Hrules; repeat split.
  - cbn. rewrite ?Hcache, ?Hrules, app_nil_r. repeat split.
Qed.

(** Every cached class name is a name that [createStyle] can return. *)
Definition namedEntries (m : StyleManager) : Prop :=
  Forall (fun entry => className (snd entry) <> "") (styleCache m).

(** In every insertion mode and whatever the sink answers, the name
    returned is not empty. *)
Lemma createStyle_name_not_empty (env : Env) (styles : Parser.CSSProperties)
    (options : option CSSOptions) (m : StyleManager) :
  namedEntries m ->
  let r := createStyle env styles options m in
  fst r <> "" /\ namedEntries (snd r).
Proof.
  intros Hinv. unfold namedEntries in *. unfold createStyle.
  pose proof (generateClassName_not_empty env (finalOptionsOf m options)) as Hname.
  destruct (if cacheEnabled m then mapGet _ (styleCache m) else None)
    as [item|] eqn:Hget.
  - assert (Hitem : className item <> "").
    { destruct (cacheEnabled m); [|discriminate].
      exact (mapGet_Forall (fun i => className i <> "") _ _ _ Hinv Hget). }
    cbn. split; [exact Hitem|].
    apply (mapSet_Forall (fun i => className i <> "")); [exact Hitem | exact Hinv].
  - destruct (negb _); [cbn; auto|].
    set (css := Parser.cssText _). set (m' := withStats _ m).
    pose proof (injectCSS_keeps env css m') as H. cbv zeta in H.
    destruct (injectCSS env css m') as [injected m'']. cbn [fst snd] in H.
    destruct H as (Hcache & _ & _).
    destruct (injected && cacheEnabled m''); cbn; rewrite Hcache; cbn.
    + split; [exact Hname|].
      apply (mapSet_Forall (fun i => className i <> "")); [exact Hname | exact Hinv].
    + split; [exact Hname | exact Hinv].
Qed.

Lemma run_names (calls : list Spec.Call) (m : StyleManager) :
  namedEntries m ->
  let r := Spec.run calls m in
  List.length (fst r) = List.length calls /\
  Forall (fun name => name <> "") (fst r).
Proof.
  revert m. induction calls as [|c rest IH]; intros m Hinv.
  - cbn. split; [reflexivity | constructor].
  - pose proof (createStyle_name_not_empty (Spec.callEnv c) (Spec.callStyles c)
                  (Spec.callOptions c) m Hinv) as Hstep.
    cbv zeta in Hstep. cbn [Spec.run].
    destruct (createStyle (Spec.callEnv c) (Spec.callStyles c) (Spec.callOptions c) m)
      as [name m1].
    cbn [fst snd] in Hstep. destruct Hstep as (Hname & Hinv1).
    specialize (IH m1 Hinv1). cbv zeta in IH.
    destruct (Spec.run rest m1) as [names m2]. cbn [fst snd] in IH |- *.
    destruct IH as (Hlen & Hnames). split.
    + cbn [List.length]. now rewrite Hlen.
    + constructor; assumption.
Qed.

Lemma run_failing (calls : list Spec.Call) (m : StyleManager) :
  Forall (fun c => Spec.failing (Spec.callEnv c)) calls ->
  Spec.synchronous m = true ->
  styleCache m = [] ->
  injectedRules m = [] ->
  let r := Spec.run calls m in
  config (snd r) = config m /\
  styleCache (snd r) = [] /\
  injectedRules (snd r) = [] /\
  cacheMisses (stats (snd r)) = cacheMisses (stats m) + Z.of_nat (List.length calls) /\
  sinkCalls (snd r) = (sinkCalls m ++ Spec.attempts calls m)%list.
Proof.
  revert m. induction calls as [|c rest IH]; intros m Hfail Hsync Hcache Hrules.
  - cbn. rewrite app_nil_r. repeat split; auto. lia.
  - inversion Hfail as [|? ? Hc Hrest]; subst.
    pose proof (createStyle_failing_step (Spec.callEnv c) (Spec.callStyles c)
                  (Spec.callOptions c) m Hc Hsync Hcache Hrules) as Hstep.
    cbv zeta in Hstep. cbn [Spec.run].
    destruct (createStyle (Spec.callEnv c) (Spec.callStyles c) (Spec.callOptions c) m)
      as [name m1].
    cbn [fst snd] in Hstep.
    destruct Hstep as (Hname & Hconfig & Hcache1 & Hrules1 & Hmisses & Hsink).
    assert (Hsync1 : Spec.synchronous m1 = true).
    { rewrite (synchronous_config m m1 Hconfig). exact Hsync. }
    specialize (IH m1 Hrest Hsync1 Hcache1 Hrules1). cbv zeta in IH.
    destruct (Spec.run rest m1) as [names m2]. cbn [fst snd] in IH |- *.
    destruct IH as (Hconfig2 & Hcache2 & Hrules2 & Hmisses2 & Hsink2).
    rewrite (attempts_config rest m m1 Hconfig) in Hsink2.
    repeat split.
    + congruence.
    + exact Hcache2.
    + exact Hrules2.
    + rewrite Hmisses2, Hmisses. cbn [List.length]. lia.
    + rewrite Hsink2, Hsink. cbn [Spec.attempts]. now rewrite <- app_assoc.
Qed.

(** C6, as stated, fails outside the synchronous mode: in the [async]
    mode [injectCSS] reports success before the sink has been tried, so
    with a sink that refuses everything the style is cached all the same,
    and the second call is a hit that retries nothing. *)
Lemma createStyle_async_caches_unconfirmed :
  let m := configure Spec.asyncMode (create Spec.env1) in
  let r1 := createStyle Spec.envFailing Spec.blue None m in
  let r2 := createStyle Spec.envFailing Spec.blue None (snd r1) in
  Spec.failing Spec.envFailing /\
  styleCache m = [] /\
  mapSize (styleCache (snd r1)) = 1 /\
  cacheHits (stats (snd r2)) = 1 /\
  Spec.materializations (snd r2) = 1%nat.
Proof.
  cbv zeta. split; [intros t; reflexivity|]. repeat split.
Qed.

(** C6, amended: from a manager with nothing cached and nothing injected,
    if the sink fails every materialization then every [createStyle] call
    of a run returns a name that is not empty, in every insertion mode
    (the call is a total function: nothing is raised); in the synchronous
    insertion mode (the default) the style cache moreover stays empty,
    every call is a miss, and every call hands its compiled text to the
    sink again. *)
Theorem createStyle_failing_sink (calls : list Spec.Call) (m : StyleManager) :
  Forall (fun c => Spec.failing (Spec.callEnv c)) calls ->
  styleCache m = [] ->
  injectedRules m = [] ->
  let r := Spec.run calls m in
  List.length (fst r) = List.length calls /\
  Forall (fun name => name <> "") (fst r) /\
  (Spec.synchronous m = true ->
   styleCache (snd r) = [] /\
   cacheMisses (stats (snd r)) = cacheMisses (stats m) + Z.of_nat (List.length calls) /\
   sinkCalls (snd r) = (sinkCalls m ++ Spec.attempts calls m)%list).
Proof.
  intros Hfail Hcache Hrules.
  assert (Hinv : namedEntries m) by (unfold namedEntries; rewrite Hcache; constructor).
  destruct (run_names calls m Hinv) as (Hlen & Hnames).
  cbv zeta. split; [exact Hlen|]. split; [exact Hnames|].
  intros Hsync.
  destruct (run_failing calls m Hfail Hsync Hcache Hrules)
    as (_ & Hcache' & _ & Hmisses & Hsink).
  repeat split; assumption.
Qed.

Lemma createStyle_failing_sink_witness :
  let first := {| Spec.callEnv := Spec.envFailing; Spec.callStyles := Spec.blue;
                  Spec.callOptions := None |} in
  let second := {| Spec.callEnv := Spec.envFailingAgain; Spec.callStyles := Spec.blue;
                   Spec.callOptions := None |} in
  let r := Spec.run [first; second] (create Spec.env1) in
  fst r = ["css-a1b2c3d43v28"; "css-x9y8z7w63v2d"] /\
  styleCache (snd r) = [] /\
  cacheMisses (stats (snd r)) = 2 /\
  List.length (sinkCalls (snd r)) = 2%nat.
Proof.
  intros first second.
  assert (Hfail : Forall (fun c => Spec.failing (Spec.callEnv c)) [first; second]).
  { repeat (constructor; [intros t; reflexivity|]). constructor. }
  pose proof (createStyle_failing_sink [first; second] (create Spec.env1)
                Hfail eq_refl eq_refl) as H.
  cbv zeta in H. destruct H as (_ & _ & H).
  destruct (H eq_refl) as (Hcache & Hmisses & Hsink).
  split; [reflexivity|]. split; [exact Hcache|]. split.
  - rewrite Hmisses. reflexivity.
  - rewrite Hsink. reflexivity.
Defined.

(** ** [hasStyle] *)

(** On a miss the name returned is the one generated for the call. *)
Lemma createStyle_miss_name (env : Env) (styles : Parser.CSSProperties)
    (options : option CSSOptions) (m : StyleManager) :
  mapGet (Spec.styleKey styles options m) (styleCache m) = None ->
  fst (createStyle env styles options m) = generateClassName env (finalOptionsOf m options).
Proof.
  intros Hget. unfold Spec.styleKey in Hget. unfold createStyle.
  destruct (cacheEnabled m); [rewrite Hget|];
    (destruct (negb _); [reflexivity|]; destruct (injectCSS _ _ _); reflexivity).
Qed.

Lemma prefix_append (p s : string) : String.prefix p (p ++ s) = true.
Proof.
  induction p as [|a p IH]; cbn.
  - destruct s; reflexivity.
  - destruct (ascii_dec a a); [exact IH | contradiction].
Qed.

(** The keyframe pair uses one fingerprint on both sides: what
    [createKeyframes] has cached, [hasAnimation] finds. *)
Lemma hasAnimation_finds_created_keyframes (env : Env)
    (keyframes : Parser.KeyframesDefinition) (source : option string) (m : StyleManager) :
  cacheEnabled m = true ->
  domAccepts env
    (Parser.generateKeyframesRule (generateAnimationName env (Some "anim")) keyframes)
  = true ->
  hasAnimation keyframes (snd (createKeyframes env keyframes source m)) = true.
Proof.
  intros Hon Hdom. unfold hasAnimation, createKeyframes. rewrite Hon.
  set (key := createCacheKey (keyframesObject keyframes) None).
  set (css := Parser.generateKeyframesRule _ keyframes) in *.
  assert (Hink : Spec.hasInk css = true) by reflexivity.
  destruct (mapGet key (animationCache m)) as [item|] eqn:Hget.
  - cbn [snd].
    replace (cacheEnabled (withStats _ _)) with true by (symmetry; exact Hon).
    cbn. unfold mapHas. now rewrite mapGet_mapSet.
  - rewrite (hasInk_truthy css Hink). cbn [negb].
    assert (Hacc : Parser.injectCSS env css = true).
    { unfold Parser.injectCSS. now rewrite (hasInk_not_blank css Hink). }
    set (m' := withStats _ m).
    pose proof (injectCSS_accepts env css m' Hacc) as H.
    pose proof (injectCSS_keeps_animations env css m') as Hanim.
    cbv zeta in H, Hanim.
    destruct (injectCSS env css m') as [injected m'']. cbn [fst snd] in H, Hanim.
    destruct H as (-> & _ & Hconfig & _).
    assert (Hon' : cacheEnabled m'' = true).
    { rewrite (cacheEnabled_config m' m'' Hconfig). exact Hon. }
    rewrite Hon'. cbn [andb snd].
    replace (cacheEnabled (withCleanupArmed _ _)) with true by (symmetry; exact Hon').
    cbn. rewrite Hanim. unfold mapHas. now rewrite mapGet_mapSet.
Qed.

Lemma blue_key_with_options (env0 : Env) :
  Spec.styleKey Spec.blue None (configure Spec.prefixT (create env0)) = "rqdo8t".
Proof. reflexivity. Qed.

Lemma blue_key_without_options : createCacheKey Spec.blue None = "snxwu5".
Proof. reflexivity. Qed.

(** C2 on the code: after [configure({classNamePrefix: 't'})],
    [createStyle({color: 'blue'})] returns a name that starts with [t-]
    and, when the sink takes the text, files it under the fingerprint of
    the description together with the resolved options; [hasStyle] looks
    under the fingerprint of the description alone, finds nothing, and
    answers false, before [clearCache] as well as after it. *)
Theorem hasStyle_misses_created_style (env0 env : Env) :
  let m := configure Spec.prefixT (create env0) in
  let r := createStyle env Spec.blue None m in
  startsWith (fst r) "t-" = true /\
  Spec.styleKey Spec.blue None m = "rqdo8t" /\
  createCacheKey Spec.blue None = "snxwu5" /\
  mapHas "rqdo8t" (styleCache (snd (createStyle Spec.env1 Spec.blue None m))) = true /\
  hasStyle Spec.blue (snd r) = false /\
  hasStyle Spec.blue (clearCache (snd r)) = false.
Proof.
  intros m r. split.
  { unfold r. rewrite createStyle_miss_name by reflexivity.
    exact (prefix_append "t-" (randomStr env ++ sliceLast 4 (toStringRadix 36 (now env)))). }
  split; [reflexivity|]. split; [reflexivity|]. split; [reflexivity|].
  destruct (createStyle_cache env Spec.blue None m) as (Hconfig & Hshape).
  fold r in Hconfig, Hshape.
  assert (Hon : cacheEnabled (snd r) = true).
  { rewrite (cacheEnabled_config m (snd r) Hconfig). reflexivity. }
  split.
  - unfold hasStyle. rewrite Hon. cbn [negb]. rewrite blue_key_without_options.
    destruct Hshape as [-> | (item & ->)]; reflexivity.
  - unfold hasStyle.
    rewrite (cacheEnabled_config (snd r) (clearCache (snd r)) (clearCache_config _)), Hon.
    reflexivity.
Qed.

(** * Further properties *)

(** ** Names *)

Lemma code_chr (z : Z) : 0 <= z < 256 -> code (chr z) = z.
Proof.
  intros Hz. unfold code, chr. rewrite nat_ascii_embedding; lia.
Qed.

Lemma code_bound (c : ascii) : 0 <= code c < 256.
Proof.
  unfold code. pose proof (nat_ascii_bounded c). lia.
Qed.

Lemma chr_code (c : ascii) : chr (code c) = c.
Proof.
  unfold code, chr. rewrite Nat2Z.id. apply ascii_nat_embedding.
Qed.

Lemma lowerChar_not_upper (c : ascii) : isUpper (lowerChar c) = false.
Proof.
  unfold lowerChar. pose proof (code_bound c) as Hb.
  destruct (isUpper c || isLatin1Capital c) eqn:Hc.
  - unfold isUpper, isLatin1Capital in *. rewrite code_chr by lia. lia.
  - apply orb_false_iff in Hc as [Hc _]. exact Hc.
Qed.

Lemma lowerChar_of_upper (c : ascii) :
  isUpper c = true -> isLower (lowerChar c) = true /\ upperChar (lowerChar c) = c.
Proof.
  intros Hc. unfold lowerChar. rewrite Hc. cbn [orb].
  unfold isUpper in Hc. pose proof (code_bound c).
  assert (Hlow : isLower (chr (code c + 32)) = true).
  { unfold isLower. rewrite code_chr by lia. lia. }
  split; [exact Hlow|].
  unfold upperChar. rewrite Hlow. rewrite code_chr by lia.
  replace (code c + 32 - 32) with (code c) by lia. apply chr_code.
Qed.

Lemma lowerChar_fixed (c : ascii) :
  Notions.isAscii c = true -> isUpper c = false -> lowerChar c = c.
Proof.
  intros Hascii Hc. unfold lowerChar. rewrite Hc.
  replace (isLatin1Capital c) with false; [reflexivity|].
  unfold Notions.isAscii, isLatin1Capital in *. lia.
Qed.

Lemma lower_or_digit_not_upper (c : ascii) :
  isLower c || isDigit c = true -> isUpper c = false.
Proof. unfold isLower, isDigit, isUpper. lia. Qed.

(** The regular expression of [kebabCase] puts a hyphen before every
    upper-case letter, whichever of its two alternatives matches. *)
Lemma hyphenate_dashed (s : string) : hyphenate s = Notions.dashed s.
Proof.
  enough (H : hyphenate s = Notions.dashed s /\
              forall c, hyphenate (String c s) = Notions.dashed (String c s)) by apply H.
  induction s as [|a r [IH1 IH2]].
  - split; [reflexivity|]. intros c. cbn. destruct (isUpper c); reflexivity.
  - split; [apply IH2|]. intros c.
    change (hyphenate (String c (String a r))) with
      (if (isLower c || isDigit c) && isUpper a
       then String c (String "-" (String a (hyphenate r)))
       else if isUpper c then String "-" (String c (hyphenate (String a r)))
            else String c (hyphenate (String a r))).
    rewrite IH1, IH2. cbn [Notions.dashed].
    destruct (isLower c || isDigit c) eqn:Hc; cbn [andb].
    + rewrite (lower_or_digit_not_upper c Hc). destruct (isUpper a); reflexivity.
    + reflexivity.
Qed.

Lemma allChars_mapString (test : ascii -> bool) (f : ascii -> ascii) (s : string) :
  (forall c, test (f c) = true) -> Notions.allChars test (mapString f s) = true.
Proof.
  intros H. induction s as [|c r IH]; [reflexivity|].
  cbn. now rewrite H, IH.
Qed.

(** X1: the name that [kebabCase] returns has no letter from A to Z
    left, whatever the input. *)
Theorem kebabCase_has_no_upper_case (str : string) :
  Notions.allChars Notions.notUpper (kebabCase str) = true.
Proof.
  unfold kebabCase, toLowerCase. apply allChars_mapString.
  intros c. unfold Notions.notUpper. now rewrite lowerChar_not_upper.
Qed.

Lemma dashed_empty (s : string) : Notions.dashed s = "" -> s = "".
Proof.
  destruct s as [|c r]; [reflexivity|]. cbn. destruct (isUpper c); discriminate.
Qed.

Lemma mapString_empty (f : ascii -> ascii) (s : string) : mapString f s = "" -> s = "".
Proof. destruct s; [reflexivity | discriminate]. Qed.

(** X2: [camelCase] undoes [kebabCase] on every name made of code units
    below 128 that has no hyphen of its own: the name that [addUnit] looks
    up for [kebabCase p] is [p] again. *)
Theorem camelCase_kebabCase (str : string) :
  Notions.allChars Notions.isAscii str = true ->
  Notions.allChars Notions.notHyphen str = true ->
  camelCase (kebabCase str) = str.
Proof.
  intros Hascii Hhyphen. unfold kebabCase, toLowerCase. rewrite hyphenate_dashed.
  induction str as [|c r IH]; [reflexivity|].
  cbn [Notions.allChars] in Hascii, Hhyphen.
  apply andb_prop in Hascii as [Hplain Hplains].
  apply andb_prop in Hhyphen as [Hc Hr].
  specialize (IH Hplains Hr). cbn [Notions.dashed].
  destruct (isUpper c) eqn:Hup.
  - destruct (lowerChar_of_upper c Hup) as [Hlow Hback].
    cbn [mapString].
    change (camelCase (String (lowerChar "-")
                         (String (lowerChar c) (mapString lowerChar (Notions.dashed r)))))
      with (if (code (lowerChar "-") =? 45) && isLower (lowerChar c)
            then String (upperChar (lowerChar c))
                        (camelCase (mapString lowerChar (Notions.dashed r)))
            else String (lowerChar "-")
                        (camelCase (String (lowerChar c)
                                      (mapString lowerChar (Notions.dashed r))))).
    rewrite Hlow, Hback, IH. reflexivity.
  - cbn [mapString]. rewrite (lowerChar_fixed c Hplain Hup).
    destruct (mapString lowerChar (Notions.dashed r)) as [|b t] eqn:Ht.
    + apply mapString_empty, dashed_empty in Ht. subst r. reflexivity.
    + change (camelCase (String c (String b t))) with
        (if (code c =? 45) && isLower b
         then String (upperChar b) (camelCase t)
         else String c (camelCase (String b t))).
      unfold Notions.notHyphen in Hc. apply negb_true_iff in Hc. rewrite Hc.
      cbn [andb]. now rewrite IH.
Qed.

Lemma camelCase_kebabCase_witness :
  camelCase (kebabCase "borderTopLeftRadius") = "borderTopLeftRadius".
Proof.
  exact (camelCase_kebabCase "borderTopLeftRadius" eq_refl eq_refl).
Defined.

(** ** Units *)

(** X3: the unit tables hold under both spellings. Every name of the
    unitless table, camel-cased or hyphenated, keeps a finite number as it
    is; every name of the pixel table other than [lineHeight] (which is in
    both tables and stays unitless) gets [px], camel-cased or hyphenated. *)
Theorem addUnit_follows_tables (m : Z) (k : nat) :
  let n := numberToString (Finite m k) in
  Forall (fun p =>
            addUnit p (VNumber (Finite m k)) = n /\
            addUnit (kebabCase p) (VNumber (Finite m k)) = n)
         UNITLESS_PROPERTIES /\
  Forall (fun p =>
            p = "lineHeight" \/
            (addUnit p (VNumber (Finite m k)) = n ++ "px" /\
             addUnit (kebabCase p) (VNumber (Finite m k)) = n ++ "px"))
         PIXEL_PROPERTIES.
Proof.
  cbv zeta. split.
  - repeat constructor; rewrite addUnit_number; reflexivity.
  - repeat (constructor;
            [first [right; split; rewrite addUnit_number; reflexivity
                   |left; reflexivity]|]).
    constructor.
Qed.

(** ** Fingerprints *)

Lemma toInt32_range (z : Z) : - 2 ^ 31 <= toInt32 z < 2 ^ 31.
Proof.
  unfold toInt32. pose proof (Z.mod_pos_bound z (2 ^ 32) ltac:(lia)).
  destruct (z mod 2 ^ 32 <? 2 ^ 31) eqn:E; lia.
Qed.

Lemma hashLoop_range (str : string) (hash : Z) :
  - 2 ^ 31 <= hash < 2 ^ 31 -> - 2 ^ 31 <= hashLoop hash str < 2 ^ 31.
Proof.
  revert hash. induction str as [|c r IH]; intros hash Hh; [exact Hh|].
  cbn [hashLoop]. apply IH. apply toInt32_range.
Qed.

Lemma digitChar_base36 (d : Z) : 0 <= d < 36 -> Notions.isBase36 (digitChar d) = true.
Proof.
  intros Hd. unfold Notions.isBase36, digitChar, isDigit, isLower.
  destruct (d <? 10) eqn:E; rewrite code_chr by lia; lia.
Qed.

Lemma digits_shape (fuel : nat) (n : Z) (acc : string) (k : nat) :
  0 <= n < 36 ^ Z.of_nat (S k) ->
  Notions.allChars Notions.isBase36 acc = true ->
  let text := digits 36 fuel n acc in
  (String.length text <= S k + String.length acc)%nat /\
  Notions.allChars Notions.isBase36 text = true.
Proof.
  revert n acc k. induction fuel as [|f IH]; intros n acc k Hn Hacc.
  - cbn. split; [lia | exact Hacc].
  - cbn [digits].
    assert (Hd : Notions.isBase36 (digitChar (n mod 36)) = true).
    { apply digitChar_base36. apply Z.mod_pos_bound. lia. }
    destruct (n / 36 =? 0) eqn:Hq.
    + cbn. rewrite Hd, Hacc. split; [lia | reflexivity].
    + destruct k as [|k'].
      * exfalso. apply Z.eqb_neq in Hq. apply Hq. apply Z.div_small.
        change (36 ^ Z.of_nat 1) with 36 in Hn. lia.
      * assert (Hn' : 0 <= n / 36 < 36 ^ Z.of_nat (S k')).
        { split; [apply Z.div_pos; lia|].
          apply Z.div_lt_upper_bound; [lia|].
          replace (Z.of_nat (S (S k'))) with (Z.succ (Z.of_nat (S k'))) in Hn by lia.
          rewrite Z.pow_succ_r in Hn by lia. lia. }
        specialize (IH (n / 36) (String (digitChar (n mod 36)) acc) k' Hn').
        cbn [Notions.allChars] in IH. rewrite Hd, Hacc in IH.
        destruct (IH eq_refl) as [Hlen Hall]. cbn [String.length] in Hlen.
        split; [lia | exact Hall].
Qed.

Lemma digits_grows (fuel : nat) (n : Z) (acc : string) :
  (String.length acc <= String.length (digits 36 fuel n acc))%nat.
Proof.
  revert n acc. induction fuel as [|f IH]; intros n acc; [cbn; lia|].
  cbn [digits]. destruct (n / 36 =? 0); [cbn; lia|].
  specialize (IH (n / 36) (String (digitChar (n mod 36)) acc)).
  cbn [String.length] in IH. lia.
Qed.

(** X4: a fingerprint is short: whatever the text, [hashString] returns
    between one and six characters, each a digit or a letter from a to z. *)
Theorem hashString_shape (str : string) :
  (1 <= String.length (hashString str) <= 6)%nat /\
  Notions.allChars Notions.isBase36 (hashString str) = true.
Proof.
  unfold hashString. destruct (String.length str =? 0)%nat; [cbn; split; [lia|reflexivity]|].
  pose proof (hashLoop_range str 0 ltac:(lia)) as Hh.
  set (h := Z.abs (hashLoop 0 str)).
  assert (Hn : 0 <= h < 36 ^ Z.of_nat 6).
  { change (36 ^ Z.of_nat 6) with 2176782336. unfold h. lia. }
  unfold toStringRadix.
  destruct (digits_shape (S (Z.to_nat (Z.log2 h))) h "" 5 Hn eq_refl) as [Hlen Hall].
  cbn [String.length] in Hlen. split; [split; [|lia] | exact Hall].
  cbn [digits]. destruct (h / 36 =? 0); [cbn; lia|].
  pose proof (digits_grows (Z.to_nat (Z.log2 h)) (h / 36)
                (String (digitChar (h mod 36)) "")) as Hgrows.
  cbn [String.length] in Hgrows. lia.
Qed.

(** ** The style compiler, in general *)

Lemma step_missing (recur : value -> option string -> string -> Parser.Parsed)
    (className : option string) (parentSelector key : string) (b : Parser.Block) :
  Parser.step recur className parentSelector b (key, VUndefined) = b /\
  Parser.step recur className parentSelector b (key, VNull) = b.
Proof. split; reflexivity. Qed.

(** X5: a property whose value is undefined or null is skipped wherever
    it stands: the description compiles as if the property were absent. *)
Theorem parseStyleObject_skips_missing_values (before after : object) (key : string)
    (className : option string) (parentSelector : string) :
  Parser.parseStyleObject (VObject (before ++ (key, VUndefined) :: after)) className
    parentSelector
  = Parser.parseStyleObject (VObject (before ++ after)) className parentSelector /\
  Parser.parseStyleObject (VObject (before ++ (key, VNull) :: after)) className
    parentSelector
  = Parser.parseStyleObject (VObject (before ++ after)) className parentSelector.
Proof.
  cbn [Parser.parseStyleObject]. rewrite !fold_left_app. cbn [fold_left].
  split; reflexivity.
Qed.

Lemma append_not_empty (a : string) (c : ascii) (b : string) : a ++ String c b <> "".
Proof. destruct a; discriminate. Qed.

Lemma pushNested_coherent (wrap : string -> string) (r : Parser.Parsed) (b : Parser.Block) :
  (forall t, Spec.hasInk t = true -> Spec.hasInk (wrap t) = true) ->
  inked r -> Notions.coherent r -> Notions.coherentBlock b ->
  Notions.coherentBlock (Parser.pushNested wrap r b).
Proof.
  intros Hwrap Hink (Hpos & Hzero & _) (Hrules & Hcount & Hiff & Hflag).
  unfold Parser.pushNested.
  destruct (Parser.truthy (Parser.text r)) eqn:Ht; [|repeat split; tauto].
  apply truthy_true in Ht.
  assert (Hr : 0 < Parser.count r).
  { destruct (Z.eq_dec (Parser.count r) 0) as [E|E]; [|lia].
    apply Hzero in E. contradiction. }
  unfold Notions.coherentBlock. cbn. split; [|split; [lia|split; [split|]]].
  - apply Forall_app. split; [exact Hrules|].
    constructor; [|constructor]. apply Hwrap. destruct Hink; [contradiction | assumption].
  - intros E. lia.
  - intros [_ E]. destruct (Parser.nestedRules b); discriminate.
  - intros _ E. destruct (Parser.nestedRules b); discriminate.
Qed.

Lemma step_coherent (recur : value -> option string -> string -> Parser.Parsed)
    (className : option string) (parentSelector : string)
    (b : Parser.Block) (entry : string * value) :
  (forall cn ps, inked (recur (snd entry) cn ps) /\ Notions.coherent (recur (snd entry) cn ps)) ->
  Notions.coherentBlock b ->
  Notions.coherentBlock (Parser.step recur className parentSelector b entry).
Proof.
  intros Hrec Hb. destruct entry as [property v]. cbn [snd] in Hrec.
  unfold Parser.step.
  assert (Hid : forall t, Spec.hasInk t = true -> Spec.hasInk ((fun t => t) t) = true)
    by auto.
  assert (Hat : forall t, Spec.hasInk t = true ->
                Spec.hasInk ((fun t => property ++ " {" ++ nl ++ t ++ nl ++ "}") t) = true).
  { intros t _. cbv beta. rewrite hasInk_append.
    change (Spec.hasInk (" {" ++ nl ++ t ++ nl ++ "}")) with true.
    apply orb_true_r. }
  assert (Hplain : Notions.coherentBlock
                     {| Parser.declarations :=
                          Parser.declarations b ++ [Parser.declaration "  " property v];
                        Parser.nestedRules := Parser.nestedRules b;
                        Parser.blockCount := Parser.blockCount b + 1;
                        Parser.blockNested := Parser.blockNested b |}).
  { destruct Hb as (Hrules & Hcount & Hiff & Hflag).
    unfold Notions.coherentBlock. cbn.
    split; [exact Hrules | split; [lia | split; [split | exact Hflag]]].
    - intros E. lia.
    - intros [E _]. destruct (Parser.declarations b); discriminate. }
  destruct v; try exact Hb;
    (destruct (startsWith property "&");
     [apply pushNested_coherent; auto; apply Hrec
     |destruct (startsWith property "@");
      [apply pushNested_coherent; auto; apply Hrec
      |cbn [isObject]; try exact Hplain;
       try (apply pushNested_coherent; auto; apply Hrec)]]).
Qed.

Lemma fold_step_coherent (recur : value -> option string -> string -> Parser.Parsed)
    (className : option string) (parentSelector : string)
    (props : object) (b : Parser.Block) :
  Forall (fun entry => forall cn ps,
            inked (recur (snd entry) cn ps) /\ Notions.coherent (recur (snd entry) cn ps))
         props ->
  Notions.coherentBlock b ->
  Notions.coherentBlock (fold_left (Parser.step recur className parentSelector) props b).
Proof.
  intros Hall. revert b. induction Hall as [|entry rest He Hrest IH]; intros b Hb.
  - exact Hb.
  - cbn [fold_left]. apply IH. now apply step_coherent.
Qed.

Lemma join_not_empty (sep : string) (l : list string) :
  l <> [] -> Forall (fun r => Spec.hasInk r = true) l -> join sep l <> "".
Proof.
  intros Hne Hall. apply truthy_true, hasInk_truthy. now apply hasInk_join.
Qed.

Lemma string_app_assoc (a b c : string) : (a ++ b) ++ c = a ++ b ++ c.
Proof. induction a as [|x a IH]; [reflexivity|]. cbn. now rewrite IH. Qed.

Lemma assemble_text_empty (baseSelector : string) (b : Parser.Block) :
  Forall (fun r => Spec.hasInk r = true) (Parser.nestedRules b) ->
  (Parser.text (Parser.assemble baseSelector b) = "" <->
   Parser.declarations b = [] /\ Parser.nestedRules b = []).
Proof.
  intros Hrules. unfold Parser.assemble. cbn [Parser.text].
  destruct (Parser.declarations b) as [|d ds].
  - destruct (Parser.nestedRules b) as [|r rs].
    + split; auto.
    + assert (Hj : join nl (r :: rs) <> "")
        by (apply join_not_empty; [discriminate | exact Hrules]).
      change ((if Parser.truthy "" then "" ++ nl else "") ++ join nl (r :: rs))
        with (join nl (r :: rs)).
      split; [intros E; contradiction | intros [_ E]; discriminate].
  - set (own := baseSelector ++ " {" ++ nl ++ join nl (d :: ds) ++ nl ++ "}").
    assert (Hown : forall rest, own ++ rest <> "").
    { intros rest. unfold own. destruct baseSelector; discriminate. }
    split; [|intros [E _]; discriminate].
    destruct (Parser.nestedRules b).
    + intros E. exfalso. apply (Hown ""). destruct own; [reflexivity | discriminate E].
    + destruct (Parser.truthy own).
      * rewrite string_app_assoc. intros E. exfalso. exact (Hown _ E).
      * intros E. exfalso. exact (Hown _ E).
Qed.

Lemma assemble_coherent (baseSelector : string) (b : Parser.Block) :
  Notions.coherentBlock b -> Notions.coherent (Parser.assemble baseSelector b).
Proof.
  intros (Hrules & Hcount & Hiff & Hflag).
  pose proof (assemble_text_empty baseSelector b Hrules) as Htext.
  unfold Notions.coherent.
  change (Parser.count (Parser.assemble baseSelector b)) with (Parser.blockCount b).
  change (Parser.nested (Parser.assemble baseSelector b)) with (Parser.blockNested b).
  split; [exact Hcount|]. split.
  - rewrite Htext. symmetry. exact Hiff.
  - intros Hf E. apply Hflag in Hf. apply Htext in E. destruct E. contradiction.
Qed.

Lemma parseStyleObject_coherent (v : value) :
  forall className parentSelector,
    Notions.coherent (Parser.parseStyleObject v className parentSelector).
Proof.
  assert (Hempty : Notions.coherentBlock Parser.emptyBlock).
  { unfold Notions.coherentBlock. cbn.
    split; [constructor | split; [lia | split; [split; auto | discriminate]]]. }
  induction v using value_induction; intros className parentSelector;
    cbn [Parser.parseStyleObject]; apply assemble_coherent, fold_step_coherent;
    try exact Hempty.
  1-4: constructor.
  - induction (entries (VString s)) as [|entry rest IH]; constructor; auto.
    intros cn ps. split.
    + left. reflexivity.
    + unfold Notions.coherent. cbn.
      split; [lia | split; [split; auto | discriminate]].
  - induction H as [|entry rest He Hrest IH]; constructor; [|exact IH].
    intros cn ps. split; [apply parseStyleObject_inked | apply He].
Qed.

(** X6: the figures that [parseStyles] reports agree with its text: the
    property count is zero exactly when the text is empty, it is never
    negative, and nested rules are reported only with text. *)
Theorem parseStyles_reports_agree (styles : Parser.CSSProperties)
    (className : option string) :
  let r := Parser.parseStyles styles className in
  0 <= Parser.propertyCount r /\
  (Parser.cssText r = "" <-> Parser.propertyCount r = 0) /\
  (Parser.hasNestedRules r = true -> Parser.cssText r <> "").
Proof.
  destruct (parseStyleObject_coherent (VObject styles) className "")
    as (Hpos & Hzero & Hflag).
  unfold Parser.parseStyles.
  cbn [Parser.cssText Parser.propertyCount Parser.hasNestedRules].
  destruct (Parser.truthy (Parser.text _)) eqn:Ht; cbn [join].
  - split; [exact Hpos | split; [exact Hzero | exact Hflag]].
  - split; [lia | split; [split; auto | discriminate]].
Qed.

Lemma at_not_modifier (property : string) :
  startsWith property "@" = true -> startsWith property "&" = false.
Proof.
  unfold startsWith. destruct property as [|c r]; [discriminate|].
  cbn [String.prefix]. destruct (ascii_dec "@" c) as [E|E]; [|discriminate].
  subst c. intros _. reflexivity.
Qed.

Lemma single_nested (wrap : string -> string) (baseSelector : string) (r : Parser.Parsed) :
  Parser.text (Parser.assemble baseSelector (Parser.pushNested wrap r Parser.emptyBlock))
  = if Parser.truthy (Parser.text r) then wrap (Parser.text r) else "".
Proof.
  unfold Parser.pushNested. destruct (Parser.truthy (Parser.text r)); reflexivity.
Qed.

(** X7: an at-rule key wraps what its value compiles to against the same
    root, and a descendant key compiles its value against the root
    followed by a space and the key; when the value compiles to nothing,
    nothing is emitted. This holds for every key and every value. *)
Theorem parseStyleObject_wraps_and_descends (key : string) (inner : value)
    (className : option string) (parentSelector : string) :
  (startsWith key "@" = true ->
   Parser.text (Parser.parseStyleObject (VObject [(key, inner)]) className parentSelector)
   = let t := Parser.text (Parser.parseStyleObject inner className parentSelector) in
     if Parser.truthy t then key ++ " {" ++ nl ++ t ++ nl ++ "}" else "") /\
  (startsWith key "&" = false -> startsWith key "@" = false -> isObject inner = true ->
   Parser.text (Parser.parseStyleObject (VObject [(key, inner)]) className parentSelector)
   = Parser.text
       (Parser.parseStyleObject inner None
          (Parser.selectorOf className parentSelector ++ " " ++ key))).
Proof.
  split.
  - intros Hat. pose proof (at_not_modifier key Hat) as Hmod.
    cbn [Parser.parseStyleObject fold_left]. unfold Parser.step.
    rewrite Hmod, Hat. cbv zeta.
    destruct inner; try reflexivity; rewrite single_nested; reflexivity.
  - intros Hmod Hat Hobj. destruct inner; try discriminate Hobj.
    cbn [Parser.parseStyleObject fold_left]. unfold Parser.step at 1.
    rewrite Hmod, Hat. cbn [isObject]. rewrite single_nested.
    cbn [Parser.parseStyleObject].
    destruct (Parser.truthy _) eqn:Ht; [reflexivity|].
    destruct (Parser.text _); [reflexivity | discriminate Ht].
Qed.

Lemma parseStyleObject_wraps_and_descends_witness :
  Parser.text
    (Parser.parseStyleObject
       (VObject [("@media (max-width: 768px)", VObject [("padding", VNumber (ofZ 4))])])
       (Some "x") "")
  = "@media (max-width: 768px) {" ++ nl ++ ".x {" ++ nl ++ "  padding: 4px;" ++ nl ++ "}"
    ++ nl ++ "}" /\
  Parser.text
    (Parser.parseStyleObject
       (VObject [("span", VObject [("color", VString "red")])]) (Some "x") "")
  = ".x span {" ++ nl ++ "  color: red;" ++ nl ++ "}".
Proof.
  split.
  - rewrite (proj1 (parseStyleObject_wraps_and_descends "@media (max-width: 768px)"
                      (VObject [("padding", VNumber (ofZ 4))]) (Some "x") "") eq_refl).
    reflexivity.
  - rewrite (proj2 (parseStyleObject_wraps_and_descends "span"
                      (VObject [("color", VString "red")]) (Some "x") "")
               eq_refl eq_refl eq_refl).
    reflexivity.
Defined.

(** *** Modifiers and escaped class names *)

Lemma getSubstitution_plain (matched before after : string) (c : ascii) (r : string) :
  (code c =? 36) = false ->
  getSubstitution matched before after (String c r)
  = String c (getSubstitution matched before after r).
Proof.
  destruct c as [[] [] [] [] [] [] [] []]; intros H; try reflexivity.
  vm_compute in H. discriminate H.
Qed.

Lemma getSubstitution_dollar (matched before after : string) (d : ascii) (r : string) :
  Notions.startsPattern d = false ->
  getSubstitution matched before after (String "$" (String d r))
  = String "$" (getSubstitution matched before after (String d r)).
Proof.
  destruct d as [[] [] [] [] [] [] [] []]; intros H; try reflexivity;
    vm_compute in H; discriminate H.
Qed.

Lemma pattern_is_special (c : ascii) :
  isSpecial c = false -> Notions.startsPattern c = false.
Proof.
  destruct c as [[] [] [] [] [] [] [] []]; intros H; try reflexivity;
    vm_compute in H; discriminate H.
Qed.

Lemma dollar_of_code (c : ascii) : (code c =? 36) = true -> c = "$"%char.
Proof.
  intros H. apply Z.eqb_eq in H. rewrite <- (chr_code c), H. reflexivity.
Qed.

Lemma escapeSelector_head_safe (s : string) : Notions.headSafe (escapeSelector s) = true.
Proof.
  destruct s as [|c r]; [reflexivity|]. cbn [escapeSelector].
  destruct (isSpecial c) eqn:Hc; [reflexivity|].
  cbn. now rewrite (pattern_is_special c Hc).
Qed.

(** No replacement pattern survives escaping: used as the replacement of
    [String.prototype.replace], an escaped selector stands for itself. *)
Lemma getSubstitution_escaped (matched before after s : string) :
  getSubstitution matched before after (escapeSelector s) = escapeSelector s.
Proof.
  induction s as [|c r IH]; [reflexivity|]. cbn [escapeSelector].
  assert (Hrest : forall x, (code x =? 36) = true \/ (code x =? 36) = false ->
                  getSubstitution matched before after (String x (escapeSelector r))
                  = String x (escapeSelector r)).
  { intros x [Hx | Hx].
    - apply dollar_of_code in Hx. subst x.
      pose proof (escapeSelector_head_safe r) as Hsafe.
      destruct (escapeSelector r) as [|d t] eqn:Hr; [reflexivity|].
      cbn in Hsafe. apply negb_true_iff in Hsafe.
      rewrite getSubstitution_dollar by exact Hsafe. now rewrite IH.
    - rewrite getSubstitution_plain by exact Hx. now rewrite IH. }
  destruct (isSpecial c).
  - rewrite getSubstitution_plain by reflexivity. f_equal.
    apply Hrest. destruct (code c =? 36); auto.
  - apply Hrest. destruct (code c =? 36); auto.
Qed.

Lemma truthy_false (s : string) : Parser.truthy s = false -> s = "".
Proof. destruct s; [reflexivity | discriminate]. Qed.

Lemma if_truthy_self (t : string) : (if Parser.truthy t then t else "") = t.
Proof. destruct t; reflexivity. Qed.

Lemma prefix_empty (s : string) : String.prefix "" s = true.
Proof. destruct s; reflexivity. Qed.

(** X8: a modifier key [&rest] under a class name compiles its value
    against the escaped class selector followed by [rest], for every class
    name, every [rest] and every value: the special characters of a class
    name, the dollar among them, never act as replacement patterns. *)
Theorem parseStyleObject_modifier_of_class (cn rest : string) (inner : value)
    (parentSelector : string) :
  Parser.truthy cn = true ->
  Parser.text
    (Parser.parseStyleObject (VObject [(String "&" rest, inner)]) (Some cn) parentSelector)
  = Parser.text
      (Parser.parseStyleObject inner None ("." ++ escapeSelector cn ++ rest)).
Proof.
  intros Hcn.
  assert (Hsel : replace (String "&" rest) "&" ("." ++ escapeSelector cn)
                 = "." ++ escapeSelector cn ++ rest).
  { unfold replace. cbn [replaceFrom String.prefix].
    destruct (ascii_dec "&" "&") as [_|E]; [|contradiction].
    rewrite prefix_empty. cbn [String.length skipn rev append].
    change ("." ++ escapeSelector cn) with (String "." (escapeSelector cn)).
    rewrite getSubstitution_plain by reflexivity.
    rewrite getSubstitution_escaped. reflexivity. }
  assert (Hbase : Parser.selectorOf (Some cn) parentSelector = "." ++ escapeSelector cn).
  { unfold Parser.selectorOf. now rewrite Hcn. }
  cbn [Parser.parseStyleObject fold_left]. unfold Parser.step at 1.
  unfold startsWith. cbn [String.prefix].
  destruct (ascii_dec "&" "&") as [_|E]; [|contradiction].
  rewrite prefix_empty, !Hbase, Hsel.
  destruct inner; try reflexivity; rewrite single_nested; apply if_truthy_self.
Qed.

Lemma parseStyleObject_modifier_of_class_witness :
  Parser.text
    (Parser.parseStyleObject
       (VObject [("&:hover", VObject [("color", VString "red")])]) (Some "a$&b") "")
  = ".a\$\&b:hover {" ++ nl ++ "  color: red;" ++ nl ++ "}".
Proof.
  rewrite (parseStyleObject_modifier_of_class "a$&b" ":hover"
             (VObject [("color", VString "red")]) "" eq_refl).
  reflexivity.
Defined.

(** ** Splitting rule text *)

Lemma removeSpaces_append (a b : string) :
  Notions.removeSpaces (a ++ b) = Notions.removeSpaces a ++ Notions.removeSpaces b.
Proof.
  induction a as [|c a IH]; [reflexivity|].
  cbn. destruct (isSpace c); cbn; now rewrite IH.
Qed.

Lemma removeSpaces_dropSpaces (s : string) :
  Notions.removeSpaces (dropSpaces s) = Notions.removeSpaces s.
Proof.
  induction s as [|c s IH]; [reflexivity|].
  cbn [dropSpaces]. destruct (isSpace c) eqn:Hc; [|reflexivity].
  cbn. now rewrite Hc.
Qed.

Lemma rev_acc (s acc : string) : rev s acc = rev s "" ++ acc.
Proof.
  revert acc. induction s as [|c s IH]; intros acc; [reflexivity|].
  cbn [rev]. rewrite (IH (String c acc)), (IH (String c "")).
  now rewrite string_app_assoc.
Qed.

Lemma append_empty_r (s : string) : s ++ "" = s.
Proof. induction s as [|c s IH]; [reflexivity|]. cbn. now rewrite IH. Qed.

Lemma rev_append (a b : string) : rev (a ++ b) "" = rev b "" ++ rev a "".
Proof.
  induction a as [|x a IH].
  - cbn. now rewrite append_empty_r.
  - cbn [append rev]. rewrite (rev_acc (a ++ b)), (rev_acc a), IH.
    now rewrite string_app_assoc.
Qed.

Lemma rev_involutive (s : string) : rev (rev s "") "" = s.
Proof.
  induction s as [|c s IH]; [reflexivity|].
  cbn [rev]. rewrite (rev_acc s), rev_append, IH. reflexivity.
Qed.

Lemma removeSpaces_rev (s acc : string) :
  Notions.removeSpaces (rev s acc)
  = rev (Notions.removeSpaces s) (Notions.removeSpaces acc).
Proof.
  revert acc. induction s as [|c s IH]; intros acc; [reflexivity|].
  cbn [rev]. rewrite IH. cbn. destruct (isSpace c); reflexivity.
Qed.

(** Dropping the spaces at the end of a text removes spaces only. *)
Lemma removeSpaces_trimEnd (s : string) :
  Notions.removeSpaces (rev (dropSpaces (rev s "")) "") = Notions.removeSpaces s.
Proof.
  rewrite removeSpaces_rev, removeSpaces_dropSpaces, removeSpaces_rev.
  cbn. apply rev_involutive.
Qed.

Lemma removeSpaces_trim (s : string) :
  Notions.removeSpaces (trim s) = Notions.removeSpaces s.
Proof.
  unfold trim. rewrite removeSpaces_trimEnd. apply removeSpaces_dropSpaces.
Qed.

Lemma join_empty_snoc (l : list string) (x : string) : join "" (l ++ [x]) = join "" l ++ x.
Proof.
  induction l as [|y l IH]; [reflexivity|].
  destruct l as [|z l'].
  - reflexivity.
  - change (join "" ((y :: z :: l') ++ [x])) with (y ++ "" ++ join "" ((z :: l') ++ [x])).
    rewrite IH. change (join "" (y :: z :: l')) with (y ++ "" ++ join "" (z :: l')).
    cbn [append]. now rewrite string_app_assoc.
Qed.

(** What the scanner of [splitCSSRules] has seen so far: the rules already
    cut off, followed by the rule being read. *)
Lemma scanChar_keeps_text (st : Parser.Scan) (c : ascii) :
  let st' := Parser.scanChar st c in
  Notions.removeSpaces (join "" (Parser.rules st') ++ rev (Parser.currentRule st') "")
  = Notions.removeSpaces (join "" (Parser.rules st) ++ rev (Parser.currentRule st) "")
    ++ Notions.removeSpaces (String c "").
Proof.
  cbv zeta. unfold Parser.scanChar. cbn [Parser.rules Parser.currentRule].
  match goal with
  | |- context [if ?b then (Parser.rules st ++ _)%list else Parser.rules st] => destruct b
  end.
  - rewrite join_empty_snoc. cbn [rev]. rewrite append_empty_r.
    rewrite !removeSpaces_append, removeSpaces_trim.
    rewrite (rev_acc (Parser.currentRule st)), removeSpaces_append.
    now rewrite string_app_assoc.
  - cbn [rev]. rewrite (rev_acc (Parser.currentRule st)).
    rewrite !removeSpaces_append. now rewrite string_app_assoc.
Qed.

Lemma scan_keeps_text (cssText : string) (st : Parser.Scan) :
  let st' := Parser.scan st cssText in
  Notions.removeSpaces (join "" (Parser.rules st') ++ rev (Parser.currentRule st') "")
  = Notions.removeSpaces (join "" (Parser.rules st) ++ rev (Parser.currentRule st) "")
    ++ Notions.removeSpaces cssText.
Proof.
  revert st. induction cssText as [|c r IH]; intros st; cbv zeta.
  - cbn. now rewrite append_empty_r.
  - cbn [Parser.scan]. rewrite IH, scanChar_keeps_text.
    rewrite string_app_assoc. f_equal.
    cbn. destruct (isSpace c); reflexivity.
Qed.

Lemma scanChar_rules_not_empty (st : Parser.Scan) (c : ascii) :
  Forall (fun r => Parser.truthy r = true) (Parser.rules st) ->
  Forall (fun r => Parser.truthy r = true) (Parser.rules (Parser.scanChar st c)).
Proof.
  intros Hall. unfold Parser.scanChar. cbn [Parser.rules].
  match goal with
  | |- context [if ?b then (Parser.rules st ++ _)%list else Parser.rules st] =>
      destruct b eqn:Hcloses
  end; [|exact Hall].
  apply Forall_app. split; [exact Hall|]. constructor; [|constructor].
  apply hasInk_not_blank. cbn [rev]. rewrite hasInk_rev. cbn [Spec.hasInk].
  assert (Hc : isSpace c = false).
  { destruct (if Parser.isQuote c && _ then _ else _) in Hcloses; [discriminate|].
    apply andb_prop in Hcloses as [Hcode _]. unfold isSpace. lia. }
  rewrite Hc. cbn. now rewrite orb_true_r.
Qed.

Lemma scan_rules_not_empty (cssText : string) (st : Parser.Scan) :
  Forall (fun r => Parser.truthy r = true) (Parser.rules st) ->
  Forall (fun r => Parser.truthy r = true) (Parser.rules (Parser.scan st cssText)).
Proof.
  revert st. induction cssText as [|c r IH]; intros st Hall; [exact Hall|].
  cbn [Parser.scan]. apply IH. now apply scanChar_rules_not_empty.
Qed.

(** X9: [splitCSSRules] cuts the text and trims the pieces, nothing more:
    put end to end, the rules it returns have exactly the characters of
    the text that are not white space, in the same order, and none of the
    rules is empty. *)
Theorem splitCSSRules_keeps_the_text (cssText : string) :
  Notions.removeSpaces (join "" (Parser.splitCSSRules cssText))
  = Notions.removeSpaces cssText /\
  Forall (fun rule => Parser.truthy rule = true) (Parser.splitCSSRules cssText).
Proof.
  unfold Parser.splitCSSRules.
  set (init := {| Parser.rules := []; Parser.currentRule := ""; Parser.braceCount := 0;
                  Parser.stringChar := None; Parser.prevChar := None |}).
  pose proof (scan_keeps_text cssText init) as Htext. cbv zeta in Htext.
  pose proof (scan_rules_not_empty cssText init (Forall_nil _)) as Hrules.
  set (st := Parser.scan init cssText) in *.
  change (Notions.removeSpaces (join "" (Parser.rules init)
                                ++ rev (Parser.currentRule init) "")) with "" in Htext.
  cbn [append] in Htext. rewrite removeSpaces_append in Htext.
  destruct (Parser.truthy (trim (rev (Parser.currentRule st) ""))) eqn:Hlast.
  - split.
    + rewrite join_empty_snoc, removeSpaces_append, removeSpaces_trim. exact Htext.
    + apply Forall_app. split; [exact Hrules|]. constructor; [exact Hlast | constructor].
  - split; [|exact Hrules].
    apply truthy_false in Hlast.
    rewrite <- (removeSpaces_trim (rev (Parser.currentRule st) "")), Hlast in Htext.
    cbn in Htext. now rewrite append_empty_r in Htext.
Qed.

(** ** Keyframes *)

Lemma compiledKeyframes_inked (env : Env) (keyframes : Parser.KeyframesDefinition) :
  Spec.hasInk (Notions.compiledKeyframes env keyframes) = true.
Proof. reflexivity. Qed.

Lemma createKeyframes_hit (env : Env) (keyframes : Parser.KeyframesDefinition)
    (source : option string) (m : StyleManager) (item : AnimationCacheItem) :
  cacheEnabled m = true ->
  mapGet (Notions.keyframesKey keyframes) (animationCache m) = Some item ->
  let r := createKeyframes env keyframes source m in
  fst r = animationName item /\
  config (snd r) = config m /\
  sinkCalls (snd r) = sinkCalls m /\
  scheduled (snd r) = scheduled m /\
  exists item',
    mapGet (Notions.keyframesKey keyframes) (animationCache (snd r)) = Some item' /\
    animationName item' = animationName item.
Proof.
  intros Hon Hget. unfold Notions.keyframesKey in *. unfold createKeyframes.
  rewrite Hon, Hget. cbn. repeat split.
  eexists. split; [apply mapGet_mapSet | reflexivity].
Qed.

Lemma createKeyframes_files_name (env : Env) (keyframes : Parser.KeyframesDefinition)
    (source : option string) (m : StyleManager) :
  cacheEnabled m = true ->
  domAccepts env (Notions.compiledKeyframes env keyframes) = true ->
  let r := createKeyframes env keyframes source m in
  config (snd r) = config m /\
  exists item,
    mapGet (Notions.keyframesKey keyframes) (animationCache (snd r)) = Some item /\
    animationName item = fst r.
Proof.
  intros Hon Hdom.
  destruct (mapGet (Notions.keyframesKey keyframes) (animationCache m)) as [item|] eqn:Hget.
  - destruct (createKeyframes_hit env keyframes source m item Hon Hget)
      as (Hname & Hconfig & _ & _ & item' & Hget' & Hname').
    cbv zeta. split; [exact Hconfig|]. exists item'. split; [exact Hget' | congruence].
  - unfold Notions.keyframesKey, Notions.compiledKeyframes in *. unfold createKeyframes.
    rewrite Hon, Hget.
    set (css := Parser.generateKeyframesRule _ keyframes) in *.
    assert (Hink : Spec.hasInk css = true) by reflexivity.
    rewrite (hasInk_truthy css Hink). cbn [negb].
    assert (Hacc : Parser.injectCSS env css = true).
    { unfold Parser.injectCSS. now rewrite (hasInk_not_blank css Hink). }
    set (m' := withStats _ m).
    pose proof (injectCSS_accepts env css m' Hacc) as H.
    pose proof (injectCSS_keeps_animations env css m') as Hanim.
    cbv zeta in H.
    destruct (injectCSS env css m') as [injected m'']. cbn [fst snd] in H, Hanim.
    destruct H as (-> & _ & Hconfig & _).
    assert (Hon' : cacheEnabled m'' = true).
    { rewrite (cacheEnabled_config m' m'' Hconfig). exact Hon. }
    rewrite Hon'. cbn. split; [exact Hconfig|].
    eexists. split; [apply mapGet_mapSet | reflexivity].
Qed.

(** X10: a keyframes definition always compiles to a rule that is not
    blank, an empty stop map included; with caching enabled and a style
    sheet that takes the rule, [hasAnimation] finds the definition
    afterwards, and a second [createKeyframes] with it returns the same
    animation name without asking anything of the sink. *)
Theorem createKeyframes_then_found (env env' : Env)
    (keyframes : Parser.KeyframesDefinition) (source source' : option string)
    (m : StyleManager) :
  cacheEnabled m = true ->
  domAccepts env (Notions.compiledKeyframes env keyframes) = true ->
  let r1 := createKeyframes env keyframes source m in
  let r2 := createKeyframes env' keyframes source' (snd r1) in
  Parser.truthy (trim (Notions.compiledKeyframes env keyframes)) = true /\
  hasAnimation keyframes (snd r1) = true /\
  fst r2 = fst r1 /\
  sinkCalls (snd r2) = sinkCalls (snd r1) /\
  scheduled (snd r2) = scheduled (snd r1).
Proof.
  intros Hon Hdom r1 r2.
  split; [apply hasInk_not_blank, compiledKeyframes_inked|].
  split; [exact (hasAnimation_finds_created_keyframes env keyframes source m Hon Hdom)|].
  destruct (createKeyframes_files_name env keyframes source m Hon Hdom)
    as (Hconfig & item & Hget & Hname).
  fold r1 in Hconfig, Hget, Hname.
  assert (Hon' : cacheEnabled (snd r1) = true).
  { rewrite (cacheEnabled_config m (snd r1) Hconfig). exact Hon. }
  destruct (createKeyframes_hit env' keyframes source' (snd r1) item Hon' Hget)
    as (Hname' & _ & Hsink & Hsched & _).
  fold r2 in Hname', Hsink, Hsched. repeat split; congruence.
Qed.

Lemma createKeyframes_then_found_witness :
  let r1 := createKeyframes Spec.env1 [] None (create Spec.env1) in
  let r2 := createKeyframes Spec.env2 [] None (snd r1) in
  hasAnimation [] (snd r1) = true /\ fst r2 = fst r1.
Proof.
  pose proof (createKeyframes_then_found Spec.env1 Spec.env2 [] None None
                (create Spec.env1) eq_refl eq_refl) as H.
  cbv zeta in H. destruct H as (_ & Hfound & Hname & _).
  split; assumption.
Defined.

Lemma getProperty_absent (key : string) (o : object) :
  Forall (fun entry => fst entry <> key) o -> getProperty key o = None.
Proof.
  induction 1 as [|[k v] rest Hk _ IH]; [reflexivity|].
  cbn in *. destruct (String.eqb k key) eqn:E; [|exact IH].
  apply String.eqb_eq in E. contradiction.
Qed.

Lemma flat_map_nothing {A B : Type} (f : A -> list B) (l : list A) :
  (forall x, In x l -> f x = []) -> flat_map f l = [].
Proof.
  induction l as [|x l IH]; intros H; [reflexivity|].
  cbn. rewrite (H x) by now left. apply IH. intros y Hy. apply H. now right.
Qed.

Lemma flat_map_same {A B : Type} (f g : A -> list B) (l : list A) :
  (forall x, In x l -> f x = g x) -> flat_map f l = flat_map g l.
Proof.
  induction l as [|x l IH]; intros H; [reflexivity|].
  cbn. rewrite (H x) by now left. f_equal. apply IH. intros y Hy. apply H. now right.
Qed.

Lemma In_insertSorted (x k : string) (l : list string) :
  In x (insertSorted k l) -> x = k \/ In x l.
Proof.
  induction l as [|y l IH]; cbn.
  - intros [<-|[]]. now left.
  - destruct (String.leb k y); cbn.
    + intros [<-|H]; auto.
    + intros [<-|H]; auto. destruct (IH H); auto.
Qed.

Lemma In_sort (x : string) (l : list string) : In x (Js.sort l) -> In x l.
Proof.
  unfold Js.sort. induction l as [|k l IH]; cbn; [auto|].
  intros H. apply In_insertSorted in H as [->|H]; auto.
Qed.

Lemma In_propertyList (x : string) (l : list string) : In x (propertyList l) -> In x l.
Proof.
  unfold propertyList.
  assert (H : forall acc, In x (fold_left
                (fun K item => if existsb (String.eqb item) K then K else (K ++ [item])%list)
                l acc) -> In x acc \/ In x l).
  { induction l as [|k l IH]; intros acc; cbn; [auto|].
    intros Hin. apply IH in Hin as [Hin|Hin]; [|auto].
    destruct (existsb (String.eqb k) acc); [auto|].
    apply in_app_or in Hin as [Hin|[<-|[]]]; auto. }
  intros Hin. apply H in Hin as [[]|Hin]. exact Hin.
Qed.

(** A stop none of whose properties is named in the replacer is written
    as an empty object. *)
Lemma serialize_plain_stop (K : list string) (stop : object) :
  Forall (fun entry => ~ In (fst entry) K) stop ->
  serialize K (VObject stop) = Some "{}".
Proof.
  intros Hplain. rewrite serialize_object. rewrite flat_map_nothing; [reflexivity|].
  intros P HP. unfold Spec.member. rewrite getProperty_absent; [reflexivity|].
  eapply Forall_impl; [|exact Hplain]. intros entry Hentry E. apply Hentry.
  rewrite E. exact HP.
Qed.

Lemma getProperty_stop (P : string) (keyframes : Parser.KeyframesDefinition) :
  In P (Notions.labels keyframes) ->
  exists stop, In stop keyframes /\
               getProperty P (keyframesObject keyframes) = Some (VObject (snd stop)).
Proof.
  induction keyframes as [|[label stop] rest IH]; [intros []|].
  cbn. destruct (String.eqb label P) eqn:E.
  - intros _. exists (label, stop). split; [now left | reflexivity].
  - intros [->|Hin]; [rewrite String.eqb_refl in E; discriminate|].
    destruct (IH Hin) as (s & Hs & Hget). exists s. split; [now right | exact Hget].
Qed.

(** What [createCacheKey] serialises for a keyframes definition whose
    stops hold no property named like a stop: the labels, each with an
    empty object. *)
Lemma keyframes_text (keyframes : Parser.KeyframesDefinition) :
  Notions.plainStops (Notions.labels keyframes) keyframes ->
  stringify (VObject (keyframesObject keyframes)) (Js.sort (keys (keyframesObject keyframes)))
  = "{" ++ join ","
             (flat_map (fun P => [quoteJSON P ++ ":" ++ "{}"])
                       (propertyList (Js.sort (Notions.labels keyframes)))) ++ "}".
Proof.
  intros Hplain. unfold stringify.
  assert (Hkeys : keys (keyframesObject keyframes) = Notions.labels keyframes).
  { unfold keys, keyframesObject, Notions.labels. rewrite map_map. reflexivity. }
  rewrite Hkeys, serialize_object. do 3 f_equal.
  apply flat_map_same. intros P HP. unfold Spec.member.
  assert (Hlabel : forall Q, In Q (propertyList (Js.sort (Notions.labels keyframes))) ->
                             In Q (Notions.labels keyframes)).
  { intros Q HQ. now apply In_sort, In_propertyList. }
  destruct (getProperty_stop P keyframes (Hlabel P HP)) as (stop & Hstop & ->).
  rewrite serialize_plain_stop; [reflexivity|].
  unfold Notions.plainStops in Hplain. rewrite Forall_forall in Hplain.
  eapply Forall_impl; [|exact (Hplain stop Hstop)].
  intros entry Hentry Hin. apply Hentry. now apply Hlabel.
Qed.

Lemma keyframes_fingerprint_is_labels_only_aux
    (keyframes keyframes' : Parser.KeyframesDefinition) :
  Permutation (Notions.labels keyframes) (Notions.labels keyframes') ->
  Notions.plainStops (Notions.labels keyframes) keyframes ->
  Notions.plainStops (Notions.labels keyframes') keyframes' ->
  Notions.keyframesKey keyframes = Notions.keyframesKey keyframes'.
Proof.
  intros Hperm Hplain Hplain'. unfold Notions.keyframesKey, createCacheKey.
  rewrite (keyframes_text keyframes Hplain), (keyframes_text keyframes' Hplain').
  now rewrite (sort_permutation _ _ Hperm).
Qed.

(** X11: the fingerprint of a keyframes definition holds its stop labels
    and nothing of the declarations: two definitions with the same labels
    (in any order), none of whose declarations is named like a label,
    have the same cache key. *)
Theorem keyframes_fingerprint_is_labels_only
    (keyframes keyframes' : Parser.KeyframesDefinition) :
  Permutation (Notions.labels keyframes) (Notions.labels keyframes') ->
  Notions.plainStops (Notions.labels keyframes) keyframes ->
  Notions.plainStops (Notions.labels keyframes') keyframes' ->
  Notions.keyframesKey keyframes = Notions.keyframesKey keyframes'.
Proof.
  exact (keyframes_fingerprint_is_labels_only_aux keyframes keyframes').
Qed.

Lemma keyframes_fingerprint_is_labels_only_witness :
  Notions.keyframesKey
    [("0%", [("opacity", VNumber (ofZ 0))]); ("100%", [("opacity", VNumber (ofZ 1))])]
  = Notions.keyframesKey
      [("100%", [("transform", VString "translateX(0)")]);
       ("0%", [("transform", VString "translateX(-100%)")])].
Proof.
  apply keyframes_fingerprint_is_labels_only.
  - apply perm_swap.
  - repeat constructor; cbn; intuition discriminate.
  - repeat constructor; cbn; intuition discriminate.
Defined.

(** X12: so, with caching enabled, once an animation has been created,
    [createKeyframes] for any other definition with the same stop labels
    returns the name of the first animation and compiles nothing: the
    second animation is never injected. *)
Theorem createKeyframes_shares_animation (env env' : Env)
    (keyframes keyframes' : Parser.KeyframesDefinition) (source source' : option string)
    (m : StyleManager) :
  cacheEnabled m = true ->
  domAccepts env (Notions.compiledKeyframes env keyframes) = true ->
  Permutation (Notions.labels keyframes) (Notions.labels keyframes') ->
  Notions.plainStops (Notions.labels keyframes) keyframes ->
  Notions.plainStops (Notions.labels keyframes') keyframes' ->
  let r1 := createKeyframes env keyframes source m in
  let r2 := createKeyframes env' keyframes' source' (snd r1) in
  fst r2 = fst r1 /\
  sinkCalls (snd r2) = sinkCalls (snd r1) /\
  scheduled (snd r2) = scheduled (snd r1).
Proof.
  intros Hon Hdom Hperm Hplain Hplain' r1 r2.
  destruct (createKeyframes_files_name env keyframes source m Hon Hdom)
    as (Hconfig & item & Hget & Hname).
  fold r1 in Hconfig, Hget, Hname.
  rewrite (keyframes_fingerprint_is_labels_only_aux keyframes keyframes' Hperm Hplain Hplain')
    in Hget.
  assert (Hon' : cacheEnabled (snd r1) = true).
  { rewrite (cacheEnabled_config m (snd r1) Hconfig). exact Hon. }
  destruct (createKeyframes_hit env' keyframes' source' (snd r1) item Hon' Hget)
    as (Hname' & _ & Hsink & Hsched & _).
  fold r2 in Hname', Hsink, Hsched. repeat split; congruence.
Qed.

Lemma createKeyframes_shares_animation_witness :
  let fade := [("0%", [("opacity", VNumber (ofZ 0))]);
               ("100%", [("opacity", VNumber (ofZ 1))])] in
  let slide := [("0%", [("transform", VString "translateX(-100%)")]);
                ("100%", [("transform", VString "translateX(0)")])] in
  let r1 := createKeyframes Spec.env1 fade None (create Spec.env1) in
  let r2 := createKeyframes Spec.env2 slide None (snd r1) in
  fst r2 = fst r1 /\
  sinkCalls (snd r2) = sinkCalls (snd r1) /\
  scheduled (snd r2) = scheduled (snd r1).
Proof.
  intros fade slide.
  apply (createKeyframes_shares_animation Spec.env1 Spec.env2 fade slide None None
           (create Spec.env1)); try reflexivity.
  - repeat constructor; cbn; intuition discriminate.
  - repeat constructor; cbn; intuition discriminate.
Defined.

(** ** The clean-up *)

Section SweepOrder.
Context {V : Type} (lastUsedOf : V -> Z) (now maxSize : Z).

Lemma sweep_subsequence (entries : JsMap V) (size : Z) :
  Notions.subsequence (sweep lastUsedOf now maxSize entries size) entries.
Proof.
  revert size. induction entries as [|[key item] rest IH]; intros size; cbn [sweep].
  - constructor.
  - destruct ((now - lastUsedOf item >? maxAge) || (size >? maxSize)).
    + apply Notions.subsequence_drop, IH.
    + apply Notions.subsequence_keep, IH.
Qed.

Lemma sweep_recent (entries : JsMap V) (size : Z) :
  Forall (Notions.recent lastUsedOf now) (sweep lastUsedOf now maxSize entries size).
Proof.
  revert size. induction entries as [|[key item] rest IH]; intros size; cbn [sweep].
  - constructor.
  - destruct (now - lastUsedOf item >? maxAge) eqn:Hage; cbn [orb]; [apply IH|].
    destruct (size >? maxSize); [apply IH|].
    constructor; [|apply IH]. unfold Notions.recent. cbn [snd]. lia.
Qed.

Lemma sweep_within (entries : JsMap V) (size : Z) :
  Forall (Notions.recent lastUsedOf now) entries ->
  size <= maxSize ->
  sweep lastUsedOf now maxSize entries size = entries.
Proof.
  intros Hrecent Hsize. induction Hrecent as [|[key item] rest Hitem _ IH]; [reflexivity|].
  unfold Notions.recent in Hitem. cbn [sweep snd] in *.
  replace (now - lastUsedOf item >? maxAge) with false by lia.
  replace (size >? maxSize) with false by lia.
  cbn [orb]. now rewrite IH.
Qed.

Lemma sweep_skips (entries : JsMap V) :
  Forall (Notions.recent lastUsedOf now) entries ->
  sweep lastUsedOf now maxSize entries (mapSize entries)
  = List.skipn (Z.to_nat (mapSize entries - maxSize)) entries.
Proof.
  unfold mapSize.
  induction 1 as [|[key item] rest Hitem Hrest IH]; [now rewrite skipn_nil|].
  unfold Notions.recent in Hitem. cbn [sweep snd] in *.
  replace (now - lastUsedOf item >? maxAge) with false by lia. cbn [orb].
  destruct (Z.of_nat (List.length ((key, item) :: rest)) >? maxSize) eqn:Hover;
    rewrite Z.gtb_ltb in Hover; [apply Z.ltb_lt in Hover | apply Z.ltb_ge in Hover].
  - replace (Z.of_nat (List.length ((key, item) :: rest)) - 1)
      with (Z.of_nat (List.length rest)) by (cbn [List.length]; lia).
    rewrite IH.
    replace (Z.to_nat (Z.of_nat (List.length ((key, item) :: rest)) - maxSize))
      with (S (Z.to_nat (Z.of_nat (List.length rest) - maxSize)))
      by (cbn [List.length] in *; lia).
    reflexivity.
  - replace (Z.to_nat (Z.of_nat (List.length ((key, item) :: rest)) - maxSize))
      with 0%nat by lia.
    cbn [List.skipn]. f_equal. apply sweep_within; [exact Hrest | lia].
Qed.
End SweepOrder.

(** X13: the clean-up only removes: what it leaves in either cache is
    part of what was there, in the same order, and every entry left was
    used within the last thirty minutes. The rules held as injected stay
    as they were, those of the removed entries included, nothing is
    handed to the style sheet, and the time of the sweep is recorded. *)
Theorem cleanupCache_keeps_only_recent (env : Env) (m : StyleManager) :
  cacheEnabled m = true ->
  let m' := cleanupCache env m in
  Notions.subsequence (styleCache m') (styleCache m) /\
  Forall (Notions.recent lastUsed (now env)) (styleCache m') /\
  Notions.subsequence (animationCache m') (animationCache m) /\
  Forall (Notions.recent a_lastUsed (now env)) (animationCache m') /\
  injectedRules m' = injectedRules m /\
  sinkCalls m' = sinkCalls m /\
  scheduled m' = scheduled m /\
  lastCleanup (stats m') = now env.
Proof.
  intros Hon. unfold cleanupCache. rewrite Hon. cbn.
  split; [apply sweep_subsequence|].
  split; [apply sweep_recent|].
  split; [apply sweep_subsequence|].
  split; [apply sweep_recent|].
  repeat split.
Qed.

Lemma cleanupCache_keeps_only_recent_witness :
  let m := snd (createStyle Spec.env1 Spec.blue None (create Spec.env1)) in
  Forall (Notions.recent lastUsed (now Spec.env2)) (styleCache (cleanupCache Spec.env2 m)).
Proof.
  intros m.
  pose proof (cleanupCache_keeps_only_recent Spec.env2 m eq_refl) as H.
  cbv zeta in H. destruct H as (_ & H & _). exact H.
Defined.

(** X14: when no style in the cache is older than thirty minutes, the
    clean-up removes exactly the entries that were inserted first, as many
    as the cache holds beyond [maxCacheSize || 10000], whatever their last
    use; within the bound it removes nothing. *)
Theorem cleanupCache_evicts_first_inserted (env : Env) (m : StyleManager) :
  cacheEnabled m = true ->
  Forall (Notions.recent lastUsed (now env)) (styleCache m) ->
  styleCache (cleanupCache env m)
  = List.skipn (Z.to_nat (mapSize (styleCache m) - maxSizeOf (config m))) (styleCache m).
Proof.
  intros Hon Hrecent. unfold cleanupCache. rewrite Hon. cbn.
  now apply sweep_skips.
Qed.

Lemma cleanupCache_evicts_first_inserted_witness :
  let m := configure (Spec.maxSize 1) (create Spec.env1) in
  let m := snd (createStyle Spec.env1 Spec.blue None m) in
  let m := snd (createStyle Spec.env1 Spec.red None m) in
  let m := snd (createStyle Spec.env2 Spec.blue None m) in
  styleCache (cleanupCache Spec.env2 m)
  = List.skipn (Z.to_nat (mapSize (styleCache m) - maxSizeOf (config m))) (styleCache m).
Proof.
  intros m m0 m1 m2.
  assert (Hon : cacheEnabled m2 = true) by (vm_compute; reflexivity).
  assert (Hrecent : Forall (Notions.recent lastUsed (now Spec.env2)) (styleCache m2)).
  { let cache := eval vm_compute in (styleCache m2) in
    assert (E : styleCache m2 = cache) by (vm_compute; reflexivity).
    rewrite E.
    repeat constructor; unfold Notions.recent; cbn [snd lastUsed]; vm_compute; discriminate. }
  exact (cleanupCache_evicts_first_inserted Spec.env2 m2 Hon Hrecent).
Defined.

Section MapOrder.
Context {V : Type}.

Lemma mapSet_present (key : string) (v old : V) (m : JsMap V) :
  mapGet key m = Some old -> map fst (mapSet key v m) = map fst m.
Proof.
  induction m as [|[k x] rest IH]; [discriminate|].
  cbn. destruct (String.eqb k key); [reflexivity|].
  intros H. cbn. f_equal. exact (IH H).
Qed.

Lemma mapGet_other (key key' : string) (v : V) (m : JsMap V) :
  key' <> key -> mapGet key' (mapSet key v m) = mapGet key' m.
Proof.
  intros Hne. induction m as [|[k x] rest IH]; cbn.
  - destruct (String.eqb key key') eqn:E; [|reflexivity].
    apply String.eqb_eq in E. congruence.
  - destruct (String.eqb k key) eqn:E; cbn.
    + apply String.eqb_eq in E. subst k.
      destruct (String.eqb key key') eqn:E'; [|reflexivity].
      apply String.eqb_eq in E'. congruence.
    + destruct (String.eqb k key'); [reflexivity | exact IH].
Qed.
End MapOrder.

(** X15: a cache hit refreshes the entry where it stands: the keys of
    the style cache keep their order, the entry found has its time of
    last use set to now and its use count raised by one, and every other
    entry is as before. With X14: a style that was just used is still the
    first to go when it was the first to be inserted. *)
Theorem createStyle_hit_keeps_cache_order (env : Env) (styles : Parser.CSSProperties)
    (options : option CSSOptions) (m : StyleManager) (item : StyleCacheItem) :
  cacheEnabled m = true ->
  mapGet (Spec.styleKey styles options m) (styleCache m) = Some item ->
  let m' := snd (createStyle env styles options m) in
  map fst (styleCache m') = map fst (styleCache m) /\
  (exists item',
     mapGet (Spec.styleKey styles options m) (styleCache m') = Some item' /\
     lastUsed item' = now env /\
     useCount item' = useCount item + 1 /\
     className item' = className item /\
     cssText item' = cssText item) /\
  (forall key, key <> Spec.styleKey styles options m ->
               mapGet key (styleCache m') = mapGet key (styleCache m)).
Proof.
  intros Hon Hget. unfold Spec.styleKey in *. unfold createStyle.
  cbv zeta. rewrite Hon in *. rewrite Hget. cbn.
  split; [exact (mapSet_present _ _ _ _ Hget)|].
  split.
  - eexists. split; [apply mapGet_mapSet|]. cbn. repeat split.
  - intros key Hne. now apply mapGet_other.
Qed.

Lemma createStyle_hit_keeps_cache_order_witness :
  let m := snd (createStyle Spec.env1 Spec.blue None (create Spec.env1)) in
  let m := snd (createStyle Spec.env1 Spec.red None m) in
  map fst (styleCache (snd (createStyle Spec.env2 Spec.blue None m)))
  = map fst (styleCache m).
Proof.
  intros m m0.
  destruct (mapGet (Spec.styleKey Spec.blue None m0) (styleCache m0)) as [item|] eqn:Hget;
    [|vm_compute in Hget; discriminate].
  exact (proj1 (createStyle_hit_keeps_cache_order Spec.env2 Spec.blue None m0 item
                  eq_refl Hget)).
Defined.

(** ** What every manager state satisfies *)

Lemma has_In (l : list string) (x : string) : has l x = true <-> In x l.
Proof.
  unfold has. rewrite existsb_exists. split.
  - intros (y & Hy & E). apply String.eqb_eq in E. now subst.
  - intros H. exists x. split; [exact H | apply String.eqb_refl].
Qed.

Lemma NoDup_snoc {A : Type} (l : list A) (x : A) :
  NoDup l -> ~ In x l -> NoDup (l ++ [x]).
Proof.
  intros Hl Hx. apply (Permutation_NoDup (l := x :: l)).
  - apply Permutation_cons_append.
  - now constructor.
Qed.

Section MapShape.
Context {V : Type}.

Lemma mapSet_absent (key : string) (v : V) (m : JsMap V) :
  mapGet key m = None ->
  mapSet key v m = (m ++ [(key, v)])%list /\ ~ In key (map fst m).
Proof.
  induction m as [|[k x] rest IH]; cbn.
  - intros _. split; [reflexivity | intros []].
  - destruct (String.eqb k key) eqn:E; [discriminate|].
    intros H. destruct (IH H) as [-> Hnot]. split; [reflexivity|].
    intros [->|Hin]; [|contradiction].
    rewrite String.eqb_refl in E. discriminate.
Qed.

Lemma mapSet_keys_NoDup (key : string) (v : V) (m : JsMap V) :
  NoDup (map fst m) -> NoDup (map fst (mapSet key v m)).
Proof.
  intros H. destruct (mapGet key m) as [old|] eqn:Hget.
  - now rewrite (mapSet_present key v old m Hget).
  - destruct (mapSet_absent key v m Hget) as [-> Hnot].
    rewrite map_app. now apply NoDup_snoc.
Qed.

Lemma mapSet_size (key : string) (v : V) (m : JsMap V) :
  mapSize (mapSet key v m) <= mapSize m + 1.
Proof.
  unfold mapSize. destruct (mapGet key m) as [old|] eqn:Hget.
  - pose proof (f_equal (@List.length string) (mapSet_present key v old m Hget)) as H.
    rewrite !length_map in H. lia.
  - destruct (mapSet_absent key v m Hget) as [-> _]. rewrite length_app. cbn. lia.
Qed.

Lemma mapSet_size_present (key : string) (v old : V) (m : JsMap V) :
  mapGet key m = Some old -> mapSize (mapSet key v m) = mapSize m.
Proof.
  intros Hget. unfold mapSize.
  pose proof (f_equal (@List.length string) (mapSet_present key v old m Hget)) as H.
  rewrite !length_map in H. lia.
Qed.
End MapShape.

Lemma subsequence_Forall {A : Type} (P : A -> Prop) (kept all : list A) :
  Notions.subsequence kept all -> Forall P all -> Forall P kept.
Proof.
  induction 1 as [|x kept all _ IH|x kept all _ IH]; intros H.
  - constructor.
  - inversion H; subst. constructor; auto.
  - inversion H; subst. auto.
Qed.

Lemma subsequence_In {A : Type} (kept all : list A) (x : A) :
  Notions.subsequence kept all -> In x kept -> In x all.
Proof.
  induction 1 as [|y kept all _ IH|y kept all _ IH]; cbn; intuition.
Qed.

Lemma subsequence_map {A B : Type} (f : A -> B) (kept all : list A) :
  Notions.subsequence kept all -> Notions.subsequence (map f kept) (map f all).
Proof. induction 1; cbn; constructor; assumption. Qed.

Lemma subsequence_NoDup {A : Type} (kept all : list A) :
  Notions.subsequence kept all -> NoDup all -> NoDup kept.
Proof.
  induction 1 as [|x kept all Hsub IH|x kept all _ IH]; intros H.
  - constructor.
  - inversion H; subst. constructor; [|auto].
    intros Hin. eauto using subsequence_In.
  - inversion H; subst. auto.
Qed.

Lemma subsequence_length {A : Type} (kept all : list A) :
  Notions.subsequence kept all -> (List.length kept <= List.length all)%nat.
Proof. induction 1; cbn; lia. Qed.

(** Recording a rule that was just handed over. *)
Lemma record_delivery (css : string) (m m1 : StyleManager) (success : bool) :
  Parser.truthy (trim css) = true ->
  has (injectedRules m) css = false ->
  Forall (Notions.delivered m) (injectedRules m) ->
  NoDup (injectedRules m) ->
  injectedRules m1 = injectedRules m ->
  (forall x, In x (sinkCalls m ++ scheduled m) -> In x (sinkCalls m1 ++ scheduled m1)) ->
  In css (sinkCalls m1 ++ scheduled m1) ->
  let r := if success
           then (true, withInjectedRules (injectedRules m1 ++ [css]) m1)
           else (false, m1) in
  Forall (Notions.delivered (snd r)) (injectedRules (snd r)) /\
  NoDup (injectedRules (snd r)) /\
  (forall x, Notions.delivered m x -> Notions.delivered (snd r) x) /\
  (forall x, In x (injectedRules m) -> In x (injectedRules (snd r))) /\
  (fst r = true -> Notions.delivered (snd r) css /\ In css (injectedRules (snd r))).
Proof.
  intros Hink Hhas Hdel Hnodup Hrules Hgrow Hcss.
  assert (Hnot : ~ In css (injectedRules m)).
  { intros Hin. apply has_In in Hin. congruence. }
  assert (Hmono : forall x, Notions.delivered m x -> Notions.delivered m1 x).
  { intros x [Hx Hin]. split; [exact Hx | now apply Hgrow]. }
  unfold Notions.delivered in *. destruct success; cbn.
  - split.
    { rewrite Hrules. apply Forall_app. split.
      - eapply Forall_impl; [|exact Hdel]. exact Hmono.
      - constructor; [|constructor]. split; assumption. }
    split; [rewrite Hrules; now apply NoDup_snoc|].
    split; [exact Hmono|].
    split; [intros x Hx; rewrite Hrules; apply in_or_app; now left|].
    intros _. split; [split; assumption|].
    apply in_or_app. right. now left.
  - split; [rewrite Hrules; eapply Forall_impl; [|exact Hdel]; exact Hmono|].
    split; [now rewrite Hrules|].
    split; [exact Hmono|].
    split; [intros x Hx; now rewrite Hrules|].
    discriminate.
Qed.

Lemma injectCSS_delivers (env : Env) (css : string) (m : StyleManager) :
  Forall (Notions.delivered m) (injectedRules m) ->
  NoDup (injectedRules m) ->
  let r := injectCSS env css m in
  Forall (Notions.delivered (snd r)) (injectedRules (snd r)) /\
  NoDup (injectedRules (snd r)) /\
  (forall x, Notions.delivered m x -> Notions.delivered (snd r) x) /\
  (forall x, In x (injectedRules m) -> In x (injectedRules (snd r))) /\
  (fst r = true -> Notions.delivered (snd r) css /\ In css (injectedRules (snd r))).
Proof.
  intros Hdel Hnodup. unfold injectCSS.
  destruct (Parser.truthy (trim css)) eqn:Hink; cbn [negb].
  2: { cbn. split; [exact Hdel|]. split; [exact Hnodup|]. split; [auto|].
       split; [auto | discriminate]. }
  destruct (has (injectedRules m) css) eqn:Hhas.
  { cbn. split; [exact Hdel|]. split; [exact Hnodup|]. split; [auto|].
    split; [auto|]. intros _. apply has_In in Hhas. split; [|exact Hhas].
    rewrite Forall_forall in Hdel. now apply Hdel. }
  assert (Hsink : forall x,
             In x (sinkCalls m ++ scheduled m) ->
             In x ((sinkCalls m ++ [css]) ++ scheduled m)).
  { intros x Hx. apply in_app_or in Hx as [Hx|Hx]; apply in_or_app; [left|now right].
    apply in_or_app. now left. }
  assert (Hsched : forall x,
             In x (sinkCalls m ++ scheduled m) ->
             In x (sinkCalls m ++ scheduled m ++ [css])).
  { intros x Hx. rewrite app_assoc. apply in_or_app. now left. }
  assert (Hsink' : In css ((sinkCalls m ++ [css]) ++ scheduled m)).
  { apply in_or_app. left. apply in_or_app. right. now left. }
  assert (Hsched' : In css (sinkCalls m ++ scheduled m ++ [css])).
  { rewrite app_assoc. apply in_or_app. right. now left. }
  destruct (insertionMode (config m)) as [[]|].
  - exact (record_delivery css m (withSinkCalls (sinkCalls m ++ [css]) m)
             (Parser.injectCSS env css) Hink Hhas Hdel Hnodup eq_refl Hsink Hsink').
  - exact (record_delivery css m (withScheduled (scheduled m ++ [css]) m)
             true Hink Hhas Hdel Hnodup eq_refl Hsched Hsched').
  - destruct (hasRequestAnimationFrame env).
    + exact (record_delivery css m (withScheduled (scheduled m ++ [css]) m)
               true Hink Hhas Hdel Hnodup eq_refl Hsched Hsched').
    + exact (record_delivery css m (withSinkCalls (sinkCalls m ++ [css]) m)
               true Hink Hhas Hdel Hnodup eq_refl Hsink Hsink').
  - exact (record_delivery css m (withSinkCalls (sinkCalls m ++ [css]) m)
             (Parser.injectCSS env css) Hink Hhas Hdel Hnodup eq_refl Hsink Hsink').
Qed.

Lemma sound_injectCSS (env : Env) (css : string) (m : StyleManager) :
  Notions.sound m -> Notions.sound (snd (injectCSS env css m)).
Proof.
  intros [Hs Ha Hi Hsk Hak Hr Hh Hm Ht].
  destruct (injectCSS_delivers env css m Hi Hr) as (Hi' & Hr' & Hmono & Hkeep & _).
  destruct (injectCSS_keeps env css m) as (Hcache & _ & Hstats).
  pose proof (injectCSS_keeps_animations env css m) as Hanim.
  cbv zeta in *.
  constructor; rewrite ?Hcache, ?Hanim, ?Hstats; try assumption.
  - eapply Forall_impl; [|exact Hs]. intros entry [Hd Hin]. split; auto.
  - eapply Forall_impl; [|exact Ha]. intros entry [Hd Hin]. split; auto.
Qed.

Lemma sound_clearCache (m : StyleManager) :
  Notions.sound m -> Notions.sound (clearCache m).
Proof.
  intros [Hs Ha Hi Hsk Hak Hr Hh Hm Ht].
  constructor; cbn; try constructor; try lia.
  unfold mapSize in Ht. lia.
Qed.

Lemma sound_withConfig (c : CSSInJSConfig) (m : StyleManager) :
  Notions.sound m -> Notions.sound (withConfig c m).
Proof. intros [Hs Ha Hi Hsk Hak Hr Hh Hm Ht]. constructor; assumption. Qed.

Lemma sound_configure (newConfig : PartialConfig) (m : StyleManager) :
  Notions.sound m -> Notions.sound (configure newConfig m).
Proof.
  intros H. unfold configure. cbv zeta.
  destruct (negb (cacheEnabled _)).
  - apply sound_clearCache, sound_withConfig, H.
  - apply sound_withConfig, H.
Qed.

Lemma sound_cleanupCache (env : Env) (m : StyleManager) :
  Notions.sound m -> Notions.sound (cleanupCache env m).
Proof.
  intros [Hs Ha Hi Hsk Hak Hr Hh Hm Ht]. unfold cleanupCache.
  destruct (negb (cacheEnabled m)); [now constructor|].
  pose proof (sweep_subsequence lastUsed (now env) (maxSizeOf (config m))
                (styleCache m) (mapSize (styleCache m))) as Hsub.
  pose proof (sweep_subsequence a_lastUsed (now env) (maxSizeOf (config m))
                (animationCache m) (mapSize (animationCache m))) as Hsub'.
  constructor; cbn; try assumption.
  - exact (subsequence_Forall _ _ _ Hsub Hs).
  - exact (subsequence_Forall _ _ _ Hsub' Ha).
  - exact (subsequence_NoDup _ _ (subsequence_map fst _ _ Hsub) Hsk).
  - exact (subsequence_NoDup _ _ (subsequence_map fst _ _ Hsub') Hak).
  - pose proof (subsequence_length _ _ Hsub). unfold mapSize in *. lia.
Qed.

Lemma sound_injectGlobal (env : Env) (styles : object) (m : StyleManager) :
  Notions.sound m -> Notions.sound (injectGlobal env styles m).
Proof.
  intros H. unfold injectGlobal.
  destruct (Parser.generateGlobalCSS styles) as [css|]; [|exact H].
  destruct (Parser.truthy css); [|exact H].
  now apply sound_injectCSS.
Qed.

Lemma sound_createStyle (env : Env) (styles : Parser.CSSProperties)
    (options : option CSSOptions) (m : StyleManager) :
  Notions.sound m -> Notions.sound (snd (createStyle env styles options m)).
Proof.
  intros [Hs Ha Hi Hsk Hak Hr Hh Hm Ht]. unfold createStyle. cbv zeta.
  set (key := if cacheEnabled m then _ else "").
  destruct (if cacheEnabled m then mapGet key (styleCache m) else None)
    as [item|] eqn:Hget.
  - assert (Hfound : mapGet key (styleCache m) = Some item).
    { destruct (cacheEnabled m); [exact Hget | discriminate]. }
    constructor; cbn; try assumption; try lia.
    + apply (mapSet_Forall
               (fun v => Notions.delivered m (cssText v) /\ In (cssText v) (injectedRules m)));
        [|exact Hs].
      exact (mapGet_Forall
               (fun v => Notions.delivered m (cssText v) /\ In (cssText v) (injectedRules m))
               key item (styleCache m) Hs Hfound).
    + now apply mapSet_keys_NoDup.
    + rewrite (mapSet_size_present key _ item _ Hfound). exact Ht.
  - set (className := generateClassName env (finalOptionsOf m options)).
    destruct (negb (Parser.truthy (Parser.cssText (Parser.parseStyles styles (Some className))))).
    { constructor; cbn; try assumption; lia. }
    set (css := Parser.cssText (Parser.parseStyles styles (Some className))).
    set (m0 := withStats (countMiss (stats m)) m).
    assert (Hi0 : Forall (Notions.delivered m0) (injectedRules m0)) by exact Hi.
    destruct (injectCSS_delivers env css m0 Hi0 Hr) as (Hi' & Hr' & Hmono & Hkeep & Hdone).
    destruct (injectCSS_keeps env css m0) as (Hcache & _ & Hstats).
    pose proof (injectCSS_keeps_animations env css m0) as Hanim.
    cbv zeta in *.
    destruct (injectCSS env css m0) as [injected m1]. cbn [fst snd] in *.
    assert (Hs1 : Forall (fun entry => Notions.delivered m1 (cssText (snd entry)) /\
                                       In (cssText (snd entry)) (injectedRules m1))
                         (styleCache m)).
    { eapply Forall_impl; [|exact Hs]. intros entry [Hd Hin]. split; auto. }
    assert (Ha1 : Forall (fun entry => Notions.delivered m1 (a_cssText (snd entry)) /\
                                       In (a_cssText (snd entry)) (injectedRules m1))
                         (animationCache m)).
    { eapply Forall_impl; [|exact Ha]. intros entry [Hd Hin]. split; auto. }
    destruct (injected && cacheEnabled m1) eqn:Hstore.
    + apply andb_prop in Hstore as [-> _].
      constructor; cbn; rewrite ?Hcache, ?Hanim, ?Hstats; cbn; try assumption; try lia.
      * apply (mapSet_Forall
                 (fun v => Notions.delivered m1 (cssText v) /\
                           In (cssText v) (injectedRules m1)));
          [|exact Hs1].
        exact (Hdone eq_refl).
      * now apply mapSet_keys_NoDup.
      * eapply Z.le_trans; [apply mapSet_size|]. lia.
    + constructor; cbn; rewrite ?Hcache, ?Hanim, ?Hstats; cbn; try assumption; lia.
Qed.

Lemma sound_createKeyframes (env : Env) (keyframes : Parser.KeyframesDefinition)
    (source : option string) (m : StyleManager) :
  Notions.sound m -> Notions.sound (snd (createKeyframes env keyframes source m)).
Proof.
  intros [Hs Ha Hi Hsk Hak Hr Hh Hm Ht]. unfold createKeyframes. cbv zeta.
  set (key := if cacheEnabled m then _ else "").
  destruct (if cacheEnabled m then mapGet key (animationCache m) else None)
    as [item|] eqn:Hget.
  - assert (Hfound : mapGet key (animationCache m) = Some item).
    { destruct (cacheEnabled m); [exact Hget | discriminate]. }
    constructor; cbn; try assumption; try lia.
    + apply (mapSet_Forall
               (fun v => Notions.delivered m (a_cssText v) /\
                         In (a_cssText v) (injectedRules m)));
        [|exact Ha].
      exact (mapGet_Forall
               (fun v => Notions.delivered m (a_cssText v) /\
                         In (a_cssText v) (injectedRules m))
               key item (animationCache m) Ha Hfound).
    + now apply mapSet_keys_NoDup.
  - set (css := Parser.generateKeyframesRule _ keyframes).
    destruct (negb (Parser.truthy css)).
    { constructor; cbn; try assumption; lia. }
    set (m0 := withStats (countMiss (stats m)) m).
    assert (Hi0 : Forall (Notions.delivered m0) (injectedRules m0)) by exact Hi.
    destruct (injectCSS_delivers env css m0 Hi0 Hr) as (Hi' & Hr' & Hmono & Hkeep & Hdone).
    destruct (injectCSS_keeps env css m0) as (Hcache & _ & Hstats).
    pose proof (injectCSS_keeps_animations env css m0) as Hanim.
    cbv zeta in *.
    destruct (injectCSS env css m0) as [injected m1]. cbn [fst snd] in *.
    assert (Hs1 : Forall (fun entry => Notions.delivered m1 (cssText (snd entry)) /\
                                       In (cssText (snd entry)) (injectedRules m1))
                         (styleCache m)).
    { eapply Forall_impl; [|exact Hs]. intros entry [Hd Hin]. split; auto. }
    assert (Ha1 : Forall (fun entry => Notions.delivered m1 (a_cssText (snd entry)) /\
                                       In (a_cssText (snd entry)) (injectedRules m1))
                         (animationCache m)).
    { eapply Forall_impl; [|exact Ha]. intros entry [Hd Hin]. split; auto. }
    destruct (injected && cacheEnabled m1) eqn:Hstore.
    + apply andb_prop in Hstore as [-> _].
      constructor; cbn; rewrite ?Hcache, ?Hanim, ?Hstats; cbn; try assumption; try lia.
      * apply (mapSet_Forall
                 (fun v => Notions.delivered m1 (a_cssText v) /\
                           In (a_cssText v) (injectedRules m1)));
          [|exact Ha1].
        exact (Hdone eq_refl).
      * now apply mapSet_keys_NoDup.
    + constructor; cbn; rewrite ?Hcache, ?Hanim, ?Hstats; cbn; try assumption; lia.
Qed.

(** X16: in every state that the manager can reach from a new one, by
    [configure], [createStyle], [createKeyframes], [injectGlobal],
    [clearCache] and the clean-up, under any outcomes of the style sheet:
    each cached style and animation holds a rule text that is not blank,
    that is held as injected and that was handed to the style sheet, at
    once or deferred; no cache key and no injected rule is held twice;
    the hit and miss counters are not negative; and the styles counted
    are at least the styles cached. *)
Theorem reachable_sound (m : StyleManager) :
  Notions.reachable m -> Notions.sound m.
Proof.
  induction 1.
  - constructor; cbn; try constructor; lia.
  - now apply sound_configure.
  - now apply sound_createStyle.
  - now apply sound_createKeyframes.
  - now apply sound_injectGlobal.
  - now apply sound_clearCache.
  - now apply sound_cleanupCache.
Qed.

Lemma reachable_sound_witness :
  Notions.sound
    (cleanupCache Spec.env2
       (snd (createStyle Spec.envFailing Spec.red None
          (snd (createStyle Spec.env1 Spec.blue None
             (configure Spec.asyncMode (create Spec.env1))))))).
Proof.
  exact (reachable_sound _
           (Notions.reach_cleanupCache Spec.env2 _
              (Notions.reach_createStyle Spec.envFailing Spec.red None _
                 (Notions.reach_createStyle Spec.env1 Spec.blue None _
                    (Notions.reach_configure Spec.asyncMode _
                       (Notions.reach_create Spec.env1)))))).
Defined.

(** ** Global styles *)

Lemma injectCSS_again (env : Env) (css : string) (m : StyleManager) :
  In css (injectedRules m) -> snd (injectCSS env css m) = m.
Proof.
  intros Hin. unfold injectCSS.
  destruct (negb (Parser.truthy (trim css))); [reflexivity|].
  apply has_In in Hin. now rewrite Hin.
Qed.

Lemma injectCSS_records (env : Env) (css : string) (m : StyleManager) :
  (Spec.synchronous m = true -> domAccepts env css = true) ->
  Parser.truthy (trim css) = true ->
  let m' := snd (injectCSS env css m) in
  In css (injectedRules m') /\ config m' = config m.
Proof.
  intros Hdom Hink. unfold injectCSS, Spec.synchronous, Parser.injectCSS in *.
  rewrite Hink in *. cbn [negb].
  destruct (has (injectedRules m) css) eqn:Hhas.
  { split; [now apply has_In | reflexivity]. }
  destruct (insertionMode (config m)) as [[]|]; cbn.
  - rewrite (Hdom eq_refl). cbn. split; [|reflexivity]. apply in_or_app. right. now left.
  - split; [|reflexivity]. apply in_or_app. right. now left.
  - destruct (hasRequestAnimationFrame env); cbn;
      (split; [|reflexivity]); apply in_or_app; right; now left.
  - rewrite (Hdom eq_refl). cbn. split; [|reflexivity]. apply in_or_app. right. now left.
Qed.

(** X17: injecting the same global styles a second time changes
    nothing: when the first call got its rules recorded (the style sheet
    took them, or the insertion mode defers them), the second call, in
    whatever surroundings, leaves the manager exactly as the first left
    it and hands nothing to the style sheet. A description that makes the
    compiler raise, or that compiles to nothing, leaves the manager as it
    was both times. *)
Theorem injectGlobal_twice (env env' : Env) (styles : object) (m : StyleManager) :
  (forall css, Parser.generateGlobalCSS styles = Some css ->
               Spec.synchronous m = true -> domAccepts env css = true) ->
  let m1 := injectGlobal env styles m in
  injectGlobal env' styles m1 = m1.
Proof.
  intros Hdom. unfold injectGlobal.
  destruct (Parser.generateGlobalCSS styles) as [css|] eqn:Hcss; [|reflexivity].
  destruct (Parser.truthy css) eqn:Htext; [|reflexivity].
  destruct (Parser.truthy (trim css)) eqn:Hink.
  - destruct (injectCSS_records env css m (Hdom css eq_refl) Hink) as [Hin _].
    cbv zeta in Hin. now apply injectCSS_again.
  - unfold injectCSS. rewrite Hink. cbn. rewrite ?Hink. reflexivity.
Qed.

Lemma injectGlobal_twice_witness :
  let styles := [("body", VObject [("margin", VNumber (ofZ 0))])] in
  let m1 := injectGlobal Spec.env1 styles (create Spec.env1) in
  injectGlobal Spec.env2 styles m1 = m1.
Proof.
  intros styles.
  apply (injectGlobal_twice Spec.env1 Spec.env2 styles (create Spec.env1)).
  intros css _ _. reflexivity.
Defined.

(** X18: [clearCache] forgets which rules were injected, while the
    style sheet keeps them: the same global styles injected again after a
    [clearCache] are handed to the style sheet once more. *)
Theorem clearCache_forgets_injections (env env' : Env) (styles : object)
    (css : string) (m : StyleManager) :
  Parser.generateGlobalCSS styles = Some css ->
  Parser.truthy (trim css) = true ->
  let m1 := clearCache (injectGlobal env styles m) in
  let m2 := injectGlobal env' styles m1 in
  Spec.materializations m2 = (Spec.materializations m1 + 1)%nat /\
  In css (sinkCalls m2 ++ scheduled m2).
Proof.
  intros Hcss Hink m1 m2.
  assert (Hrules : injectedRules m1 = []) by reflexivity.
  assert (Hm2 : m2 = snd (injectCSS env' css m1)).
  { subst m2. unfold injectGlobal at 1. now rewrite Hcss, (trim_truthy css Hink). }
  rewrite Hm2. clear Hm2 m2. clearbody m1.
  unfold injectCSS. rewrite Hink, Hrules. cbn [negb has existsb].
  unfold Spec.materializations.
  destruct (insertionMode (config m1)) as [[]|]; cbn [fst snd].
  - destruct (Parser.injectCSS env' css); cbn; rewrite ?length_app; cbn;
      (split; [lia|]); apply in_or_app; left; apply in_or_app; right; now left.
  - cbn; rewrite ?length_app; cbn.
    split; [lia|]. apply in_or_app; right; apply in_or_app; right; now left.
  - destruct (hasRequestAnimationFrame env'); cbn; rewrite ?length_app; cbn.
    + split; [lia|]. apply in_or_app; right; apply in_or_app; right; now left.
    + split; [lia|]. apply in_or_app; left; apply in_or_app; right; now left.
  - destruct (Parser.injectCSS env' css); cbn; rewrite ?length_app; cbn;
      (split; [lia|]); apply in_or_app; left; apply in_or_app; right; now left.
Qed.

Lemma clearCache_forgets_injections_witness :
  let styles := [("body", VObject [("margin", VNumber (ofZ 0))])] in
  let m1 := clearCache (injectGlobal Spec.env1 styles (create Spec.env1)) in
  let m2 := injectGlobal Spec.env2 styles m1 in
  Spec.materializations m2 = (Spec.materializations m1 + 1)%nat.
Proof.
  intros styles.
  destruct (Parser.generateGlobalCSS styles) as [css|] eqn:Hcss;
    [|vm_compute in Hcss; discriminate].
  assert (Hink : Parser.truthy (trim css) = true).
  { vm_compute in Hcss. injection Hcss as <-. reflexivity. }
  exact (proj1 (clearCache_forgets_injections Spec.env1 Spec.env2 styles css
                  (create Spec.env1) Hcss Hink)).
Defined.

(** ** Custom properties *)

Lemma setProperty_Forall (P : string * value -> Prop) (k : string) (v : value) (o : object) :
  P (k, v) -> Forall P o -> Forall P (setProperty k v o).
Proof.
  intros Hv. induction 1 as [|[k0 x] rest Hx Hrest IH]; cbn.
  - now repeat constructor.
  - destruct (String.eqb k0 k) eqn:E.
    + apply String.eqb_eq in E. subst k0. now constructor.
    + now constructor.
Qed.

Lemma setProperty_new (k : string) (v : value) (o : object) :
  ~ In k (keys o) -> setProperty k v o = (o ++ [(k, v)])%list.
Proof.
  induction o as [|[k0 x] rest IH]; cbn; [reflexivity|].
  intros Hnot. destruct (String.eqb k0 k) eqn:E.
  - apply String.eqb_eq in E. subst k0. exfalso. apply Hnot. now left.
  - f_equal. apply IH. intros Hin. apply Hnot. now right.
Qed.

Lemma setProperty_keys (k : string) (v : value) (o : object) :
  keys (setProperty k v o) = keys o \/
  (~ In k (keys o) /\ keys (setProperty k v o) = (keys o ++ [k])%list).
Proof.
  unfold keys. induction o as [|[k0 x] rest IH]; cbn.
  - right. split; [intros [] | reflexivity].
  - destruct (String.eqb k0 k) eqn:E; cbn; [now left|].
    destruct IH as [->|[Hnot ->]]; [now left|].
    right. split; [|reflexivity].
    intros [->|Hin]; [|contradiction]. rewrite String.eqb_refl in E. discriminate.
Qed.

Lemma setProperty_NoDup (k : string) (v : value) (o : object) :
  NoDup (keys o) -> NoDup (keys (setProperty k v o)).
Proof.
  intros H. destruct (setProperty_keys k v o) as [->|[Hnot ->]]; [exact H|].
  now apply NoDup_snoc.
Qed.

Lemma setProperty_keeps (name k : string) (v : value) (o : object) :
  In name (keys o) -> In name (keys (setProperty k v o)).
Proof.
  intros H. destruct (setProperty_keys k v o) as [->|[_ ->]]; [exact H|].
  apply in_or_app. now left.
Qed.

Lemma setProperty_defines (k : string) (v : value) (o : object) :
  In k (keys (setProperty k v o)).
Proof.
  induction o as [|[k0 x] rest IH]; cbn; [now left|].
  destruct (String.eqb k0 k) eqn:E; cbn.
  - left. now apply String.eqb_eq.
  - now right.
Qed.

(** Writing the entries of an object with distinct keys, none of them
    present yet, appends them. *)
Lemma write_all_new (step : string * value -> string * value) (l acc : object) :
  (forall entry, In entry l -> step entry = entry) ->
  NoDup (keys acc ++ keys l) ->
  fold_left (fun result entry => setProperty (fst (step entry)) (snd (step entry)) result)
            l acc
  = (acc ++ l)%list.
Proof.
  revert acc. induction l as [|[k v] rest IH]; intros acc Hstep Hnodup; cbn.
  - now rewrite app_nil_r.
  - rewrite (Hstep (k, v)) by now left. cbn [fst snd].
    assert (Hnew : ~ In k (keys acc)).
    { intros Hin. apply NoDup_remove_2 in Hnodup. apply Hnodup.
      apply in_or_app. now left. }
    rewrite (setProperty_new k v acc Hnew), IH.
    + now rewrite <- app_assoc.
    + intros entry Hin. apply Hstep. now right.
    + unfold keys in *. rewrite map_app, <- app_assoc. exact Hnodup.
Qed.

(** X19: what [cssVariables] returns is a well-formed block of custom
    properties: every name starts with two hyphens, every value is a
    string, no name occurs twice; and applying [cssVariables] to its own
    result gives the same result. *)
Theorem cssVariables_well_formed (variables : object) :
  let result := Css.cssVariables variables in
  Forall (fun entry => startsWith (fst entry) "--" = true /\
                       Notions.isString (snd entry) = true) result /\
  NoDup (keys result) /\
  Css.cssVariables result = result.
Proof.
  assert (Hinv : forall acc,
             Forall (fun entry => startsWith (fst entry) "--" = true /\
                                  Notions.isString (snd entry) = true) acc ->
             NoDup (keys acc) ->
             let result :=
               fold_left (fun result entry =>
                            let key := fst entry in
                            let variableName :=
                              if startsWith key "--" then key else "--" ++ key in
                            setProperty variableName (VString (toString (snd entry))) result)
                         variables acc in
             Forall (fun entry => startsWith (fst entry) "--" = true /\
                                  Notions.isString (snd entry) = true) result /\
             NoDup (keys result)).
  { induction variables as [|[k v] rest IH]; intros acc Hacc Hnodup; [now split|].
    cbn [fold_left]. apply IH.
    - apply setProperty_Forall; [|exact Hacc]. cbn [fst snd]. split; [|reflexivity].
      destruct (startsWith k "--") eqn:E; [exact E|].
      unfold startsWith. apply prefix_append.
    - now apply setProperty_NoDup. }
  destruct (Hinv [] (Forall_nil _) (NoDup_nil _)) as [Hshape Hnodup].
  fold (Css.cssVariables variables) in Hshape, Hnodup.
  cbv zeta. split; [exact Hshape|]. split; [exact Hnodup|].
  set (result := Css.cssVariables variables) in *.
  unfold Css.cssVariables at 1.
  apply (write_all_new
           (fun entry =>
              (if startsWith (fst entry) "--" then fst entry else "--" ++ fst entry,
               VString (toString (snd entry))))
           result []); [|exact Hnodup].
  intros [k v] Hin. rewrite Forall_forall in Hshape.
  destruct (Hshape (k, v) Hin) as [Hk Hv]. cbn [fst snd] in *.
  rewrite Hk. destruct v; try discriminate. reflexivity.
Qed.

(** ** Theme variables *)

Section ThemeVariables.
Context (prefix : string).

Lemma processValue_object (props : object) (path : list string) (variables : object) :
  Variables.processValue prefix (VObject props) path variables
  = fold_left (fun vars entry =>
                 Variables.processValue prefix (snd entry) (path ++ [fst entry]) vars)
              props variables.
Proof. reflexivity. Qed.

Lemma processValue_keeps (name : string) (v : value) :
  forall path variables,
    In name (keys variables) ->
    In name (keys (Variables.processValue prefix v path variables)).
Proof.
  induction v as [| |b|n|s|props IH] using value_induction; intros path variables Hin;
    try exact Hin; try (now apply setProperty_keeps).
  rewrite processValue_object. revert variables Hin.
  induction IH as [|[k x] rest Hx _ IHrest]; intros variables Hin; [exact Hin|].
  cbn [fold_left]. apply IHrest. now apply Hx.
Qed.

Lemma processValue_fold_keeps (name : string) (props : object) (path : list string)
    (variables : object) :
  In name (keys variables) ->
  In name (keys (fold_left (fun vars entry =>
                              Variables.processValue prefix (snd entry)
                                (path ++ [fst entry]) vars)
                           props variables)).
Proof.
  revert variables. induction props as [|[k x] rest IH]; intros variables Hin; [exact Hin|].
  cbn [fold_left]. apply IH. now apply processValue_keeps.
Qed.

Lemma processValue_defines (rest : list string) :
  forall (v : value) (path : list string) (variables : object) (leaf : value),
    Notions.lookupPath v rest = Some leaf ->
    Notions.isLeaf leaf = true ->
    In (Variables.variableNameOf prefix (path ++ rest))
       (keys (Variables.processValue prefix v path variables)).
Proof.
  induction rest as [|name rest IH]; intros v path variables leaf Hfind Hleaf.
  - cbn in Hfind. injection Hfind as ->. rewrite app_nil_r.
    destruct leaf; try discriminate; apply setProperty_defines.
  - cbn in Hfind. destruct v as [| | | | |props]; try discriminate.
    destruct (getProperty name props) as [inner|] eqn:Hget; [|discriminate].
    rewrite processValue_object. revert variables.
    induction props as [|[k x] more IHprops]; intros variables; [discriminate|].
    cbn in Hget. cbn [fold_left fst snd]. destruct (String.eqb k name) eqn:E.
    + apply String.eqb_eq in E. subst k. injection Hget as ->.
      apply processValue_fold_keeps.
      replace (path ++ name :: rest)%list with ((path ++ [name]) ++ rest)%list
        by (now rewrite <- app_assoc).
      now apply (IH inner (path ++ [name])%list variables leaf).
    + now apply IHprops.
Qed.

Lemma processValue_shape (v : value) :
  forall path variables,
    Forall (fun entry => startsWith (fst entry) ("--" ++ prefix ++ "-") = true /\
                         Notions.isString (snd entry) = true) variables ->
    NoDup (keys variables) ->
    let result := Variables.processValue prefix v path variables in
    Forall (fun entry => startsWith (fst entry) ("--" ++ prefix ++ "-") = true /\
                         Notions.isString (snd entry) = true) result /\
    NoDup (keys result).
Proof.
  assert (Hname : forall path,
             startsWith (Variables.variableNameOf prefix path) ("--" ++ prefix ++ "-") = true).
  { intros path. unfold startsWith, Variables.variableNameOf.
    replace ("--" ++ prefix ++ "-" ++ join "-" path)
      with (("--" ++ prefix ++ "-") ++ join "-" path).
    - apply prefix_append.
    - cbn. f_equal. f_equal. now rewrite string_app_assoc. }
  induction v as [| |b|n|s|props IH] using value_induction;
    intros path variables Hshape Hnodup; cbv zeta;
    try (split; assumption);
    try (split; [apply setProperty_Forall; [split; [apply Hname | reflexivity] | exact Hshape]
                | now apply setProperty_NoDup]).
  rewrite processValue_object. revert variables Hshape Hnodup.
  induction IH as [|[k x] rest Hx _ IHrest]; intros variables Hshape Hnodup;
    [split; assumption|].
  cbn [fold_left fst snd].
  destruct (Hx (path ++ [k])%list variables Hshape Hnodup) as [Hshape' Hnodup'].
  now apply IHrest.
Qed.
End ThemeVariables.

Lemma themeToVariables_processValue (m : Variables.VariableManager) (theme : object) :
  Variables.themeToVariables m theme
  = Variables.processValue (Variables.prefix (Variables.config m)) (VObject theme) [] [].
Proof. reflexivity. Qed.

(** X20: the variables that [themeToVariables] makes of a theme, of
    any depth: every name starts with two hyphens, the configured prefix
    and a hyphen, every value is a string, and no name occurs twice. *)
Theorem themeToVariables_well_formed (m : Variables.VariableManager) (theme : object) :
  let variables := Variables.themeToVariables m theme in
  Forall (fun entry =>
            startsWith (fst entry) ("--" ++ Variables.prefix (Variables.config m) ++ "-") = true /\
            Notions.isString (snd entry) = true) variables /\
  NoDup (keys variables).
Proof.
  rewrite themeToVariables_processValue.
  apply processValue_shape; constructor.
Qed.

(** X21: every leaf of a theme gets its variable: when following the
    property names of a path from the theme ends at a boolean, a number
    or a string, [themeToVariables] defines the variable named by the
    prefix and the path. *)
Theorem themeToVariables_defines_every_leaf (m : Variables.VariableManager)
    (theme : object) (path : list string) (leaf : value) :
  Notions.lookupPath (VObject theme) path = Some leaf ->
  Notions.isLeaf leaf = true ->
  In (Variables.variableNameOf (Variables.prefix (Variables.config m)) path)
     (keys (Variables.themeToVariables m theme)).
Proof.
  intros Hfind Hleaf. rewrite themeToVariables_processValue.
  exact (processValue_defines _ path (VObject theme) [] [] leaf Hfind Hleaf).
Qed.

Lemma themeToVariables_defines_every_leaf_witness :
  let m := {| Variables.config :=
                {| Variables.prefix := "css-var"; Variables.autoInject := true;
                   Variables.target := ":root" |};
              Variables.injectedVariables := []; Variables.styleElement := None |} in
  let theme := [("colors", VObject [("brand", VObject [("main", VString "#07f")])]);
                ("space", VObject [("small", VNumber (ofZ 4))])] in
  In "--css-var-colors-brand-main" (keys (Variables.themeToVariables m theme)).
Proof.
  intros m theme.
  exact (themeToVariables_defines_every_leaf m theme ["colors"; "brand"; "main"]
           (VString "#07f") eq_refl eq_refl).
Defined.

(** X22: [getVariableName] and [themeToVariables] agree on the themes
    of two levels: when a category of the theme holds a boolean, a number
    or a string under a key, the name that [getVariableName] builds for
    the category and the key, which [getVariableReference] wraps in
    [var(...)], is the name of a variable that [themeToVariables]
    defines. *)
Theorem getVariableName_names_a_variable (m : Variables.VariableManager)
    (theme group : object) (category key : string) (leaf : value) :
  getProperty category theme = Some (VObject group) ->
  getProperty key group = Some leaf ->
  Notions.isLeaf leaf = true ->
  In (Variables.getVariableName m category key)
     (keys (Variables.themeToVariables m theme)) /\
  Variables.getVariableReference m category key
  = "var(" ++ Variables.getVariableName m category key ++ ")".
Proof.
  intros Hgroup Hleafat Hleaf. split; [|reflexivity].
  rewrite themeToVariables_processValue.
  assert (Hfind : Notions.lookupPath (VObject theme) [category; key] = Some leaf).
  { cbn. now rewrite Hgroup, Hleafat. }
  exact (processValue_defines _ [category; key] (VObject theme) [] [] leaf Hfind Hleaf).
Qed.

Lemma getVariableName_names_a_variable_witness :
  let m := {| Variables.config :=
                {| Variables.prefix := "css-var"; Variables.autoInject := true;
                   Variables.target := ":root" |};
              Variables.injectedVariables := []; Variables.styleElement := None |} in
  let theme := [("space", VObject [("small", VNumber (ofZ 4))])] in
  In (Variables.getVariableName m "space" "small")
     (keys (Variables.themeToVariables m theme)).
Proof.
  intros m theme.
  exact (proj1 (getVariableName_names_a_variable m theme [("small", VNumber (ofZ 4))]
                  "space" "small" (VNumber (ofZ 4)) eq_refl eq_refl eq_refl)).
Defined.
